(** * Multi-agent research pipeline: a shallow embedding and its properties

    The development follows the single source file of the repository:
    the [MultiAgentPipeline] class (context builder and agent
    orchestrator), the [MultiAgentEvaluator] class, and the experiment
    runner functions [parse_feasibility_scores], [run_experiment] and
    [summarize_scores].

    Conventions.
    - A Python [str] is a list of Unicode code points ([pystr]).
    - A Python [float] is an IEEE 754 double ([F64.float]): similarity
      scores, their mean as [numpy.mean] computes it, and the mean and
      the standard deviation of [statistics] are rounded as the
      libraries round them.  A Python [int] is an integer ([Z]) and a
      [Fraction] a rational in lowest terms ([Qc]).
    - External collaborators (vector index, summarizer, language model,
      wall clock) are the fields of the class [Services]; the order in
      which the thread pool completes its tasks is an argument of the
      functions that fan out. *)

From Stdlib Require Import ZArith NArith QArith Qcanon Qround Qabs Qpower.
From Stdlib Require Import Lia Lqa String Ascii.
From stdpp Require Import base numbers option list gmap.

Local Open Scope Z_scope.

(** ** Python values *)

Module Py.

(** A [str] is its sequence of code points. *)
Definition pystr := list N.

(** An ASCII literal as a [pystr]. *)
Definition lit (s : string) : pystr :=
  map N_of_ascii (list_ascii_of_string s).

Definition LF : N := 10%N.

(** Exceptions the modelled code can raise. *)
Inductive exn :=
| EnvironmentError (msg : pystr)
| FileNotFoundError (msg : pystr)
| ValueError
| StatisticsError
| OverflowError
| ZeroDivisionError.

Inductive result (A : Type) :=
| Ok (a : A)
| Raise (e : exn).
Arguments Ok {A} a.
Arguments Raise {A} e.

Definition bind {A B} (x : result A) (f : A -> result B) : result B :=
  match x with
  | Ok a => f a
  | Raise e => Raise e
  end.

(** [str.isspace] on one code point ([Py_UNICODE_ISSPACE]). *)
Definition isspace (c : N) : bool :=
  ((9 <=? c) && (c <=? 13) || (28 <=? c) && (c <=? 32)
   || (c =? 133) || (c =? 160) || (c =? 5760)
   || (8192 <=? c) && (c <=? 8202)
   || (c =? 8232) || (c =? 8233) || (c =? 8239) || (c =? 8287)
   || (c =? 12288))%N.

Definition isdigit_ascii (c : N) : bool := ((48 <=? c) && (c <=? 57))%N.

Definition isalnum_ascii (c : N) : bool :=
  (isdigit_ascii c || (65 <=? c) && (c <=? 90) || (97 <=? c) && (c <=? 122))%N.

(** [sep.join(parts)]. *)
Fixpoint join (sep : pystr) (parts : list pystr) : pystr :=
  match parts with
  | [] => []
  | [p] => p
  | p :: ps => p ++ sep ++ join sep ps
  end.

(** [text.split("\n")]: always at least one field. *)
Fixpoint split_lines_aux (cur : pystr) (s : pystr) : list pystr :=
  match s with
  | [] => [rev cur]
  | c :: s' =>
      if (c =? LF)%N then rev cur :: split_lines_aux [] s'
      else split_lines_aux (c :: cur) s'
  end.

Definition split_lines (s : pystr) : list pystr := split_lines_aux [] s.

Fixpoint lstrip (s : pystr) : pystr :=
  match s with
  | c :: s' => if isspace c then lstrip s' else s
  | [] => []
  end.

(** [s.strip()] with no argument strips Unicode whitespace. *)
Definition strip (s : pystr) : pystr := rev (lstrip (rev (lstrip s))).

(** Truthiness of a [str]. *)
Definition truthy (s : pystr) : bool :=
  match s with [] => false | _ => true end.

(** [l[:stop]] for a Python integer [stop]: a negative [stop] counts
    from the end of the list. *)
Definition slice_to {A} (l : list A) (stop : Z) : list A :=
  if 0 <=? stop then take (Z.to_nat stop) l
  else take (Z.to_nat (Z.of_nat (length l) + stop)) l.

(** [int(s)] on a string of ASCII decimal digits; anything else is a
    [ValueError] in this model. *)
Fixpoint int_digits (acc : Z) (s : pystr) : result Z :=
  match s with
  | [] => Ok acc
  | c :: s' =>
      if isdigit_ascii c then int_digits (10 * acc + (Z.of_N c - 48)) s'
      else Raise ValueError
  end.

Definition int (s : pystr) : result Z :=
  match s with
  | [] => Raise ValueError
  | _ => int_digits 0 s
  end.

End Py.

Import Py.

(** ** IEEE 754 double precision

    A Python [float] and a [numpy.float64].  A finite double is carried
    as the rational it stands for and the two zeros are one value.  An
    operation rounds its exact result to the nearest double, ties to the
    even significand, and overflows to an infinity. *)

Module F64.

Inductive float :=
| Finite (q : Qc)
| Inf (negative : bool)
| NaN.

Definition two_pow (k : Z) : Q := (2 ^ k)%Q.

(** The exponent of the leading bit of a rational that is not zero:
    [2 ^ ilog2 q <= |q| < 2 ^ (ilog2 q + 1)]. *)
Definition ilog2 (q : Q) : Z :=
  let a := Z.abs (Qnum q) in
  let d := Zpos (Qden q) in
  let K := Z.log2 d + 1 in
  Z.log2 (a * 2 ^ K / d) - K.

(** The nearest integer, ties to even. *)
Definition rne (q : Q) : Z :=
  let f := Qfloor q in
  match (q - inject_Z f ?= 1 # 2)%Q with
  | Lt => f
  | Gt => f + 1
  | Eq => if Z.even f then f else f + 1
  end.

(** The exponent of the last place of the doubles around [q]: 53
    significant bits, and no exponent below that of the subnormals. *)
Definition ulp_exp (q : Q) : Z := Z.max (-1074) (ilog2 q - 52).

(** The rational [q] as a double. *)
Definition round (q : Q) : float :=
  if Qeq_bool q 0 then Finite (Q2Qc 0)
  else
    let e := ulp_exp q in
    let r := (inject_Z (rne (q / two_pow e)) * two_pow e)%Q in
    if Qle_bool (two_pow 1024) (Qabs r) then Inf (negb (Qle_bool 0 q))
    else Finite (Q2Qc r).

(** The multiple of the last place nearest to [q], before the test for
    overflow. *)
Definition rounded (q : Q) : Q :=
  (inject_Z (rne (q / two_pow (ulp_exp q))) * two_pow (ulp_exp q))%Q.

Definition add (x y : float) : float :=
  match x, y with
  | NaN, _ | _, NaN => NaN
  | Inf a, Inf b => if Bool.eqb a b then Inf a else NaN
  | Inf a, Finite _ | Finite _, Inf a => Inf a
  | Finite a, Finite b => round (a + b)%Qc
  end.

Definition is_neg (q : Qc) : bool := negb (Qle_bool 0 q).

Definition div (x y : float) : float :=
  match x, y with
  | NaN, _ | _, NaN => NaN
  | Inf _, Inf _ => NaN
  | Inf a, Finite b => Inf (xorb a (is_neg b))
  | Finite _, Inf _ => Finite (Q2Qc 0)
  | Finite a, Finite b =>
      if Qeq_bool b 0 then
        if Qeq_bool a 0 then NaN else Inf (is_neg a)
      else round (a / b)%Qc
  end.

(** [x <= y] as Python compares two floats: false when either is a
    NaN. *)
Definition leb (x y : float) : bool :=
  match x, y with
  | NaN, _ | _, NaN => false
  | Inf true, _ => true
  | _, Inf false => true
  | Inf false, _ => false
  | _, Inf true => false
  | Finite a, Finite b => Qle_bool a b
  end.

End F64.

Import F64.

(** ** [numpy.mean] of a list of doubles

    [np.mean(scores)] adds the elements with numpy's pairwise summation
    ([DOUBLE_pairwise_sum], reached through [np.add.reduce] with the
    initial value 0.0) and divides the sum by the number of elements. *)

(** [((r[0] + r[1]) + (r[2] + r[3])) + ((r[4] + r[5]) + (r[6] + r[7]))]. *)
Definition sum8 (r : list float) : float :=
  let r_ i := default (Finite (Q2Qc 0)) (r !! i) in
  add (add (add (r_ 0%nat) (r_ 1%nat)) (add (r_ 2%nat) (r_ 3%nat)))
      (add (add (r_ 4%nat) (r_ 5%nat)) (add (r_ 6%nat) (r_ 7%nat))).

(** The unrolled loop: each further block of eight elements is added,
    place by place, to the eight accumulators [r]. *)
Fixpoint add_blocks (r : list float) (blocks : nat) (a : list float)
    : list float :=
  match blocks with
  | O => r
  | S b => add_blocks (zip_with add r (take 8 a)) b (drop 8 a)
  end.

(** A block of 8 to 128 elements: eight accumulators start as the first
    eight elements, take the further blocks of eight, are added up as a
    tree, and the elements left over are added one by one. *)
Definition unrolled_sum (a : list float) : float :=
  let blocks := (length a / 8)%nat in
  let r := add_blocks (take 8 a) (blocks - 1) (drop 8 a) in
  foldl add (sum8 r) (drop (8 * blocks) a).

(** [DOUBLE_pairwise_sum]: fewer than 8 elements are added one by one
    from 0, up to 128 with the unrolled loop, and more are split in two
    parts, the first a multiple of 8 long, that are summed separately.
    The recursion halves the list; [fuel] bounds its depth. *)
Fixpoint pairwise_sum (fuel : nat) (a : list float) : float :=
  let n := length a in
  if (n <? 8)%nat then foldl add (Finite (Q2Qc 0)) a
  else if (n <=? 128)%nat then unrolled_sum a
  else
    match fuel with
    | O => unrolled_sum a
    | S fuel' =>
        let n2 := (n / 2 - (n / 2) mod 8)%nat in
        add (pairwise_sum fuel' (take n2 a)) (pairwise_sum fuel' (drop n2 a))
    end.

(** [np.add.reduce(a)]: the reduction starts from 0.0. *)
Definition np_sum (a : list float) : float :=
  add (Finite (Q2Qc 0)) (pairwise_sum (length a) a).

(** [np.mean(a)]: the sum divided by the count, which is exact as a
    double for any list that fits in memory. *)
Definition np_mean (a : list float) : float :=
  div (np_sum a) (Finite (Qc_of_Z (Z.of_nat (length a)))).

(** ** The regular expressions of [parse_feasibility_scores]

    A backtracking matcher with the search order of Python's [re]:
    leftmost start position, alternatives left to right, greedy
    repetition.  Only the constructs the two patterns use are present. *)

Module Re.

Inductive regex :=
| Empty
| Chr (c : N)                 (* one literal character *)
| Cls (p : N -> bool)         (* one character of a class *)
| Seq (r1 r2 : regex)
| Alt (r1 r2 : regex)         (* r1|r2 *)
| Star (p : N -> bool)        (* greedy [p]* over a character class *)
| Opt (r : regex)             (* (?:r)? *)
| Bol                         (* ^ with re.MULTILINE *)
| WordB                       (* \b *)
| Group (r : regex).          (* capturing group number 1 *)

(** A position in the subject: its index, the character before it and
    the characters from it on. *)
Record cursor := Cursor { idx : nat; prev : option N; rest : list N }.

(** Text captured by group 1, when the group took part in the match. *)
Definition marks := option pystr.

(** A match object: [m.start()], [m.end()] and the text of group 1. *)
Record matchobj := MatchObj { m_start : nat; m_end : nat; m_group1 : marks }.

Section Engine.

(** [Py_UNICODE_ISALNUM] beyond ASCII comes from the Unicode database. *)
Variable uni_alnum : N -> bool.

(** [\w] for a [str] pattern. *)
Definition isword (c : N) : bool :=
  if (c <? 128)%N then isalnum_ascii c || (c =? 95)%N else uni_alnum c.

Definition isword_opt (c : option N) : bool :=
  match c with Some x => isword x | None => false end.

Definition at_boundary (cur : cursor) : bool :=
  xorb (isword_opt (prev cur)) (isword_opt (head (rest cur))).

Definition at_bol (cur : cursor) : bool :=
  match prev cur with
  | None => true
  | Some c => (c =? LF)%N
  end.

Fixpoint star {R} (p : N -> bool) (k : cursor -> option R)
    (i : nat) (pv : option N) (s : list N) : option R :=
  match s with
  | c :: s' =>
      if p c then
        match star p k (S i) (Some c) s' with
        | Some r => Some r
        | None => k (Cursor i pv s)
        end
      else k (Cursor i pv s)
  | [] => k (Cursor i pv s)
  end.

Fixpoint rmatch {R} (r : regex) (k : cursor -> marks -> option R)
    (cur : cursor) (m : marks) : option R :=
  match r with
  | Empty => k cur m
  | Chr c =>
      match rest cur with
      | x :: s' => if (x =? c)%N then k (Cursor (S (idx cur)) (Some x) s') m else None
      | [] => None
      end
  | Cls p =>
      match rest cur with
      | x :: s' => if p x then k (Cursor (S (idx cur)) (Some x) s') m else None
      | [] => None
      end
  | Seq r1 r2 => rmatch r1 (rmatch r2 k) cur m
  | Alt r1 r2 =>
      match rmatch r1 k cur m with
      | Some x => Some x
      | None => rmatch r2 k cur m
      end
  | Star p => star p (fun cur' => k cur' m) (idx cur) (prev cur) (rest cur)
  | Opt r1 =>
      match rmatch r1 k cur m with
      | Some x => Some x
      | None => k cur m
      end
  | Bol => if at_bol cur then k cur m else None
  | WordB => if at_boundary cur then k cur m else None
  | Group r1 =>
      rmatch r1
        (fun cur' _ => k cur' (Some (take (idx cur' - idx cur) (rest cur))))
        cur m
  end.

(** One attempt at a given start position. *)
Definition match_at (r : regex) (cur : cursor) : option matchobj :=
  rmatch r (fun cur' m => Some (MatchObj (idx cur) (idx cur') m)) cur None.

(** [re.search]: start positions from left to right, the end of the
    subject included. *)
Fixpoint search_from (r : regex) (i : nat) (pv : option N) (s : list N)
    : option matchobj :=
  match match_at r (Cursor i pv s) with
  | Some mo => Some mo
  | None =>
      match s with
      | c :: s' => search_from r (S i) (Some c) s'
      | [] => None
      end
  end.

Definition search (r : regex) (text : pystr) : option matchobj :=
  search_from r 0 None text.

(** [m.group(1)] for a group that took part in the match. *)
Definition group1 (mo : matchobj) : pystr := default [] (m_group1 mo).

End Engine.

(** Literal text as a sequence of [Chr]. *)
Definition chars (s : pystr) : regex := foldr (fun c r => Seq (Chr c) r) Empty s.

(** [[1-9]]. *)
Definition d19 (c : N) : bool := ((49 <=? c) && (c <=? 57))%N.

(** [[:\-\s]]. *)
Definition label_sep (c : N) : bool :=
  ((c =? 58) || (c =? 45))%N || isspace c.

(** [[1-9]|10]. *)
Definition one_to_ten : regex := Alt (Cls d19) (Seq (Chr 49) (Chr 48)).

(** The body of group 1 of the marker pattern. *)
Definition rating : regex := Seq WordB (Seq one_to_ten WordB).

(** The part of the marker pattern after the marker and the white
    space: the optional label, then group 1. *)
Definition label_then_rating : regex :=
  Seq (Opt (Seq (chars (lit "Rate feasibility")) (Star label_sep)))
      (Group rating).

(** The first pattern of the source, compiled with [re.MULTILINE]: a line
    start, a greedy run of [\s], the two characters "1" and ")", a greedy
    run of [\s], an optional non-capturing group made of the words
    "Rate feasibility" and a greedy run of [[:\-\s]], and group 1, which
    is a word boundary, [[1-9]|10] and a word boundary. *)
Definition marker_pattern : regex :=
  Seq Bol
  (Seq (Star isspace)
  (Seq (Chr 49) (Seq (Chr 41)
  (Seq (Star isspace) label_then_rating)))).

(** The fallback pattern: a word boundary, group 1 = [[1-9]|10], a word
    boundary. *)
Definition fallback_pattern : regex :=
  Seq WordB (Seq (Group one_to_ten) WordB).

(** *** What the two patterns look for, said without a matcher

    These definitions follow the description of the parser: a
    standalone integer between 1 and 10, and the answer marker "1)"
    at the start of a line, possibly followed by the rating label. *)

Section Reading.

Variable uni_alnum : N -> bool.

(** A standalone integer in 1..10 stands at [cur]: no word character
    before it, one digit 1..9 or the digits "10", no word character
    after it.  The result is its value and the position after it. *)
Definition standalone_at (cur : cursor) : option (Z * cursor) :=
  if isword_opt uni_alnum (prev cur) then None
  else
    match rest cur with
    | x :: s' =>
        if d19 x && negb (isword_opt uni_alnum (head s')) then
          Some (Z.of_N x - 48, Cursor (S (idx cur)) (Some x) s')
        else
          match s' with
          | y :: s'' =>
              if (x =? 49)%N && (y =? 48)%N
                 && negb (isword_opt uni_alnum (head s'')) then
                Some (10, Cursor (S (S (idx cur))) (Some y) s'')
              else None
          | [] => None
          end
    | [] => None
    end.

(** Skip the longest run of characters of class [p]. *)
Fixpoint skip_run (p : N -> bool) (i : nat) (pv : option N) (s : list N)
    : cursor :=
  match s with
  | c :: s' => if p c then skip_run p (S i) (Some c) s' else Cursor i pv s
  | [] => Cursor i pv s
  end.

Definition skip (p : N -> bool) (cur : cursor) : cursor :=
  skip_run p (idx cur) (prev cur) (rest cur).

(** Read the literal text [w]. *)
Fixpoint eat (w : pystr) (cur : cursor) : option cursor :=
  match w with
  | [] => Some cur
  | c :: w' =>
      match rest cur with
      | x :: s' =>
          if (x =? c)%N then eat w' (Cursor (S (idx cur)) (Some x) s')
          else None
      | [] => None
      end
  end.

(** Skip the rating label and the separators after it, if the label is
    there. *)
Definition skip_label (cur : cursor) : cursor :=
  match eat (lit "Rate feasibility") cur with
  | Some c => skip label_sep c
  | None => cur
  end.

(** From the start of a line: white space, the marker "1)", white
    space, the optional label.  The result is the position where the
    rating must stand. *)
Definition after_marker (cur : cursor) : option cursor :=
  if at_bol cur then
    match eat [49%N; 41%N] (skip isspace cur) with
    | Some c => Some (skip_label (skip isspace c))
    | None => None
    end
  else None.

(** The rating that follows an answer marker starting at [cur]. *)
Definition marker_at (cur : cursor) : option Z :=
  match after_marker cur with
  | Some c => fst <$> standalone_at c
  | None => None
  end.

(** The first position, from left to right, where [g] finds something. *)
Fixpoint first_from {X} (g : cursor -> option X) (i : nat) (pv : option N)
    (s : list N) : option X :=
  match g (Cursor i pv s) with
  | Some x => Some x
  | None =>
      match s with
      | c :: s' => first_from g (S i) (Some c) s'
      | [] => None
      end
  end.

(** The rating after the first answer marker of the text. *)
Definition first_marker (text : pystr) : option Z :=
  first_from marker_at 0%nat None text.

(** The first standalone integer in 1..10 of the text. *)
Definition first_standalone (text : pystr) : option Z :=
  first_from (fun cur => fst <$> standalone_at cur) 0%nat None text.

(** The two tiers: the rating after the first answer marker, else the
    first standalone integer in 1..10, else nothing. *)
Definition rating_of (text : pystr) : option Z :=
  match first_marker text with
  | Some v => Some v
  | None => first_standalone text
  end.

(** The decimal numerals of 1..10. *)
Definition numeral (v : Z) : pystr :=
  if v =? 10 then [49%N; 48%N] else [Z.to_N (v + 48)].

(** The text contains a standalone integer in 1..10 with value [v]. *)
Definition has_standalone (text : pystr) (v : Z) : Prop :=
  exists pre post,
    text = pre ++ numeral v ++ post
    /\ 1 <= v <= 10
    /\ isword_opt uni_alnum (last pre) = false
    /\ isword_opt uni_alnum (head post) = false.

(** The text a standalone integer covers. *)
Definition covered (c c' : cursor) : pystr := take (idx c' - idx c) (rest c).

(** [cur] is a position of [text]: the text splits there, and the
    character before the position is the last one of the first part. *)
Definition position_of (text : pystr) (cur : cursor) : Prop :=
  exists pre, text = pre ++ rest cur /\ prev cur = last pre.

(** Two optional results found together, and related when found. *)
Definition agree {X Y} (Rel : X -> Y -> Prop) (ox : option X) (oy : option Y)
    : Prop :=
  match ox, oy with
  | Some x, Some y => Rel x y
  | None, None => True
  | _, _ => False
  end.

(** A match object whose group 1 reads as the integer [v]. *)
Definition reads (mo : matchobj) (v : Z) : Prop :=
  int (group1 mo) = Ok v /\ 1 <= v <= 10.

End Reading.

End Re.

(** ** The world the program runs in *)

(** What the program prints: the timings of [run] and the banner of
    [run_experiment]. *)
Inductive printed :=
| PrContext (dt : Z)
| PrProposed (dt : Z) (n : nat)
| PrValidations (dt : Z)
| PrGaps (dt : Z)
| PrTotal (dt : Z)
| PrExperiment (name : pystr).

(** What the program does to its collaborators; the trace of a world
    lists these events in order. *)
Inductive event :=
| EvQuery (index query : pystr) (k : Z)   (* one nearest-neighbour query *)
| EvSummarize (text : pystr)              (* one summarizer task *)
| EvGenerate (prompt : pystr)             (* one [llm.generate] call *)
| EvPrint (p : printed).

(** The stretches of wall-clock time the model distinguishes. *)
Inductive step :=
| StepConstruct   (* building or loading the index and the models *)
| StepContext     (* [_get_context] *)
| StepPropose     (* [_propose] *)
| StepValidate    (* [_validate] *)
| StepGaps        (* [_analyze_gaps] *)
| StepSlice       (* the two slices of [run_experiment] *)
| StepParse.      (* [parse_feasibility_scores] in [run_experiment] *)

(** The external collaborators.  Each answer may depend on the history
    of earlier calls: sampling makes the language model so, and nothing
    in the program forbids it of the others. *)
Class Services := {
  uni_alnum : N -> bool;
  similarity_search_with_score :
    list event -> pystr -> pystr -> Z -> list (pystr * float);
  summarizer : list event -> pystr -> pystr;
  llm_text : list event -> pystr -> pystr;
  elapsed : step -> Z;
}.

Record world := World {
  clock : Z;                         (* [time.time()], in ticks *)
  environ : gmap pystr pystr;        (* [os.environ] *)
  dirs : gset pystr;                 (* directories on disk *)
  trace : list event;
}.

Inductive outcome (A : Type) :=
| Returns (a : A) (w : world)
| Raises (e : exn) (w : world)
| Hangs.
Arguments Returns {A} a w.
Arguments Raises {A} e w.
Arguments Hangs {A}.

Definition M (A : Type) : Type := world -> outcome A.

Global Instance M_ret : MRet M := fun A a w => Returns a w.

Global Instance M_bind : MBind M := fun A B f m w =>
  match m w with
  | Returns a w' => f a w'
  | Raises e w' => Raises e w'
  | Hangs => Hangs
  end.

Definition raise {A} (e : exn) : M A := fun w => Raises e w.

Definition hang {A} : M A := fun _ => Hangs.

Definition lift {A} (r : result A) : M A :=
  match r with
  | Ok a => mret a
  | Raise e => raise e
  end.

Definition emit (e : event) : M unit := fun w =>
  Returns () (World (clock w) (environ w) (dirs w) (trace w ++ [e])).

Definition time_time : M Z := fun w => Returns (clock w) w.

(** [os.getenv(name, default)]. *)
Definition os_getenv (name dflt : pystr) : M pystr := fun w =>
  Returns (default dflt (environ w !! name)) w.

Definition os_path_isdir (path : pystr) : M bool := fun w =>
  Returns (bool_decide (path ∈ dirs w)) w.

Definition mkdir (path : pystr) : M unit := fun w =>
  Returns () (World (clock w) (environ w) ({[path]} ∪ dirs w) (trace w)).

Section Model.

Context `{Services}.

Definition advance (s : step) : M unit := fun w =>
  Returns () (World (clock w + elapsed s) (environ w) (dirs w) (trace w)).

(** *** The thread pool

    [ThreadPoolExecutor]: tasks are submitted in order and numbered by
    their position; the pool completes them in an order of its own
    choosing and completes every one of them. *)

(** The completion order the pool follows when it is inclined to
    [sched]: the task numbers of [sched], once each, then whatever is
    left in submission order. *)
Definition completion_order (n : nat) (sched : list nat) : list nat :=
  let s := remove_dups (filter (fun i => i < n)%nat sched) in
  s ++ list_difference (seq 0 n) s.

(** Tasks complete one after the other; a completed future holds its
    result.  (The tasks of this program do not raise.) *)
Fixpoint pool_complete {A B} (task : A -> M B) (args : list A)
    (order : list nat) (done : gmap nat B) : M (gmap nat B) :=
  match order with
  | [] => mret done
  | i :: order' =>
      match args !! i with
      | Some a => b ← task a; pool_complete task args order' (<[i:=b]> done)
      | None => pool_complete task args order' done
      end
  end.

(** [f.result()]: blocks until future [i] is done. *)
Definition future_result {B} (done : gmap nat B) (i : nat) : M B :=
  match done !! i with
  | Some b => mret b
  | None => hang
  end.

Fixpoint results_in_order {B} (done : gmap nat B) (ids : list nat) : M (list B) :=
  match ids with
  | [] => mret []
  | i :: ids' =>
      b ← future_result done i;
      bs ← results_in_order done ids';
      mret (b :: bs)
  end.

(** [list(executor.map(task, args))], and the same shape written with
    [submit] and [result]: all tasks are submitted, then the results are
    taken in submission order. *)
Definition executor_map {A B} (task : A -> M B) (args : list A)
    (sched : list nat) : M (list B) :=
  let n := length args in
  done ← pool_complete task args (completion_order n sched) ∅;
  results_in_order done (seq 0 n).

(** *** Prompt templates *)

Definition EN_DASH : N := 8211%N.

Definition PROPOSER_PROMPT (context : pystr) : pystr :=
  lit "You are an interdisciplinary researcher. Based on the following summarized literature:"
  ++ [LF; LF] ++ context ++ [LF; LF]
  ++ lit "Propose 2 novel, plausible hypotheses. List each clearly.".

Definition VALIDATOR_PROMPT (hypothesis context : pystr) : pystr :=
  lit "You are a rigorous scientific validator. Given the hypothesis:"
  ++ [LF; LF; 34%N] ++ hypothesis ++ [34%N; LF; LF]
  ++ lit "And this summarized context:" ++ [LF; LF]
  ++ context ++ [LF; LF]
  ++ lit "1) Rate feasibility 1" ++ [EN_DASH] ++ lit "10." ++ [LF]
  ++ lit "2) Summarize supporting/contradicting evidence." ++ [LF]
  ++ lit "3) Note assumptions or missing data." ++ [LF].

Definition GAP_PROMPT (context : pystr) : pystr :=
  lit "Analyze this summarized context:" ++ [LF; LF] ++ context ++ [LF; LF]
  ++ lit "Identify 2" ++ [EN_DASH]
  ++ lit "3 high-priority research gaps, with brief justification.".

(** *** MultiAgentPipeline *)

(** The literal the source passes to [os.getenv] as its default and to
    [MultiAgentEvaluator.__init__] as the default of [hf_token]; it is
    not reproduced here, only its being a non-empty string matters. *)
Definition EMBEDDED_TOKEN : pystr := lit "hf_<embedded>".

Definition TOKEN_VAR : pystr := lit "HUGGINGFACEHUB_API_TOKEN".

Record MultiAgentPipeline := {
  pdf_paths : list pystr;
  faiss_path : pystr;
  hf_token : pystr;
  (* default of [k] of the callable bound to [_get_context] *)
  get_context_k : Z;
}.

(** [_load_or_build_faiss], the summarizer and the language model: the
    index directory exists afterwards. *)
Definition load_models (path : pystr) : M unit :=
  b ← os_path_isdir path;
  _ ← (if b : bool then mret () else mkdir path);
  advance StepConstruct.

Definition MultiAgentPipeline_init (pdfs : list pystr) (path : pystr)
    : M MultiAgentPipeline :=
  tok ← os_getenv TOKEN_VAR EMBEDDED_TOKEN;
  if negb (truthy tok) then
    raise (EnvironmentError (lit "Set HUGGINGFACEHUB_API_TOKEN"))
  else
    _ ← load_models path;
    mret {| pdf_paths := pdfs; faiss_path := path; hf_token := tok;
            get_context_k := 3 |}.

(** [retriever.get_relevant_documents(query)]: the page contents of
    the chunks of one similarity search. *)
Definition get_relevant_documents (index query : pystr) (k : Z)
    : M (list pystr) := fun w =>
  Returns (fst <$> similarity_search_with_score (trace w) index query k)
    (World (clock w) (environ w) (dirs w) (trace w ++ [EvQuery index query k])).

(** One summarizer call: [self.summarizer(text, max_length=150,
    min_length=30, do_sample=False)[0]["summary_text"]]. *)
Definition summarize_task (text : pystr) : M pystr := fun w =>
  Returns (summarizer (trace w) text)
    (World (clock w) (environ w) (dirs w) (trace w ++ [EvSummarize text])).

(** [self.llm.generate([prompt]).generations[0][0].text]. *)
Definition llm_generate (prompt : pystr) : M pystr := fun w =>
  Returns (llm_text (trace w) prompt)
    (World (clock w) (environ w) (dirs w) (trace w ++ [EvGenerate prompt])).

Definition _get_context (self : MultiAgentPipeline) (k : Z)
    (sched : list nat) : M pystr :=
  docs ← get_relevant_documents (faiss_path self) [] k;
  summaries ← executor_map summarize_task docs sched;
  _ ← advance StepContext;
  mret (join [LF; LF] summaries).

(** [self._get_context(k=...)] goes through the instance attribute when
    [run_experiment] has set one; an explicit [k] wins over its default. *)
Definition call_get_context (self : MultiAgentPipeline) (k : option Z)
    (sched : list nat) : M pystr :=
  _get_context self (default (get_context_k self) k) sched.

Definition nonempty_stripped (text : pystr) : list pystr :=
  strip <$> filter (fun h => truthy (strip h) = true) (split_lines text).

Definition _propose (self : MultiAgentPipeline) (context : pystr)
    : M (list pystr) :=
  text ← llm_generate (PROPOSER_PROMPT context);
  _ ← advance StepPropose;
  mret (nonempty_stripped text).

Definition _validate (self : MultiAgentPipeline) (hypos : list pystr)
    (context : pystr) (sched : list nat) : M (list pystr) :=
  let task hypo := llm_generate (VALIDATOR_PROMPT hypo context) in
  vals ← executor_map task hypos sched;
  _ ← advance StepValidate;
  mret vals.

Definition _analyze_gaps (self : MultiAgentPipeline) (context : pystr)
    : M pystr :=
  text ← llm_generate (GAP_PROMPT context);
  _ ← advance StepGaps;
  mret text.

Record RunOutput := {
  proposed_hypotheses : list pystr;
  validations : list pystr;
  research_gaps : pystr;
}.

Definition run (self : MultiAgentPipeline) (sched_ctx sched_val : list nat)
    : M RunOutput :=
  start ← time_time;
  t0 ← time_time;
  context ← call_get_context self (Some 3) sched_ctx;
  now ← time_time;
  _ ← emit (EvPrint (PrContext (now - t0)));
  t1 ← time_time;
  hypotheses ← _propose self context;
  now ← time_time;
  _ ← emit (EvPrint (PrProposed (now - t1) (length hypotheses)));
  t2 ← time_time;
  vals ← _validate self hypotheses context sched_val;
  now ← time_time;
  _ ← emit (EvPrint (PrValidations (now - t2)));
  t3 ← time_time;
  gaps ← _analyze_gaps self context;
  now ← time_time;
  _ ← emit (EvPrint (PrGaps (now - t3)));
  now ← time_time;
  _ ← emit (EvPrint (PrTotal (now - start)));
  mret {| proposed_hypotheses := hypotheses; validations := vals;
          research_gaps := gaps |}.

(** *** MultiAgentEvaluator *)

Definition DEFAULT_FAISS_PATH : pystr := lit "faiss_index".

Record MultiAgentEvaluator := {
  ev_faiss_path : pystr;
  ev_token : pystr;
}.

(** [MultiAgentEvaluator(faiss_path=..., hf_token=..., hf_token_env=...)];
    [None] stands for an argument left to its default. *)
Definition MultiAgentEvaluator_init (path token token_env : option pystr)
    : M MultiAgentEvaluator :=
  let path := default DEFAULT_FAISS_PATH path in
  let hf_token := default EMBEDDED_TOKEN token in
  let hf_token_env := default TOKEN_VAR token_env in
  tok ← (if truthy hf_token then mret hf_token else os_getenv hf_token_env []);
  if negb (truthy tok) then
    raise (EnvironmentError
             (lit "Set $" ++ hf_token_env
              ++ lit " or pass hf_token directly to load embeddings"))
  else
    b ← os_path_isdir path;
    if negb b then
      raise (FileNotFoundError
               (lit "FAISS index directory '" ++ path ++ lit "' not found."))
    else mret {| ev_faiss_path := path; ev_token := tok |}.

Record EvaluationRecord := {
  avg_similarity : float;
  top_k_scores : list float;
  supported : bool;
}.

(** [[float(score) for (_, score) in
    self.vectorstore.similarity_search_with_score(text, k=k)]]. *)
Definition search_scores (self : MultiAgentEvaluator) (text : pystr) (k : Z)
    : M (list float) := fun w =>
  Returns
    (snd <$> similarity_search_with_score (trace w) (ev_faiss_path self) text k)
    (World (clock w) (environ w) (dirs w)
       (trace w ++ [EvQuery (ev_faiss_path self) text k])).

(** [float(np.mean(scores)) if scores else 0.0]. *)
Definition mean_or_zero (scores : list float) : float :=
  match scores with
  | [] => Finite (Q2Qc 0)
  | _ => np_mean scores
  end.

(** The record of one hypothesis; [supported] is
    [avg_sim >= support_threshold]. *)
Definition evaluation_record (scores : list float) (support_threshold : float)
    : EvaluationRecord :=
  let avg_sim := mean_or_zero scores in
  {| avg_similarity := avg_sim;
     top_k_scores := scores;
     supported := leb support_threshold avg_sim |}.

(** The loop of [evaluate_hypotheses] over the remaining hypotheses. *)
Fixpoint evaluate_loop (self : MultiAgentEvaluator) (hypotheses : list pystr)
    (k : Z) (support_threshold : float) (results : gmap pystr EvaluationRecord)
    : M (gmap pystr EvaluationRecord) :=
  match hypotheses with
  | [] => mret results
  | hypo :: rest =>
      scores ← search_scores self hypo k;
      evaluate_loop self rest k support_threshold
        (<[hypo := evaluation_record scores support_threshold]> results)
  end.

Definition evaluate_hypotheses (self : MultiAgentEvaluator)
    (hypotheses : list pystr) (k : Z) (support_threshold : float)
    : M (gmap pystr EvaluationRecord) :=
  evaluate_loop self hypotheses k support_threshold ∅.

Definition evaluate_gap_analysis (self : MultiAgentEvaluator)
    (gap_text : pystr) (k : Z) (grounding_threshold : float) : M float :=
  scores ← search_scores self gap_text k;
  mret (mean_or_zero scores).

(** *** Experiment runner *)

(** Body of the loop of [parse_feasibility_scores] for one text. *)
Definition parse_one (text : pystr) : result (option Z) :=
  let m :=
    match Re.search uni_alnum Re.marker_pattern text with
    | Some mo => Some mo
    | None => Re.search uni_alnum Re.fallback_pattern text
    end in
  match m with
  | Some mo => bind (int (Re.group1 mo)) (fun n => Ok (Some n))
  | None => Ok None
  end.

(** [parse_feasibility_scores]: [scores] grows by one entry per
    validation text. *)
Fixpoint parse_loop (scores : list (option Z)) (vals : list pystr)
    : result (list (option Z)) :=
  match vals with
  | [] => Ok scores
  | text :: vs =>
      bind (parse_one text) (fun s => parse_loop (scores ++ [s]) vs)
  end.

Definition parse_feasibility_scores (vals : list pystr)
    : result (list (option Z)) :=
  parse_loop [] vals.

Record ExperimentResult := {
  name : pystr;
  runtime : Z;
  hypotheses : list pystr;
  exp_validations : list pystr;
  scores : list (option Z);
  gaps : pystr;
}.

Definition run_experiment (nm : pystr) (pdfs : list pystr)
    (retriever_k max_hypotheses : Z) (sched_ctx sched_val : list nat)
    : M ExperimentResult :=
  _ ← emit (EvPrint (PrExperiment nm));
  start ← time_time;
  pipe ← MultiAgentPipeline_init pdfs (lit "faiss_" ++ nm);
  let pipe := {| pdf_paths := pdf_paths pipe; faiss_path := faiss_path pipe;
                 hf_token := hf_token pipe; get_context_k := retriever_k |} in
  out ← run pipe sched_ctx sched_val;
  let hypos := slice_to (proposed_hypotheses out) max_hypotheses in
  let vals := slice_to (validations out) (Z.of_nat (length hypos)) in
  _ ← advance StepSlice;
  now ← time_time;
  let runtime := now - start in
  scores ← lift (parse_feasibility_scores vals);
  _ ← advance StepParse;
  mret {| name := nm; runtime := runtime; hypotheses := hypos;
          exp_validations := vals; scores := scores;
          gaps := research_gaps out |}.

End Model.

(** *** summarize_scores *)

(** The builtins [min] and [max] raise [ValueError] on an empty list. *)
Definition py_min (l : list Z) : result Z :=
  match l with
  | [] => Raise ValueError
  | x :: l' => Ok (foldl Z.min x l')
  end.

Definition py_max (l : list Z) : result Z :=
  match l with
  | [] => Raise ValueError
  | x :: l' => Ok (foldl Z.max x l')
  end.

(** A number as [statistics.mean] returns it for [int] data: an [int]
    or a [float]. *)
Inductive pynum :=
| PyInt (z : Z)
| PyFloat (f : float).

(** [a / b] on two [int]s: the correctly rounded quotient;
    [OverflowError] when it is too large for a double. *)
Definition int_true_divide (a b : Z) : result float :=
  if b =? 0 then Raise ZeroDivisionError
  else
    match round (inject_Z a / inject_Z b) with
    | Inf _ => Raise OverflowError
    | f => Ok f
    end.

Definition Z_sum (l : list Z) : Z := foldr Z.add 0 l.

(** [statistics._convert(value, int)] on a [Fraction]: an [int] when
    the denominator is 1, else [float(value)], which divides the
    numerator by the denominator. *)
Definition _convert (value : Qc) : result pynum :=
  if Z.pos (Qden value) =? 1 then Ok (PyInt (Qnum value))
  else bind (int_true_divide (Qnum value) (Z.pos (Qden value)))
         (fun f => Ok (PyFloat f)).

(** [statistics.mean] on [int] data: the exact total divided by the
    count, then converted; needs one data point. *)
Definition statistics_mean (data : list Z) : result pynum :=
  let n := Z.of_nat (length data) in
  let total := Qc_of_Z (Z_sum data) in
  if n <? 1 then Raise StatisticsError
  else _convert (total / Qc_of_Z n)%Qc.

(** [statistics._ss] on [int] data: the exact sum of the squared
    deviations from the mean, the mean, and the count. *)
Definition _ss (data : list Z) : Qc * Qc * Z :=
  let count := Z.of_nat (length data) in
  let sx := Qc_of_Z (Z_sum data) in
  let sxx := Qc_of_Z (Z_sum ((fun n => n * n) <$> data)) in
  if count =? 0 then (Q2Qc 0, Q2Qc 0, count)
  else ((Qc_of_Z count * sxx - sx * sx) / Qc_of_Z count, sx / Qc_of_Z count,
        count)%Qc.

(** [int.bit_length]. *)
Definition bit_length (n : Z) : Z :=
  if n =? 0 then 0 else Z.log2 (Z.abs n) + 1.

(** [statistics._integer_sqrt_of_frac_rto]: the integer square root of
    [n / m], rounded to odd. *)
Definition _integer_sqrt_of_frac_rto (n m : Z) : Z :=
  let a := Z.sqrt (n / m) in
  Z.lor a (if a * a * m =? n then 0 else 1).

Definition _sqrt_bit_width : Z := 2 * 53 + 3.

(** [statistics._float_sqrt_of_frac]: the square root of [n / m] as a
    double, through an integer square root of 109 bits. *)
Definition _float_sqrt_of_frac (n m : Z) : result float :=
  let q := (bit_length n - bit_length m - _sqrt_bit_width) / 2 in
  if 0 <=? q then
    int_true_divide
      (Z.shiftl (_integer_sqrt_of_frac_rto n (Z.shiftl m (2 * q))) q) 1
  else
    int_true_divide
      (_integer_sqrt_of_frac_rto (Z.shiftl n (-2 * q)) m) (Z.shiftl 1 (- q)).

(** [statistics.stdev] on [int] data: the square root of the sample
    variance; needs two data points. *)
Definition statistics_stdev (data : list Z) : result float :=
  let '(ss, c, n) := _ss data in
  if n <? 2 then Raise StatisticsError
  else
    let mss := (ss / Qc_of_Z (n - 1))%Qc in
    _float_sqrt_of_frac (Qnum mss) (Z.pos (Qden mss)).

Record ScoreSummary := {
  s_min : option Z;
  s_max : option Z;
  s_mean : option pynum;
  s_std : option float;
}.

(** [[s for s in scores if s is not None]]. *)
Definition clean_scores (scores : list (option Z)) : list Z :=
  omap id scores.

Definition summarize_scores (scores : list (option Z)) : result ScoreSummary :=
  let clean := clean_scores scores in
  match clean with
  | [] => Ok {| s_min := None; s_max := None; s_mean := None; s_std := None |}
  | _ =>
      bind (py_min clean) (fun mn =>
      bind (py_max clean) (fun mx =>
      bind (statistics_mean clean) (fun mean =>
      bind (if (1 <? length clean)%nat then statistics_stdev clean
            else Ok (Finite (Q2Qc 0))) (fun std =>
      Ok {| s_min := Some mn; s_max := Some mx; s_mean := Some mean;
            s_std := Some std |}))))
  end.

(** *** Building or loading the index: [_load_or_build_faiss]

    The index saved under a directory is what [FAISS.load_local] gives
    back for that directory; [disk] maps the directories that hold an
    index to it. *)

Section IndexConstruction.

(** Embedding vectors. *)
Context {vec : Type}.

(** [PyPDFLoader(path).load()] followed by [splitter.split_documents]:
    the [page_content] of the chunks of one document, in order. *)
Variable chunks_of : pystr -> list pystr.

(** [embedder.embed_documents]. *)
Variable embed_documents : list pystr -> list vec.

(** [range(0, n, step)] for a positive [step]. *)
Definition range_step (n step : nat) : list nat :=
  (fun j => j * step)%nat <$> seq 0 ((n + step - 1) / step).

Definition batch_size : nat := 32.

(** The loop over [self.pdf_paths], and the [page_content] of every
    chunk collected. *)
Definition load_texts (pdfs : list pystr) : list pystr :=
  foldl (fun docs path => docs ++ chunks_of path) [] pdfs.

(** The loop over the batches: [embeddings.extend(...)] for each
    [texts[i : i + batch_size]]. *)
Definition embed_in_batches (texts : list pystr) : list vec :=
  foldl
    (fun embeddings i =>
       embeddings ++ embed_documents (take batch_size (drop i texts)))
    [] (range_step (length texts) batch_size).

(** The vector store the pipeline ends up with, and the disk after. *)
Definition _load_or_build_faiss (disk : gmap pystr (list (pystr * vec)))
    (path : pystr) (pdfs : list pystr)
    : list (pystr * vec) * gmap pystr (list (pystr * vec)) :=
  match disk !! path with
  | Some store => (store, disk)
  | None =>
      let texts := load_texts pdfs in
      let embeddings := embed_in_batches texts in
      let pairs := zip texts embeddings in
      (pairs, <[path := pairs]> disk)
  end.

(** The batches [embed_documents] is called on, in order. *)
Definition batches (texts : list pystr) : list (list pystr) :=
  (fun i => take batch_size (drop i texts))
    <$> range_step (length texts) batch_size.

End IndexConstruction.

(** ** Vocabulary of the statements *)

Section Vocabulary.

Context `{Services}.

Definition with_trace (w : world) (tr : list event) : world :=
  World (clock w) (environ w) (dirs w) tr.

Definition query_events (self : MultiAgentEvaluator) (texts : list pystr)
    (k : Z) : list event :=
  (fun h => EvQuery (ev_faiss_path self) h k) <$> texts.

(** The scores the index returns for [h] once the hypotheses [pre] have
    been queried. *)
Definition scores_after (self : MultiAgentEvaluator) (w : world)
    (pre : list pystr) (h : pystr) (k : Z) : list float :=
  snd <$> similarity_search_with_score
            (trace w ++ query_events self pre k) (ev_faiss_path self) h k.

(** A task that asks a collaborator one question: its answer may depend
    on the history, and it leaves one event. *)
Definition oracle_task {A B} (f : list event -> A -> B) (ev : A -> event)
    (task : A -> M B) : Prop :=
  forall a w, task a w = Returns (f (trace w) a) (with_trace w (trace w ++ [ev a])).

(** The events left by the tasks numbered [order], in that order. *)
Definition task_events {A} (ev : A -> event) (args : list A)
    (order : list nat) : list event :=
  omap (fun i => ev <$> args !! i) order.

(** The events of the generation calls for the hypotheses numbered
    [order]. *)
Definition validation_events (hypos : list pystr) (context : pystr)
    (order : list nat) : list event :=
  task_events (fun h => EvGenerate (VALIDATOR_PROMPT h context)) hypos order.

Definition is_query (e : event) : bool :=
  match e with EvQuery _ _ _ => true | _ => false end.

Definition is_summarize (e : event) : bool :=
  match e with EvSummarize _ => true | _ => false end.

(** Wall-clock time from just before [_get_context] to just after
    [_analyze_gaps]. *)
Definition chain_time : Z :=
  elapsed StepContext + elapsed StepPropose + elapsed StepValidate
  + elapsed StepGaps.

(** The token [MultiAgentPipeline.__init__] ends up with in [w]. *)
Definition resolved_token (w : world) : pystr :=
  default EMBEDDED_TOKEN (environ w !! TOKEN_VAR).

(** The pipeline [run_experiment] runs, after it has set the default
    [k] of [_get_context]. *)
Definition experiment_pipeline (nm : pystr) (pdfs : list pystr) (rk : Z)
    (w : world) : MultiAgentPipeline :=
  {| pdf_paths := pdfs; faiss_path := lit "faiss_" ++ nm;
     hf_token := resolved_token w; get_context_k := rk |}.

(** The world in which [run_experiment] calls [pipe.run()]. *)
Definition constructed (nm : pystr) (w : world) : world :=
  World (clock w + elapsed StepConstruct) (environ w)
    ({[lit "faiss_" ++ nm]} ∪ dirs w)
    (trace w ++ [EvPrint (PrExperiment nm)]).

Definition is_generate (e : event) : bool :=
  match e with EvGenerate _ => true | _ => false end.

(** The texts in order with a blank line between each two: every text
    but the first comes after two newlines. *)
Definition blank_line_separated (parts : list pystr) : pystr :=
  match parts with
  | [] => []
  | p :: ps => p ++ concat ((fun s => LF :: LF :: s) <$> ps)
  end.

Definition isspace_opt (c : option N) : bool :=
  match c with Some x => isspace x | None => false end.

(** A hypothesis as the data model wants it: not empty, no white space
    at either end, on one line. *)
Definition trimmed_line (h : pystr) : Prop :=
  h <> [] /\ isspace_opt (head h) = false /\ isspace_opt (last h) = false
  /\ LF ∉ h.

(** The index answers a query the same way at any time. *)
Definition steady_index : Prop :=
  forall tr tr' index q k,
    similarity_search_with_score tr index q k
    = similarity_search_with_score tr' index q k.

(** The summarizer answers a text the same way at any time. *)
Definition steady_summarizer : Prop :=
  forall tr tr' text, summarizer tr text = summarizer tr' text.

(** The record [evaluate_hypotheses] computes for [h] when the history
    is [tr]. *)
Definition record_of (self : MultiAgentEvaluator) (tr : list event)
    (h : pystr) (k : Z) (thr : float) : EvaluationRecord :=
  evaluation_record
    (snd <$> similarity_search_with_score tr (ev_faiss_path self) h k) thr.

End Vocabulary.

(** ** Vocabulary of the numeric properties *)

(** The sum, the arithmetic mean and the sample variance of rationals. *)
Definition Q_total (l : list Q) : Q := foldr Qplus 0%Q l.

Definition arithmetic_mean (l : list Q) : Q :=
  (Q_total l / inject_Z (Z.of_nat (length l)))%Q.

Definition sample_variance (l : list Q) : Q :=
  let m := arithmetic_mean l in
  (Q_total ((fun x => (x - m) * (x - m)) <$> l)
   / inject_Z (Z.of_nat (length l) - 1))%Q.

(** The rational a finite number stands for. *)
Definition number_value (x : pynum) : option Q :=
  match x with
  | PyInt z => Some (inject_Z z)
  | PyFloat (Finite q) => Some (this q)
  | PyFloat _ => None
  end.

(** The double that is [n / d], for a power of two [d] and an [n] of at
    most 53 bits. *)
Definition dyadic (n : Z) (d : positive) : float := Finite (Q2Qc (n # d)).

(** An integer of at most 50 bits; a feasibility score, from 1 to 10,
    is one. *)
Definition moderate (x : Z) : Prop := Z.abs x <= 2 ^ 50.

(** [avg] is the arithmetic mean of the finite [scores] up to the
    rounding of their summation and of the division: the distance is at
    most [(n + 2) * 2^-52] times the mean of the absolute values, plus
    [2^-1072] for results in the subnormal range. *)
Definition mean_up_to_rounding (scores : list float) (avg : float) : Prop :=
  forall (qs : list Qc) (v : Qc),
    scores = Finite <$> qs -> qs <> [] ->
    Z.of_nat (length qs) + 2 <= 2 ^ 50 ->
    avg = Finite v ->
    let n := inject_Z (Z.of_nat (length qs)) in
    (Qabs (v - arithmetic_mean (this <$> qs))
     <= (n + 2) * two_pow (-52) * arithmetic_mean (Qabs <$> (this <$> qs))
        + two_pow (-1072))%Q.

(** [fsum k l f]: the double [f] is a sum of the rationals [l], added
    in some order and bracketing with each addition rounded, in which
    [k] leaves take part (the elements of [l] and zeros). *)
Inductive fsum : nat -> list Qc -> float -> Prop :=
| fsum_zero : fsum 1 [] (Finite (Q2Qc 0))
| fsum_leaf x : fsum 1 [x] (Finite x)
| fsum_add k1 k2 l1 l2 a b :
    fsum k1 l1 a -> fsum k2 l2 b -> fsum (k1 + k2) (l1 ++ l2) (add a b)
| fsum_perm k l l' v : l ≡ₚ l' -> fsum k l v -> fsum k l' v.

Definition Qsum (l : list Qc) : Q := foldr (fun x acc => (this x + acc)%Q) 0%Q l.

Definition Qsum_abs (l : list Qc) : Q :=
  foldr (fun x acc => (Qabs (this x) + acc)%Q) 0%Q l.

(** The relative error of one rounding, the absolute error of one
    rounding in the subnormal range, and the growth of the error over
    [j] roundings. *)
Definition u53 : Q := two_pow (-53).

Definition eta : Q := two_pow (-1075).

Definition ppow (j : nat) : Q := ((1 + u53) ^ Z.of_nat j)%Q.

(** The accumulators of the unrolled loop, each with the elements it
    has taken. *)
Definition leaves (kl : nat * list Qc) (f : float) : Prop := fsum kl.1 kl.2 f.

Definition tot_k (KL : list (nat * list Qc)) : nat := foldr plus 0%nat (fst <$> KL).

Definition tot_L (KL : list (nat * list Qc)) : list Qc := concat (snd <$> KL).

Definition grow (kl : nat * list Qc) (q : Qc) : nat * list Qc :=
  (kl.1 + 1, kl.2 ++ [q])%nat.

(** [n * sum of squares - (sum)^2], the numerator of the variance. *)
Definition sq_gap (data : list Z) : Z :=
  Z.of_nat (length data) * Z_sum ((fun n => n * n) <$> data)
  - Z_sum data * Z_sum data.

(** ** A small concrete world

    Collaborators simple enough to run the model on. *)

Module Demo.

Definition corpus : list (pystr * float) :=
  [(lit "alpha beta", dyadic 1 2);
   (lit "gamma", dyadic 1 4);
   (lit "delta epsilon", dyadic 3 4)].

Definition starts_with (p s : pystr) : bool :=
  bool_decide (take (length p) s = p).

(** The language model answers the proposer with three lines, one of
    them blank, and a validator with a rating that grows with the number
    of events so far. *)
Definition demo_llm (tr : list event) (prompt : pystr) : pystr :=
  if starts_with (lit "You are an interdisciplinary") prompt then
    lit "H1" ++ [LF; LF] ++ lit "  H2 " ++ [LF] ++ lit "H3"
  else
    lit "1) Rate feasibility: " ++ [(48 + N.of_nat (length tr) mod 10)%N]
    ++ [LF] ++ lit "2) fine".

Definition demo_elapsed (s : step) : Z :=
  match s with
  | StepConstruct => 50
  | StepContext => 7
  | StepPropose => 3
  | StepValidate => 4
  | StepGaps => 2
  | StepSlice => 1
  | StepParse => 5
  end.

Definition demo_services : Services := {|
  uni_alnum := fun _ => false;
  similarity_search_with_score := fun _ _ _ k => take (Z.to_nat k) corpus;
  summarizer := fun _ text => take 5 text;
  llm_text := demo_llm;
  elapsed := demo_elapsed;
|}.

(** The same world with a language model that answers a prompt the
    same way at any time. *)
Definition steady_services : Services := {|
  uni_alnum := fun _ => false;
  similarity_search_with_score := fun _ _ _ k => take (Z.to_nat k) corpus;
  summarizer := fun _ text => take 5 text;
  llm_text := fun _ prompt => take 3 prompt;
  elapsed := demo_elapsed;
|}.

(** An index whose only score is the number of events so far: it
    answers the same query differently each time. *)
Definition drifting_services : Services := {|
  uni_alnum := fun _ => false;
  similarity_search_with_score := fun tr _ q _ =>
    [(q, Finite (Qc_of_Z (Z.of_nat (length tr))))];
  summarizer := fun _ text => take 5 text;
  llm_text := demo_llm;
  elapsed := demo_elapsed;
|}.

(** An index that holds nothing. *)
Definition bare_services : Services := {|
  uni_alnum := fun _ => false;
  similarity_search_with_score := fun _ _ _ _ => [];
  summarizer := fun _ text => take 5 text;
  llm_text := demo_llm;
  elapsed := demo_elapsed;
|}.

Definition w0 : world :=
  {| clock := 1000; environ := ∅; dirs := ∅; trace := [] |}.

(** A world whose environment sets the token variable to the empty
    string, and one that sets it to a token. *)
Definition w_blank : world :=
  {| clock := 1000; environ := {[TOKEN_VAR := []]}; dirs := ∅; trace := [] |}.

Definition w_token : world :=
  {| clock := 1000; environ := {[TOKEN_VAR := lit "hf_mine"]}; dirs := ∅;
     trace := [] |}.

(** Three documents of 40, 0 and 30 chunks, each chunk its own number
    as text, and an embedder that maps a text to its length. *)
Definition demo_chunks (path : pystr) : list pystr :=
  if bool_decide (path = lit "a.pdf") then (fun i => [N.of_nat i]) <$> seq 0 40
  else if bool_decide (path = lit "b.pdf") then []
  else (fun i => [N.of_nat i; 7%N]) <$> seq 100 30.

Definition demo_embed (batch : list pystr) : list nat := length <$> batch.

Definition some_pipeline : MultiAgentPipeline :=
  {| pdf_paths := []; faiss_path := lit "faiss_index";
     hf_token := EMBEDDED_TOKEN; get_context_k := 3 |}.

Definition some_evaluator : MultiAgentEvaluator :=
  {| ev_faiss_path := lit "faiss_index"; ev_token := EMBEDDED_TOKEN |}.

Definition half : float := dyadic 1 2.



End Demo.

(** ** Properties of the two patterns *)

Section PatternFacts.

Import Re.

Variable u : N -> bool.

Ltac digit_cases x Hx :=
  unfold d19 in Hx; apply andb_true_iff in Hx as [?Hlo ?Hhi];
  apply N.leb_le in Hlo, Hhi;
  assert (x = 49 \/ x = 50 \/ x = 51 \/ x = 52 \/ x = 53 \/ x = 54
          \/ x = 55 \/ x = 56 \/ x = 57)%N as Hcases by lia;
  repeat (destruct Hcases as [->|Hcases]); try subst x.

Lemma d19_word x : d19 x = true -> isword u x = true.
Proof. intros Hx. digit_cases x Hx; reflexivity. Qed.

Lemma d19_not_space x : d19 x = true -> isspace x = false.
Proof. intros Hx. digit_cases x Hx; reflexivity. Qed.

Lemma d19_not_sep x : d19 x = true -> label_sep x = false.
Proof. intros Hx. digit_cases x Hx; reflexivity. Qed.

Lemma d19_value x : d19 x = true -> 1 <= Z.of_N x - 48 <= 9.
Proof.
  intros Hx. unfold d19 in Hx. apply andb_true_iff in Hx as [Hlo Hhi].
  apply N.leb_le in Hlo, Hhi. lia.
Qed.

Lemma d19_int x : d19 x = true -> int [x] = Ok (Z.of_N x - 48).
Proof. intros Hx. digit_cases x Hx; reflexivity. Qed.

(** A greedy run never needs to give a character back when what
    follows cannot start with a character of the class. *)
Lemma star_skip {R} (p : N -> bool) (k : cursor -> option R) :
  (forall i pv c s, p c = true -> k (Cursor i pv (c :: s)) = None) ->
  forall s i pv, star p k i pv s = k (skip_run p i pv s).
Proof.
  intros Hk. induction s as [|c s IH]; intros i pv; simpl; [done|].
  destruct (p c) eqn:Hc; [|done].
  rewrite IH. destruct (k (skip_run p (S i) (Some c) s)); [done|].
  by apply Hk.
Qed.

Lemma rmatch_chars {R} (w : pystr) (k : cursor -> marks -> option R) :
  forall cur m,
    rmatch u (chars w) k cur m
      = match eat w cur with
        | Some c => k c m
        | None => None
        end.
Proof.
  induction w as [|c w IH]; intros cur m; simpl; [done|].
  destruct (rest cur) as [|x s']; [done|].
  destruct (x =? c)%N; [|done]. apply IH.
Qed.

Lemma standalone_at_head cur v c' :
  standalone_at u cur = Some (v, c') ->
  exists x s', rest cur = x :: s' /\ d19 x = true.
Proof.
  unfold standalone_at. destruct (isword_opt u (prev cur)); [done|].
  destruct (rest cur) as [|x s']; [done|].
  destruct (d19 x) eqn:Hx; [eauto|]. simpl.
  destruct s' as [|y s'']; [done|].
  destruct (x =? 49)%N eqn:Hx49; [|done].
  apply N.eqb_eq in Hx49. subst x. done.
Qed.

Lemma standalone_at_int cur v c' :
  standalone_at u cur = Some (v, c') ->
  int (covered cur c') = Ok v /\ 1 <= v <= 10.
Proof.
  unfold standalone_at, covered. destruct (isword_opt u (prev cur)); [done|].
  destruct (rest cur) as [|x s']; [done|].
  destruct (d19 x) eqn:Hx; simpl.
  - destruct (isword_opt u (head s')); simpl.
    + destruct s' as [|y s'']; [done|].
      destruct (x =? 49)%N eqn:Hx49; [|done].
      destruct (y =? 48)%N eqn:Hy; [|done].
      destruct (isword_opt u (head s'')); [done|]. simpl.
      intros [= <- <-]. simpl.
      apply N.eqb_eq in Hx49, Hy. subst.
      replace (S (S (idx cur)) - idx cur)%nat with 2%nat by lia.
      split; [reflexivity|lia].
    + intros [= <- <-]. simpl.
      replace (S (idx cur) - idx cur)%nat with 1%nat by lia.
      split; [by apply d19_int|]. pose proof (d19_value x Hx). lia.
  - destruct s' as [|y s'']; [done|].
    destruct (x =? 49)%N eqn:Hx49; [|done].
    apply N.eqb_eq in Hx49. subst x. done.
Qed.

Lemma rmatch_rating {R} (k : cursor -> marks -> option R) cur m :
  rmatch u rating k cur m
    = match standalone_at u cur with
      | Some (_, c') => k c' m
      | None => None
      end.
Proof.
  unfold rating, one_to_ten. cbn [rmatch]. unfold at_boundary, standalone_at.
  destruct cur as [i pv s]. cbn [prev rest idx].
  destruct s as [|x s']; cbn [head].
  { simpl. by destruct (isword_opt u pv). }
  change (isword_opt u (Some x)) with (isword u x).
  destruct (d19 x) eqn:Hx.
  - rewrite (d19_word x Hx).
    destruct (isword_opt u pv); cbn [xorb negb andb]; [done|].
    destruct (isword_opt u (head s')) eqn:Hs'; cbn [xorb negb andb].
    + destruct s' as [|y s'']; [done|]. cbn [head] in *.
      change (isword_opt u (Some y)) with (isword u y) in *.
      destruct (x =? 49)%N; [|done].
      destruct (y =? 48)%N eqn:Hy; [|done]. cbn [andb].
      apply N.eqb_eq in Hy. subst y.
      change (isword u 48) with true. cbn [xorb].
      by destruct (isword_opt u (head s'')).
    + destruct (k _ m); [done|].
      destruct (x =? 49)%N; [|done].
      destruct s' as [|y s'']; [done|]. cbn [head] in *.
      destruct (y =? 48)%N eqn:Hy; [|done].
      apply N.eqb_eq in Hy. subst y. done.
  - destruct (x =? 49)%N eqn:Hx49.
    { apply N.eqb_eq in Hx49. subst x. done. }
    cbn [andb]. destruct (xorb _ _), (isword_opt u pv), s'; done.
Qed.

Lemma rmatch_group_rating {R} (k : cursor -> marks -> option R) cur m :
  rmatch u (Group rating) k cur m
    = match standalone_at u cur with
      | Some (_, c') => k c' (Some (covered cur c'))
      | None => None
      end.
Proof.
  cbn [rmatch]. rewrite rmatch_rating. by destruct (standalone_at u cur) as [[]|].
Qed.

Lemma rmatch_fallback {R} (k : cursor -> marks -> option R) cur m :
  rmatch u fallback_pattern k cur m
    = match standalone_at u cur with
      | Some (_, c') => k c' (Some (covered cur c'))
      | None => None
      end.
Proof.
  transitivity (rmatch u (Group rating) k cur m);
    [reflexivity|apply rmatch_group_rating].
Qed.

Lemma group_rating_needs_digit {R} (k : cursor -> marks -> option R) cur m :
  (forall x s', rest cur = x :: s' -> d19 x = false) ->
  rmatch u (Group rating) k cur m = None.
Proof.
  intros Hhead. rewrite rmatch_group_rating.
  destruct (standalone_at u cur) as [[v c']|] eqn:Hst; [|done].
  apply standalone_at_head in Hst as (x & s' & Hrest & Hx).
  by rewrite (Hhead x s' Hrest) in Hx.
Qed.

Lemma space_not_digit c : isspace c = true -> d19 c = false.
Proof.
  intros Hc. destruct (d19 c) eqn:Hd; [|done].
  by rewrite (d19_not_space c Hd) in Hc.
Qed.

Lemma sep_not_digit c : label_sep c = true -> d19 c = false.
Proof.
  intros Hc. destruct (d19 c) eqn:Hd; [|done].
  by rewrite (d19_not_sep c Hd) in Hc.
Qed.

Lemma space_not_char c x : isspace c = true -> isspace x = false -> (c =? x)%N = false.
Proof.
  intros Hc Hx. destruct (N.eqb_spec c x) as [->|]; [|done]. congruence.
Qed.

Lemma rmatch_seq {R} r1 r2 (k : cursor -> marks -> option R) cur m :
  rmatch u (Seq r1 r2) k cur m = rmatch u r1 (rmatch u r2 k) cur m.
Proof. reflexivity. Qed.

Lemma rmatch_opt {R} r (k : cursor -> marks -> option R) cur m :
  rmatch u (Opt r) k cur m
    = match rmatch u r k cur m with
      | Some x => Some x
      | None => k cur m
      end.
Proof. reflexivity. Qed.

Lemma rmatch_star {R} p (k : cursor -> marks -> option R) cur m :
  rmatch u (Star p) k cur m
    = star p (fun c => k c m) (idx cur) (prev cur) (rest cur).
Proof. reflexivity. Qed.

Lemma rmatch_bol {R} (k : cursor -> marks -> option R) cur m :
  rmatch u Bol k cur m = if at_bol cur then k cur m else None.
Proof. reflexivity. Qed.

Lemma eat_head c w cur cur' :
  eat (c :: w) cur = Some cur' -> exists s', rest cur = c :: s'.
Proof.
  simpl. destruct (rest cur) as [|x s']; [done|].
  destruct (N.eqb_spec x c) as [->|]; [eauto|done].
Qed.

Lemma eat_head_neq c w i pv x s :
  (x =? c)%N = false -> eat (c :: w) (Cursor i pv (x :: s)) = None.
Proof. intros Hx. simpl. by rewrite Hx. Qed.

Lemma label_head : exists w, lit "Rate feasibility" = 82%N :: w.
Proof. eexists. vm_compute. reflexivity. Qed.

Lemma rmatch_label_then_rating {R} (k : cursor -> marks -> option R) cur m :
  rmatch u label_then_rating k cur m
    = rmatch u (Group rating) k (skip_label cur) m.
Proof.
  unfold label_then_rating.
  rewrite rmatch_seq, rmatch_opt, rmatch_seq, rmatch_chars.
  unfold skip_label.
  destruct (eat (lit "Rate feasibility") cur) as [c|] eqn:Heat; [|done].
  rewrite rmatch_star, star_skip.
  - fold (skip label_sep c).
    destruct (rmatch u (Group rating) k (skip label_sep c) m); [done|].
    apply group_rating_needs_digit. intros x s' Hrest.
    destruct label_head as [w Hw]. rewrite Hw in Heat.
    apply eat_head in Heat as [s'' Hs'']. rewrite Hrest in Hs''.
    by injection Hs'' as -> _.
  - intros i pv x s Hx. apply group_rating_needs_digit.
    intros x' s' [= <- <-]. by apply sep_not_digit.
Qed.

Lemma marker_pattern_unfold :
  marker_pattern
    = Seq Bol (Seq (Star isspace)
        (Seq (Chr 49) (Seq (Chr 41) (Seq (Star isspace) label_then_rating)))).
Proof. reflexivity. Qed.

Lemma rmatch_marker {R} (k : cursor -> marks -> option R) cur m :
  rmatch u marker_pattern k cur m
    = match after_marker cur with
      | Some c =>
          match standalone_at u c with
          | Some (_, c') => k c' (Some (covered c c'))
          | None => None
          end
      | None => None
      end.
Proof.
  rewrite marker_pattern_unfold. unfold after_marker.
  rewrite rmatch_seq, rmatch_bol.
  destruct (at_bol cur); [|done].
  rewrite rmatch_seq, rmatch_star, star_skip.
  2:{ intros i pv c s Hc. cbn. by rewrite (space_not_char c 49 Hc). }
  fold (skip isspace cur).
  set (tail := Seq (Star isspace) label_then_rating).
  transitivity (rmatch u (chars [49%N; 41%N]) (rmatch u tail k)
                  (skip isspace cur) m); [reflexivity|].
  rewrite rmatch_chars.
  destruct (eat [49%N; 41%N] (skip isspace cur)) as [c|]; [|done].
  unfold tail. rewrite rmatch_seq, rmatch_star, star_skip.
  - fold (skip isspace c).
    rewrite rmatch_label_then_rating. apply rmatch_group_rating.
  - intros i pv x s Hx. rewrite rmatch_label_then_rating.
    apply group_rating_needs_digit.
    unfold skip_label. destruct label_head as [w ->].
    rewrite eat_head_neq by by apply space_not_char.
    intros x' s' [= <- <-]. by apply space_not_digit.
Qed.

(** *** Searching *)

Lemma search_from_first r s : forall i pv,
  search_from u r i pv s = first_from (match_at u r) i pv s.
Proof.
  induction s as [|c s IH]; intros i pv; simpl; [done|].
  by rewrite IH.
Qed.

Lemma first_from_agree {X Y} (Rel : X -> Y -> Prop)
    (g : cursor -> option X) (h : cursor -> option Y) :
  (forall cur, agree Rel (g cur) (h cur)) ->
  forall s i pv, agree Rel (first_from g i pv s) (first_from h i pv s).
Proof.
  intros Hgh. induction s as [|c s IH]; intros i pv; simpl.
  - specialize (Hgh (Cursor i pv [])).
    destruct (g _), (h _); done.
  - specialize (Hgh (Cursor i pv (c :: s))).
    destruct (g _), (h _); first [done|apply IH].
Qed.

Lemma match_at_fallback cur :
  agree reads (match_at u fallback_pattern cur) (fst <$> standalone_at u cur).
Proof.
  unfold match_at. rewrite rmatch_fallback.
  destruct (standalone_at u cur) as [[v c']|] eqn:Hst; simpl; [|done].
  by apply standalone_at_int.
Qed.

Lemma match_at_marker cur :
  agree reads (match_at u marker_pattern cur) (marker_at u cur).
Proof.
  unfold match_at, marker_at. rewrite rmatch_marker.
  destruct (after_marker cur) as [c|]; [|done].
  destruct (standalone_at u c) as [[v c']|] eqn:Hst; simpl; [|done].
  by apply standalone_at_int.
Qed.

Lemma search_fallback text :
  agree reads (search u fallback_pattern text) (first_standalone u text).
Proof.
  unfold search, first_standalone. rewrite search_from_first.
  apply first_from_agree, match_at_fallback.
Qed.

Lemma search_marker text :
  agree reads (search u marker_pattern text) (first_marker u text).
Proof.
  unfold search, first_marker. rewrite search_from_first.
  apply first_from_agree, match_at_marker.
Qed.

(** *** Positions of a text *)

Lemma position_start text : position_of text (Cursor 0 None text).
Proof. by exists []. Qed.

Lemma position_step text i pv c s :
  position_of text (Cursor i pv (c :: s)) ->
  position_of text (Cursor (S i) (Some c) s).
Proof.
  intros (pre & Htext & _). exists (pre ++ [c]). simpl in *. split.
  - by rewrite <- app_assoc.
  - by rewrite last_snoc.
Qed.

Lemma position_skip_run text p s : forall i pv,
  position_of text (Cursor i pv s) -> position_of text (skip_run p i pv s).
Proof.
  induction s as [|c s IH]; intros i pv Hpos; simpl; [done|].
  destruct (p c); [|done]. by apply IH, position_step with pv.
Qed.

Lemma position_skip text p cur :
  position_of text cur -> position_of text (skip p cur).
Proof. destruct cur. apply position_skip_run. Qed.

Lemma position_eat text w : forall cur cur',
  position_of text cur -> eat w cur = Some cur' -> position_of text cur'.
Proof.
  induction w as [|c w IH]; intros cur cur' Hpos; simpl.
  - by intros [= <-].
  - destruct cur as [i pv s]. simpl. destruct s as [|x s]; [done|].
    destruct (x =? c)%N; [|done]. apply IH. by apply position_step with pv.
Qed.

Lemma position_after_marker text cur c :
  position_of text cur -> after_marker cur = Some c -> position_of text c.
Proof.
  unfold after_marker. intros Hpos. destruct (at_bol cur); [|done].
  destruct (eat _ _) as [c1|] eqn:Heat; [|done]. intros [= <-].
  apply position_eat with (text := text) in Heat; [|by apply position_skip].
  unfold skip_label.
  destruct (eat _ (skip isspace c1)) as [c2|] eqn:Heat2.
  - apply position_skip. eapply position_eat; [|exact Heat2].
    by apply position_skip.
  - by apply position_skip.
Qed.

Lemma first_from_found {X} text (g : cursor -> option X) s : forall i pv x,
  position_of text (Cursor i pv s) ->
  first_from g i pv s = Some x ->
  exists cur, position_of text cur /\ g cur = Some x.
Proof.
  induction s as [|c s IH]; intros i pv x Hpos; simpl.
  - destruct (g _) eqn:Hg; [|done]. intros [= <-]. eauto.
  - destruct (g _) eqn:Hg.
    + intros [= <-]. eauto.
    + apply IH. by apply position_step with pv.
Qed.


(** *** Standalone integers *)

Lemma standalone_at_occurrence text cur v c' :
  position_of text cur ->
  standalone_at u cur = Some (v, c') ->
  has_standalone u text v.
Proof.
  intros (pre & Htext & Hprev). unfold standalone_at. rewrite Hprev.
  destruct (isword_opt u (last pre)) eqn:Hpre; [done|].
  destruct (rest cur) as [|x s'] eqn:Hrest; [done|].
  destruct (d19 x && negb (isword_opt u (head s'))) eqn:Hone.
  - intros [= <- <-]. apply andb_true_iff in Hone as [Hx Hpost].
    apply negb_true_iff in Hpost. pose proof (d19_value x Hx) as Hv.
    exists pre, s'. repeat split; try done; try lia.
    unfold numeral. replace (Z.of_N x - 48 =? 10) with false
      by (symmetry; apply Z.eqb_neq; lia).
    rewrite Htext. simpl. do 2 f_equal. lia.
  - destruct s' as [|y s'']; [done|].
    destruct ((x =? 49)%N && (y =? 48)%N && negb (isword_opt u (head s'')))
      eqn:Hten; [|done].
    intros [= <- <-].
    apply andb_true_iff in Hten as [Hxy Hpost].
    apply andb_true_iff in Hxy as [Hx Hy].
    apply N.eqb_eq in Hx, Hy. subst x y. apply negb_true_iff in Hpost.
    exists pre, s''. repeat split; first [done|by rewrite Htext].
Qed.



Lemma first_standalone_some text v :
  first_standalone u text = Some v -> has_standalone u text v.
Proof.
  unfold first_standalone. intros Hfirst.
  apply (first_from_found text) in Hfirst as (cur & Hpos & Hcur);
    [|apply position_start].
  destruct (standalone_at u cur) as [[v' c']|] eqn:Hst; [|done].
  simpl in Hcur. injection Hcur as ->.
  by apply (standalone_at_occurrence text cur v c').
Qed.

(** The rating after an answer marker is itself a standalone integer of
    the text. *)
Lemma first_marker_some text v :
  first_marker u text = Some v -> has_standalone u text v.
Proof.
  unfold first_marker, marker_at. intros Hfirst.
  apply (first_from_found text) in Hfirst as (cur & Hpos & Hcur);
    [|apply position_start].
  destruct (after_marker cur) as [c|] eqn:Hc; [|done].
  destruct (standalone_at u c) as [[v' c']|] eqn:Hst; [|done].
  simpl in Hcur. injection Hcur as ->.
  apply (standalone_at_occurrence text c v c'); [|done].
  by apply (position_after_marker text cur c).
Qed.

End PatternFacts.


(** ** Properties of double-precision rounding *)

Section F64Facts.
Import F64.
Local Open Scope Q_scope.

Lemma two_pow_pos k : 0 < two_pow k.
Proof. apply Qpower_0_lt. reflexivity. Qed.

Lemma two_pow_add a b : two_pow (a + b) == two_pow a * two_pow b.
Proof. apply Qpower_plus. discriminate. Qed.

Lemma two_pow_le a b : (a <= b)%Z -> two_pow a <= two_pow b.
Proof. intros H. apply Qpower_le_compat_l; [exact H|discriminate]. Qed.

Lemma two_pow_lt_inv a b : two_pow a < two_pow b -> (a < b)%Z.
Proof. intros H. apply (Qpower_lt_compat_l_inv 2); [exact H|reflexivity]. Qed.

Lemma two_pow_Z k : (0 <= k)%Z -> two_pow k == inject_Z (2 ^ k).
Proof.
  intros Hk. unfold two_pow. rewrite Zpower_Qpower by exact Hk. reflexivity.
Qed.

Lemma two_pow_opp k : two_pow (- k) == / two_pow k.
Proof. unfold two_pow. apply Qpower_opp. Qed.

Lemma two_pow_cancel k : two_pow k * two_pow (- k) == 1.
Proof. rewrite <- two_pow_add, Z.add_opp_diag_r. reflexivity. Qed.

Lemma Qabs_div_den (q : Q) :
  Qabs q == inject_Z (Z.abs (Qnum q)) / inject_Z (Z.pos (Qden q)).
Proof.
  destruct q as [n d]. unfold Qabs, Qeq, Qdiv, Qmult, Qinv, inject_Z. simpl.
  lia.
Qed.


Lemma Zfrac_le (a b c d : Z) :
  (0 < b)%Z -> (0 < d)%Z -> (a * d <= c * b)%Z ->
  inject_Z a / inject_Z b <= inject_Z c / inject_Z d.
Proof.
  intros Hb Hd H. destruct b as [|b|b]; try lia. destruct d as [|d|d]; try lia.
  unfold Qle, Qdiv, Qmult, Qinv, inject_Z. simpl. lia.
Qed.

Lemma Zfrac_lt (a b c d : Z) :
  (0 < b)%Z -> (0 < d)%Z -> (a * d < c * b)%Z ->
  inject_Z a / inject_Z b < inject_Z c / inject_Z d.
Proof.
  intros Hb Hd H. destruct b as [|b|b]; try lia. destruct d as [|d|d]; try lia.
  unfold Qlt, Qdiv, Qmult, Qinv, inject_Z. simpl. lia.
Qed.

Lemma two_pow_sub a b :
  (0 <= a)%Z -> (0 <= b)%Z ->
  two_pow (a - b) == inject_Z (2 ^ a) / inject_Z (2 ^ b).
Proof.
  intros Ha Hb. unfold Z.sub. rewrite two_pow_add, two_pow_opp.
  rewrite !two_pow_Z by assumption. reflexivity.
Qed.

Lemma ilog2_spec (q : Q) :
  ~ q == 0 ->
  two_pow (ilog2 q) <= Qabs q /\ Qabs q < two_pow (ilog2 q + 1).
Proof.
  intros Hq. unfold ilog2.
  set (a := Z.abs (Qnum q)). set (d := Z.pos (Qden q)).
  set (K := (Z.log2 d + 1)%Z). set (y := (a * 2 ^ K / d)%Z).
  assert (Ha : (0 < a)%Z).
  { unfold a. destruct q as [n dd]. unfold Qeq in Hq. simpl in *. lia. }
  assert (Hd : (0 < d)%Z) by (unfold d; lia).
  assert (HK : (0 <= K)%Z) by (unfold K; pose proof (Z.log2_nonneg d); lia).
  assert (HdK : (d < 2 ^ K)%Z).
  { unfold K. pose proof (Z.log2_spec d Hd) as [_ H].
    try unfold Z.succ in H. exact H. }
  assert (Hy1 : (y * d <= a * 2 ^ K)%Z).
  { unfold y. rewrite Z.mul_comm. apply Z.mul_div_le. exact Hd. }
  assert (Hy2 : (a * 2 ^ K < (y + 1) * d)%Z).
  { unfold y.
    pose proof (Z.mod_pos_bound (a * 2 ^ K) d Hd).
    pose proof (Z.div_mod (a * 2 ^ K) d). lia. }
  assert (Hy : (1 <= y)%Z).
  { assert (d * 1 <= a * 2 ^ K)%Z by nia.
    unfold y. apply Z.div_le_lower_bound; lia. }
  pose proof (Z.log2_spec y ltac:(lia)) as [HL1 HL2].
  pose proof (Z.log2_nonneg y) as HL0.
  set (L := Z.log2 y) in *.
  rewrite Qabs_div_den. fold a d. split.
  - rewrite two_pow_sub by lia. apply Zfrac_le; [lia|lia|]. nia.
  - replace (L - K + 1)%Z with (L + 1 - K)%Z by lia.
    rewrite two_pow_sub by lia. apply Zfrac_lt; [lia|lia|].
    try unfold Z.succ in HL2. nia.
Qed.


Lemma rne_cases (x : Q) :
  (rne x = Qfloor x /\ x - inject_Z (Qfloor x) <= 1 # 2)
  \/ (rne x = (Qfloor x + 1)%Z /\ 1 # 2 <= x - inject_Z (Qfloor x)).
Proof.
  unfold rne. destruct (Qcompare_spec (x - inject_Z (Qfloor x)) (1 # 2))
    as [He|Hl|Hg].
  - destruct (Z.even (Qfloor x)); [left|right]; split; try reflexivity;
      rewrite He; apply Qle_refl.
  - left. split; [reflexivity|]. apply Qlt_le_weak. exact Hl.
  - right. split; [reflexivity|]. apply Qlt_le_weak. exact Hg.
Qed.

Lemma rne_error (x : Q) : Qabs (inject_Z (rne x) - x) <= 1 # 2.
Proof.
  pose proof (Qfloor_le x) as Hlo. pose proof (Qlt_floor x) as Hhi.
  rewrite inject_Z_plus in Hhi. change (inject_Z 1) with 1 in Hhi.
  apply Qabs_Qle_condition.
  destruct (rne_cases x) as [[-> H]|[-> H]].
  - split; lra.
  - rewrite inject_Z_plus. change (inject_Z 1) with 1. split; lra.
Qed.

Lemma rne_ge (x : Q) (A : Z) : inject_Z A <= x -> (A <= rne x)%Z.
Proof.
  intros H. apply Qfloor_resp_le in H. rewrite Qfloor_Z in H.
  destruct (rne_cases x) as [[-> _]|[-> _]]; lia.
Qed.

Lemma rne_le (x : Q) (B : Z) : x <= inject_Z B -> (rne x <= B)%Z.
Proof.
  intros H. pose proof H as H'.
  apply Qfloor_resp_le in H'. rewrite Qfloor_Z in H'.
  destruct (rne_cases x) as [[-> _]|[-> Hh]]; [lia|].
  assert (inject_Z (Qfloor x) < inject_Z B) by lra.
  rewrite <- Zlt_Qlt in H0. lia.
Qed.


Lemma Q2Qc_this (q : Q) : this (Q2Qc q) == q.
Proof. apply Qred_correct. Qed.

Lemma two_pow_neq k : ~ two_pow k == 0.
Proof. pose proof (two_pow_pos k). lra. Qed.

Lemma round_unfold (q : Q) :
  round q
  = if Qeq_bool q 0 then Finite (Q2Qc 0)
    else if Qle_bool (two_pow 1024) (Qabs (rounded q))
         then Inf (negb (Qle_bool 0 q))
         else Finite (Q2Qc (rounded q)).
Proof. reflexivity. Qed.

Lemma round_zero (q : Q) : q == 0 -> round q = Finite (Q2Qc 0).
Proof.
  intros H. rewrite round_unfold.
  by rewrite (proj2 (Qeq_bool_iff q 0) H).
Qed.

Lemma round_finite (q : Q) :
  ~ q == 0 -> Qabs (rounded q) < two_pow 1024 ->
  round q = Finite (Q2Qc (rounded q)).
Proof.
  intros Hq Hr. rewrite round_unfold.
  destruct (Qeq_bool q 0) eqn:E; [by apply Qeq_bool_iff in E|].
  destruct (Qle_bool (two_pow 1024) (Qabs (rounded q))) eqn:E2; [|done].
  apply Qle_bool_iff in E2. lra.
Qed.

Lemma rounded_error (q : Q) :
  Qabs (rounded q - q) <= two_pow (ulp_exp q) * (1 # 2).
Proof.
  unfold rounded. set (e := ulp_exp q). set (x := q / two_pow e).
  pose proof (two_pow_pos e) as He.
  assert (Hx : inject_Z (rne x) * two_pow e - q
               == (inject_Z (rne x) - x) * two_pow e).
  { unfold x. field. apply two_pow_neq. }
  rewrite Hx, Qabs_Qmult, (Qabs_pos (two_pow e)) by lra.
  rewrite (Qmult_comm (two_pow e)).
  apply Qmult_le_compat_r; [apply rne_error|lra].
Qed.

Lemma ulp_exp_normal (q : Q) :
  two_pow (-1022) <= Qabs q -> ulp_exp q = (ilog2 q - 52)%Z.
Proof.
  intros H.
  assert (Hq : ~ q == 0).
  { intros E. rewrite E in H. pose proof (two_pow_pos (-1022)).
    change (Qabs 0) with 0 in H. lra. }
  destruct (ilog2_spec q Hq) as [_ Hhi].
  assert (two_pow (-1022) < two_pow (ilog2 q + 1)) by lra.
  apply two_pow_lt_inv in H0. unfold ulp_exp. lia.
Qed.

Lemma ulp_exp_subnormal (q : Q) :
  ~ q == 0 -> Qabs q < two_pow (-1022) -> ulp_exp q = (-1074)%Z.
Proof.
  intros Hq H. destruct (ilog2_spec q Hq) as [Hlo _].
  assert (two_pow (ilog2 q) < two_pow (-1022)) by lra.
  apply two_pow_lt_inv in H0. unfold ulp_exp. lia.
Qed.

Lemma two_pow_split a b : two_pow (a - b) * two_pow b == two_pow a.
Proof. rewrite <- two_pow_add. by replace (a - b + b)%Z with a by lia. Qed.

Lemma round_error_normal (q : Q) :
  two_pow (-1022) <= Qabs q -> Qabs q <= two_pow 1023 ->
  exists r : Qc, round q = Finite r
                 /\ Qabs (r - q) <= two_pow (-53) * Qabs q.
Proof.
  intros Hlo Hhi.
  assert (Hq : ~ q == 0).
  { intros E. rewrite E in Hlo. pose proof (two_pow_pos (-1022)).
    change (Qabs 0) with 0 in Hlo. lra. }
  pose proof (rounded_error q) as Herr.
  rewrite (ulp_exp_normal q Hlo) in Herr.
  destruct (ilog2_spec q Hq) as [Hil _].
  assert (Hu : two_pow (ilog2 q - 52) * (1 # 2) <= two_pow (-53) * Qabs q).
  { assert (E : two_pow (ilog2 q - 52) * (1 # 2)
                == two_pow (-53) * two_pow (ilog2 q)).
    { replace (ilog2 q - 52)%Z with (-52 + ilog2 q)%Z by lia.
      rewrite two_pow_add.
      assert (E53 : two_pow (-52) * (1 # 2) == two_pow (-53)) by reflexivity.
      rewrite <- E53. ring. }
    rewrite E. apply Qmult_le_l; [apply two_pow_pos|exact Hil]. }
  assert (Hb : Qabs (rounded q - q) <= two_pow (-53) * Qabs q) by lra.
  assert (H53 : two_pow (-53) <= 1 # 2) by (vm_compute; discriminate).
  assert (H1024 : two_pow 1024 == 2 * two_pow 1023).
  { change 1024%Z with (1 + 1023)%Z. rewrite two_pow_add. reflexivity. }
  pose proof (Qabs_nonneg q) as Hq0.
  assert (Hfin : Qabs (rounded q) < two_pow 1024).
  { assert (Qabs (rounded q) <= Qabs (rounded q - q) + Qabs q).
    { assert (E : rounded q == (rounded q - q) + q) by ring.
      rewrite E at 1. apply Qabs_triangle. }
    assert (two_pow (-53) * Qabs q <= (1 # 2) * Qabs q).
    { apply Qmult_le_compat_r; assumption. }
    pose proof (two_pow_pos 1023). lra. }
  exists (Q2Qc (rounded q)). split; [by apply round_finite|].
  rewrite Q2Qc_this. exact Hb.
Qed.


Lemma round_inv (q : Q) (r : Qc) :
  round q = Finite r -> r == rounded q \/ (q == 0 /\ r == 0).
Proof.
  rewrite round_unfold. destruct (Qeq_bool q 0) eqn:E.
  - intros [= <-]. right. split; [by apply Qeq_bool_iff|apply Q2Qc_this].
  - destruct (Qle_bool _ _); [done|]. intros [= <-]. left. apply Q2Qc_this.
Qed.

Lemma rounded_zero (q : Q) : q == 0 -> rounded q == 0.
Proof.
  intros H. unfold rounded. set (e := ulp_exp q).
  assert (Hx : q / two_pow e == 0).
  { rewrite H. unfold Qdiv. ring. }
  assert (Hr : rne (q / two_pow e) = 0%Z).
  { apply Z.le_antisymm.
    - apply rne_le. rewrite Hx. apply Qle_refl.
    - apply rne_ge. rewrite Hx. apply Qle_refl. }
  rewrite Hr. ring.
Qed.

Lemma round_finite_value (q : Q) (r : Qc) :
  round q = Finite r -> r == rounded q.
Proof.
  intros H. destruct (round_inv q r H) as [E|[Hq Hr]]; [exact E|].
  by rewrite Hr, rounded_zero.
Qed.

(** One rounding: relative error at most [2^-53], up to the spacing
    of the subnormal numbers. *)
Lemma round_finite_error (q : Q) (r : Qc) :
  round q = Finite r ->
  Qabs (r - q) <= two_pow (-53) * Qabs q + two_pow (-1075).
Proof.
  intros H. rewrite (round_finite_value q r H).
  pose proof (rounded_error q) as Herr.
  pose proof (Qabs_nonneg q) as Hq0.
  pose proof (two_pow_pos (-53)) as Hu.
  pose proof (two_pow_pos (-1075)) as Heta.
  destruct (Qlt_le_dec (Qabs q) (two_pow (-1022))) as [Hsub|Hnorm].
  - assert (Hq : q == 0 \/ ~ q == 0).
    { destruct (Qeq_dec q 0); [by left|by right]. }
    destruct Hq as [Hq|Hq].
    + rewrite (rounded_zero q Hq), Hq. change (Qabs (0 - 0)) with 0.
      change (Qabs 0) with 0. lra.
    + rewrite (ulp_exp_subnormal q Hq Hsub) in Herr.
      assert (E : two_pow (-1074) * (1 # 2) == two_pow (-1075)) by reflexivity.
      assert (0 <= two_pow (-53) * Qabs q) by (apply Qmult_le_0_compat; lra).
      lra.
  - rewrite (ulp_exp_normal q Hnorm) in Herr.
    assert (Hq : ~ q == 0).
    { intros E. rewrite E in Hnorm. pose proof (two_pow_pos (-1022)).
      change (Qabs 0) with 0 in Hnorm. lra. }
    destruct (ilog2_spec q Hq) as [Hil _].
    assert (E : two_pow (ilog2 q - 52) * (1 # 2)
                == two_pow (-53) * two_pow (ilog2 q)).
    { replace (ilog2 q - 52)%Z with (-52 + ilog2 q)%Z by lia.
      rewrite two_pow_add.
      assert (E53 : two_pow (-52) * (1 # 2) == two_pow (-53)) by reflexivity.
      rewrite <- E53. ring. }
    assert (two_pow (-53) * two_pow (ilog2 q) <= two_pow (-53) * Qabs q).
    { apply Qmult_le_l; [apply two_pow_pos|exact Hil]. }
    lra.
Qed.

Lemma round_finite_error_normal (q : Q) (r : Qc) :
  round q = Finite r -> two_pow (-1022) <= Qabs q ->
  Qabs (r - q) <= two_pow (-53) * Qabs q.
Proof.
  intros H Hnorm. rewrite (round_finite_value q r H).
  pose proof (rounded_error q) as Herr.
  rewrite (ulp_exp_normal q Hnorm) in Herr.
  assert (Hq : ~ q == 0).
  { intros E. rewrite E in Hnorm. pose proof (two_pow_pos (-1022)).
    change (Qabs 0) with 0 in Hnorm. lra. }
  destruct (ilog2_spec q Hq) as [Hil _].
  assert (E : two_pow (ilog2 q - 52) * (1 # 2)
              == two_pow (-53) * two_pow (ilog2 q)).
  { replace (ilog2 q - 52)%Z with (-52 + ilog2 q)%Z by lia.
    rewrite two_pow_add.
    assert (E53 : two_pow (-52) * (1 # 2) == two_pow (-53)) by reflexivity.
    rewrite <- E53. ring. }
  assert (two_pow (-53) * two_pow (ilog2 q) <= two_pow (-53) * Qabs q).
  { apply Qmult_le_l; [apply two_pow_pos|exact Hil]. }
  lra.
Qed.

(** Rounding keeps a number between the integers it lies between, as
    long as the integers of its size are representable. *)
Lemma rounded_between (q : Q) (A B : Z) :
  Qabs q < two_pow 53 -> inject_Z A <= q -> q <= inject_Z B ->
  inject_Z A <= rounded q /\ rounded q <= inject_Z B.
Proof.
  intros Hsize HA HB.
  destruct (Qeq_dec q 0) as [Hq|Hq].
  { rewrite (rounded_zero q Hq). rewrite Hq in HA, HB. by split. }
  destruct (ilog2_spec q Hq) as [Hil _].
  assert (two_pow (ilog2 q) < two_pow 53) by lra.
  apply two_pow_lt_inv in H.
  assert (He : (ulp_exp q <= 0)%Z) by (unfold ulp_exp; lia).
  unfold rounded. set (e := ulp_exp q) in *.
  pose proof (two_pow_pos e) as Hpe.
  assert (Hs : two_pow (- e) == inject_Z (2 ^ (- e))) by (apply two_pow_Z; lia).
  assert (Hinv : two_pow e * two_pow (- e) == 1) by apply two_pow_cancel.
  assert (Hdiv : q / two_pow e == q * two_pow (- e)).
  { rewrite two_pow_opp. reflexivity. }
  pose proof (two_pow_pos (- e)) as Hpne.
  split.
  - assert (HA' : inject_Z (A * 2 ^ (- e)) <= q / two_pow e).
    { rewrite Hdiv, inject_Z_mult, <- Hs.
      apply Qmult_le_compat_r; [exact HA|lra]. }
    apply rne_ge in HA'. rewrite Zle_Qle in HA'.
    rewrite inject_Z_mult, <- Hs in HA'.
    assert (inject_Z A * two_pow (- e) * two_pow e
            <= inject_Z (rne (q / two_pow e)) * two_pow e).
    { apply Qmult_le_compat_r; [exact HA'|lra]. }
    assert (E : inject_Z A * two_pow (- e) * two_pow e == inject_Z A).
    { rewrite <- Qmult_assoc, (Qmult_comm (two_pow (- e))), Hinv. ring. }
    lra.
  - assert (HB' : q / two_pow e <= inject_Z (B * 2 ^ (- e))).
    { rewrite Hdiv, inject_Z_mult, <- Hs.
      apply Qmult_le_compat_r; [exact HB|lra]. }
    apply rne_le in HB'. rewrite Zle_Qle in HB'.
    rewrite inject_Z_mult, <- Hs in HB'.
    assert (inject_Z (rne (q / two_pow e)) * two_pow e
            <= inject_Z B * two_pow (- e) * two_pow e).
    { apply Qmult_le_compat_r; [exact HB'|lra]. }
    assert (E : inject_Z B * two_pow (- e) * two_pow e == inject_Z B).
    { rewrite <- Qmult_assoc, (Qmult_comm (two_pow (- e))), Hinv. ring. }
    lra.
Qed.

Lemma round_between (q : Q) (A B : Z) :
  Qabs q < two_pow 53 -> inject_Z A <= q -> q <= inject_Z B ->
  exists r : Qc, round q = Finite r /\ inject_Z A <= r /\ r <= inject_Z B.
Proof.
  intros Hsize HA HB.
  destruct (Qeq_dec q 0) as [Hq|Hq].
  { exists (Q2Qc 0). split; [by apply round_zero|].
    rewrite Q2Qc_this. rewrite Hq in HA, HB. by split. }
  destruct (rounded_between q A B Hsize HA HB) as [H1 H2].
  assert (Hpow : two_pow 53 == inject_Z (2 ^ 53)) by (by apply two_pow_Z).
  assert (Habs : - two_pow 53 <= q /\ q <= two_pow 53).
  { apply Qabs_Qle_condition. by apply Qlt_le_weak. }
  assert (Hlo : inject_Z (- 2 ^ 53) <= q).
  { rewrite inject_Z_opp, <- Hpow. tauto. }
  assert (Hhi : q <= inject_Z (2 ^ 53)).
  { rewrite <- Hpow. tauto. }
  destruct (rounded_between q _ _ Hsize Hlo Hhi) as [H3 H4].
  rewrite inject_Z_opp, <- Hpow in H3. rewrite <- Hpow in H4.
  assert (Hfin : Qabs (rounded q) < two_pow 1024).
  { apply Qle_lt_trans with (two_pow 53).
    - apply Qabs_Qle_condition. by split.
    - apply Qpower_lt_compat_l; [lia|reflexivity]. }
  exists (Q2Qc (rounded q)). split; [by apply round_finite|].
  rewrite Q2Qc_this. by split.
Qed.

End F64Facts.

(** ** Properties of the integer square root and of the conversions *)

Section StatFacts.
Import F64.
Local Open Scope Q_scope.

Lemma this_plus (a b : Qc) : this (a + b)%Qc == a + b.
Proof. apply Q2Qc_this. Qed.
Lemma this_mult (a b : Qc) : this (a * b)%Qc == a * b.
Proof. apply Q2Qc_this. Qed.
Lemma this_opp (a : Qc) : this (- a)%Qc == - a.
Proof. apply Q2Qc_this. Qed.
Lemma this_minus (a b : Qc) : this (a - b)%Qc == a - b.
Proof. unfold Qcminus. rewrite this_plus, this_opp. reflexivity. Qed.
Lemma this_inv (a : Qc) : this (/ a)%Qc == / a.
Proof. apply Q2Qc_this. Qed.
Lemma this_div (a b : Qc) : this (a / b)%Qc == a / b.
Proof. unfold Qcdiv. rewrite this_mult, this_inv. reflexivity. Qed.
Lemma this_of_Z (z : Z) : this (Qc_of_Z z) == inject_Z z.
Proof. reflexivity. Qed.

Lemma Qc_eq_this (a b : Qc) : this a == this b -> a = b.
Proof. apply Qc_is_canon. Qed.

Lemma Z_lor_1 (a : Z) : (0 <= a)%Z -> (a <= Z.lor a 1 <= a + 1)%Z.
Proof.
  intros Ha. destruct a as [|p|p]; [|destruct p as [p|p|]|lia].
  - change (Z.lor 0 1) with 1%Z. lia.
  - change (Z.lor (Z.pos p~1) 1) with (Z.pos p~1). lia.
  - change (Z.lor (Z.pos p~0) 1) with (Z.pos p~1). lia.
  - change (Z.lor 1 1) with 1%Z. lia.
Qed.

Lemma bit_length_spec (n : Z) :
  (0 < n)%Z -> (2 ^ (bit_length n - 1) <= n < 2 ^ bit_length n)%Z.
Proof.
  intros Hn. unfold bit_length. destruct (Z.eqb_spec n 0) as [|_]; [lia|].
  rewrite Z.abs_eq by lia. pose proof (Z.log2_spec n Hn) as H.
  try unfold Z.succ in H. replace (Z.log2 n + 1 - 1)%Z with (Z.log2 n) by lia.
  exact H.
Qed.

Lemma bit_length_pos (n : Z) : (0 < n)%Z -> (1 <= bit_length n)%Z.
Proof.
  intros Hn. unfold bit_length. destruct (Z.eqb_spec n 0); [lia|].
  pose proof (Z.log2_nonneg (Z.abs n)). lia.
Qed.


Lemma rto_spec (N m : Z) :
  (0 <= N)%Z -> (0 < m)%Z ->
  let x := _integer_sqrt_of_frac_rto N m in
  let a := Z.sqrt (N / m) in
  (a * a * m <= N < (a + 1) * (a + 1) * m)%Z
  /\ (a <= x <= a + 1)%Z
  /\ ((a * a * m)%Z = N -> x = a)
  /\ ((1 <= a)%Z -> (x - 1) * (x - 1) * m <= N <= (x + 1) * (x + 1) * m)%Z.
Proof.
  intros HN Hm x a.
  assert (Hfl : (0 <= N / m)%Z) by (apply Z.div_pos; lia).
  pose proof (Z.sqrt_spec (N / m) Hfl) as Hs. fold a in Hs.
  try unfold Z.succ in Hs.
  pose proof (Z.sqrt_nonneg (N / m)) as Ha. fold a in Ha.
  pose proof (Z.mod_pos_bound N m Hm) as Hmod.
  pose proof (Z.div_mod N m ltac:(lia)) as Hdm.
  assert (Hlo : (a * a * m <= N)%Z) by nia.
  assert (Hhi : (N < (a + 1) * (a + 1) * m)%Z) by nia.
  split; [split; assumption|].
  unfold x, _integer_sqrt_of_frac_rto. fold a.
  destruct (Z.eqb_spec (a * a * m) N) as [He|Hne].
  - rewrite Z.lor_0_r. split; [lia|]. split; [done|]. intros Ha1. nia.
  - pose proof (Z_lor_1 a Ha) as Hx. split; [exact Hx|]. split; [done|].
    intros Ha1. set (y := Z.lor a 1) in *.
    assert (y = a \/ y = (a + 1)%Z) as [->| ->] by lia; nia.
Qed.

Lemma rounded_nonneg (q : Q) : 0 <= q -> 0 <= rounded q.
Proof.
  intros Hq. unfold rounded. set (e := ulp_exp q).
  pose proof (two_pow_pos e) as He.
  assert (H0 : inject_Z 0 <= q / two_pow e).
  { change (inject_Z 0) with 0. unfold Qdiv. apply Qmult_le_0_compat; [done|].
    apply Qinv_le_0_compat. lra. }
  apply rne_ge in H0. rewrite Zle_Qle in H0. change (inject_Z 0) with 0 in H0.
  apply Qmult_le_0_compat; [exact H0|lra].
Qed.

Lemma round_finite_of_bound (q : Q) :
  Qabs q <= two_pow 1023 -> exists r : Qc, round q = Finite r.
Proof.
  intros Hb.
  destruct (Qeq_dec q 0) as [Hq|Hq].
  { exists (Q2Qc 0). by apply round_zero. }
  exists (Q2Qc (rounded q)). apply round_finite; [exact Hq|].
  pose proof (rounded_error q) as Herr.
  pose proof (Qabs_nonneg q) as Hq0.
  assert (Htri : Qabs (rounded q) <= Qabs (rounded q - q) + Qabs q).
  { assert (E : rounded q == (rounded q - q) + q) by ring.
    rewrite E at 1. apply Qabs_triangle. }
  assert (H1024 : two_pow 1024 == 2 * two_pow 1023).
  { change 1024%Z with (1 + 1023)%Z. rewrite two_pow_add. reflexivity. }
  pose proof (two_pow_pos 1023) as Hp.
  destruct (Qlt_le_dec (Qabs q) (two_pow (-1022))) as [Hsub|Hnorm].
  - rewrite (ulp_exp_subnormal q Hq Hsub) in Herr.
    assert (two_pow (-1074) * (1 # 2) <= 1) by (vm_compute; discriminate).
    assert (two_pow (-1022) <= 1) by (vm_compute; discriminate).
    assert (2 <= two_pow 1023).
    { change 2 with (two_pow 1). apply two_pow_le. lia. }
    lra.
  - rewrite (ulp_exp_normal q Hnorm) in Herr.
    destruct (ilog2_spec q Hq) as [Hil _].
    assert (E : two_pow (ilog2 q - 52) * (1 # 2)
                == two_pow (-53) * two_pow (ilog2 q)).
    { replace (ilog2 q - 52)%Z with (-52 + ilog2 q)%Z by lia.
      rewrite two_pow_add.
      assert (E53 : two_pow (-52) * (1 # 2) == two_pow (-53)) by reflexivity.
      rewrite <- E53. ring. }
    assert (H53 : two_pow (-53) <= 1 # 2) by (vm_compute; discriminate).
    assert (two_pow (-53) * two_pow (ilog2 q) <= (1 # 2) * Qabs q).
    { apply Qle_trans with (two_pow (-53) * Qabs q).
      - apply Qmult_le_l; [apply two_pow_pos|exact Hil].
      - apply Qmult_le_compat_r; assumption. }
    lra.
Qed.


Lemma Qsquare_le (a b : Q) : 0 <= a -> a <= b -> a * a <= b * b.
Proof. intros H0 H1. nra. Qed.

Lemma int_true_divide_ok (a b : Z) :
  (0 < b)%Z -> Qabs (inject_Z a / inject_Z b) <= two_pow 1023 ->
  exists r : Qc,
    int_true_divide a b = Ok (Finite r)
    /\ round (inject_Z a / inject_Z b) = Finite r.
Proof.
  intros Hb Hbound. unfold int_true_divide.
  destruct (Z.eqb_spec b 0); [lia|].
  destruct (round_finite_of_bound _ Hbound) as [r Hr].
  exists r. by rewrite Hr.
Qed.

Lemma float_sqrt_of_frac_zero (m : Z) :
  (0 < m)%Z -> _float_sqrt_of_frac 0 m = Ok (Finite (Q2Qc 0)).
Proof.
  intros Hm. unfold _float_sqrt_of_frac, _sqrt_bit_width.
  change (bit_length 0) with 0%Z.
  pose proof (bit_length_pos m Hm) as Hbl.
  set (q := ((0 - bit_length m - (2 * 53 + 3)) / 2)%Z).
  assert (Hq : (q < 0)%Z).
  { unfold q. apply Z.div_lt_upper_bound; lia. }
  destruct (Z.leb_spec 0 q); [lia|].
  rewrite Z.shiftl_0_l.
  assert (Hr : _integer_sqrt_of_frac_rto 0 m = 0%Z).
  { unfold _integer_sqrt_of_frac_rto. rewrite Z.div_0_l by lia.
    reflexivity. }
  rewrite Hr. rewrite Z.shiftl_mul_pow2 by lia.
  assert (0 < 2 ^ (- q))%Z by (apply Z.pow_pos_nonneg; lia).
  unfold int_true_divide. destruct (Z.eqb_spec (1 * 2 ^ (- q)) 0); [lia|].
  rewrite round_zero; [done|]. unfold Qdiv. ring.
Qed.

Lemma float_sqrt_of_frac_spec (n m : Z) :
  (0 < n)%Z -> (0 < m)%Z -> (n < m * 2 ^ 107)%Z ->
  exists r : Qc,
    _float_sqrt_of_frac n m = Ok (Finite r)
    /\ 0 <= r
    /\ ((m <= n * 2 ^ 2040)%Z ->
        (r * (1 - two_pow (-52))) * (r * (1 - two_pow (-52))) * inject_Z m
          <= inject_Z n
        /\ inject_Z n
           <= (r * (1 + two_pow (-52))) * (r * (1 + two_pow (-52)))
              * inject_Z m).
Proof.
  intros Hn Hm Hnm. unfold _float_sqrt_of_frac, _sqrt_bit_width.
  pose proof (bit_length_spec n Hn) as [Hn1 Hn2].
  pose proof (bit_length_spec m Hm) as [Hm1 Hm2].
  pose proof (bit_length_pos n Hn) as Hbn.
  pose proof (bit_length_pos m Hm) as Hbm.
  set (bn := bit_length n) in *. set (bm := bit_length m) in *.
  set (d := (bn - bm - (2 * 53 + 3))%Z).
  set (q := (d / 2)%Z).
  assert (Hd : (2 * q <= d <= 2 * q + 1)%Z).
  { unfold q. pose proof (Z.div_mod d 2 ltac:(lia)).
    pose proof (Z.mod_pos_bound d 2 ltac:(lia)). lia. }
  assert (Hbits : (bn - bm <= 107)%Z).
  { assert (2 ^ (bn - 1) < 2 ^ (bm + 107))%Z.
    { rewrite Z.pow_add_r by lia. nia. }
    apply Z.pow_lt_mono_r_iff in H; lia. }
  assert (Hq : (q <= -1)%Z) by (unfold d in Hd; lia).
  destruct (Z.leb_spec 0 q); [lia|].
  set (s := (- q)%Z). assert (Hs : (1 <= s)%Z) by (unfold s; lia).
  replace (-2 * q)%Z with (2 * s)%Z by (unfold s; lia).
  rewrite !Z.shiftl_mul_pow2 by lia. rewrite Z.mul_1_l.
  set (D := (2 ^ s)%Z). set (N := (n * 2 ^ (2 * s))%Z).
  assert (HD : (1 <= D)%Z) by (unfold D; pose proof (Z.pow_pos_nonneg 2 s); lia).
  assert (HND : N = (n * D * D)%Z).
  { unfold N, D. rewrite <- Z.mul_assoc, <- Z.pow_add_r by lia.
    do 2 f_equal. lia. }
  assert (HN0 : (0 <= N)%Z) by nia.
  destruct (rto_spec N m HN0 Hm) as ([Hlo Hhi] & Hx & _ & Hsq).
  set (x := _integer_sqrt_of_frac_rto N m) in *.
  set (a := Z.sqrt (N / m)) in *.
  (* size of [N / m] *)
  assert (HNlo : (2 ^ 108 * m <= N)%Z).
  { assert (E : (2 ^ (bn - 1) * 2 ^ (2 * s) = 2 ^ 108 * 2 ^ (bn - 1 + 2 * s - 108))%Z).
    { rewrite <- !Z.pow_add_r by (unfold s, d in *; lia). f_equal. lia. }
    assert (2 ^ bm <= 2 ^ (bn - 1 + 2 * s - 108))%Z.
    { apply Z.pow_le_mono_r; unfold s, d in *; lia. }
    unfold N. nia. }
  assert (HNhi : (N < 2 ^ 111 * m)%Z).
  { assert (E : (2 ^ bn * 2 ^ (2 * s) = 2 ^ (bn + 2 * s))%Z).
    { rewrite <- Z.pow_add_r by lia. done. }
    assert (E2 : (2 ^ 111 * 2 ^ (bm - 1) = 2 ^ (110 + bm))%Z).
    { rewrite <- Z.pow_add_r by lia. f_equal. lia. }
    assert (2 ^ (bn + 2 * s) <= 2 ^ (110 + bm))%Z.
    { apply Z.pow_le_mono_r; unfold s, d in *; lia. }
    assert (0 < 2 ^ (2 * s))%Z by (apply Z.pow_pos_nonneg; lia).
    unfold N. nia. }
  assert (Ha0 : (0 <= a)%Z) by apply Z.sqrt_nonneg.
  assert (Halo : (2 ^ 54 <= a)%Z).
  { assert ((2 ^ 54) * (2 ^ 54) < (a + 1) * (a + 1))%Z.
    { change (2 ^ 54 * 2 ^ 54)%Z with (2 ^ 108)%Z. nia. }
    nia. }
  assert (Hahi : (a < 2 ^ 56)%Z).
  { assert (a * a < (2 ^ 56) * (2 ^ 56))%Z.
    { change (2 ^ 56 * 2 ^ 56)%Z with (2 ^ 112)%Z.
      assert (2 ^ 111 < 2 ^ 112)%Z by done. nia. }
    nia. }
  specialize (Hsq ltac:(lia)).
  (* the division *)
  set (X := inject_Z x). set (Dq := inject_Z D).
  assert (HDq : 1 <= Dq).
  { unfold Dq. change 1 with (inject_Z 1). rewrite <- Zle_Qle. exact HD. }
  assert (HXlo : inject_Z (2 ^ 54) <= X).
  { unfold X. rewrite <- Zle_Qle. lia. }
  assert (HXhi : X <= inject_Z (2 ^ 56)).
  { unfold X. rewrite <- Zle_Qle. lia. }
  assert (HX0 : 0 < X).
  { apply Qlt_le_trans with (inject_Z (2 ^ 54)); [reflexivity|exact HXlo]. }
  assert (Hquot : 0 < X / Dq /\ X / Dq <= X).
  { split.
    - apply Qlt_shift_div_l; lra.
    - apply Qle_shift_div_r; [lra|]. nra. }
  assert (Hbound : Qabs (X / Dq) <= two_pow 1023).
  { rewrite Qabs_pos by lra.
    apply Qle_trans with (inject_Z (2 ^ 56)); [lra|].
    rewrite <- (two_pow_Z 56) by lia. apply two_pow_le. lia. }
  destruct (int_true_divide_ok x D ltac:(lia) Hbound) as (r & Hdiv & Hround).
  fold X Dq in Hround.
  exists r. split; [exact Hdiv|]. split.
  { rewrite (round_finite_value _ _ Hround). apply rounded_nonneg. lra. }
  intros Hsmall.
  (* accuracy *)
  assert (Hs2 : (s <= 1075)%Z).
  { assert (2 ^ (bm - 1) < 2 ^ (bn + 2040))%Z.
    { rewrite Z.pow_add_r by lia. nia. }
    apply Z.pow_lt_mono_r_iff in H0; [|lia|lia]. unfold s, d in *. lia. }
  assert (HDhi : Dq <= inject_Z (2 ^ 1075)).
  { unfold Dq, D. rewrite <- Zle_Qle. apply Z.pow_le_mono_r; lia. }
  assert (Hnormal : two_pow (-1022) <= Qabs (X / Dq)).
  { rewrite Qabs_pos by lra.
    apply Qle_shift_div_l; [lra|].
    assert (two_pow (-1022) * Dq <= two_pow (-1022) * inject_Z (2 ^ 1075)).
    { apply Qmult_le_l; [apply two_pow_pos|exact HDhi]. }
    assert (two_pow (-1022) * inject_Z (2 ^ 1075) <= inject_Z (2 ^ 54))
      by (vm_compute; discriminate).
    lra. }
  pose proof (round_finite_error_normal _ _ Hround Hnormal) as Herr.
  rewrite (Qabs_pos (X / Dq)) in Herr by lra.
  set (u := two_pow (-53)) in *.
  assert (Hu : u * inject_Z (2 ^ 53) == 1) by reflexivity.
  assert (Hu0 : 0 < u) by apply two_pow_pos.
  assert (Hu4 : u <= 1 # 4) by (vm_compute; discriminate).
  assert (He : two_pow (-52) == 2 * u) by reflexivity.
  set (R := r * Dq).
  assert (HR : X - X * u <= R /\ R <= X + X * u).
  { apply Qabs_Qle_condition in Herr. destruct Herr as [H1 H2].
    assert (E : X / Dq * Dq == X) by (field; lra).
    assert (H1' : (- (u * (X / Dq))) * Dq <= (r - X / Dq) * Dq).
    { apply Qmult_le_compat_r; lra. }
    assert (H2' : (r - X / Dq) * Dq <= (u * (X / Dq)) * Dq).
    { apply Qmult_le_compat_r; lra. }
    assert (E1 : (r - X / Dq) * Dq == R - X).
    { unfold R. rewrite <- E at 2. ring. }
    assert (E2 : u * (X / Dq) * Dq == X * u).
    { rewrite <- E at 2. ring. }
    assert (E3 : - (u * (X / Dq)) * Dq == - (X * u)).
    { rewrite <- E at 2. ring. }
    split; lra. }
  assert (Ht2 : 2 <= X * u).
  { assert (inject_Z (2 ^ 54) * u <= X * u).
    { apply Qmult_le_compat_r; lra. }
    assert (E : inject_Z (2 ^ 54) * u == 2) by reflexivity. lra. }
  assert (Ht3 : X * u * u <= X * u * (1 # 4)).
  { apply Qmult_le_l; lra. }
  assert (Ht4 : X * u <= X * (1 # 4)).
  { apply Qmult_le_l; lra. }
  assert (Ht30 : 0 <= X * u * u) by (apply Qmult_le_0_compat; lra).
  destruct HR as [HR1 HR2].
  assert (HRu1 : (X - X * u) * u <= R * u) by (apply Qmult_le_compat_r; lra).
  assert (HRu2 : R * u <= (X + X * u) * u) by (apply Qmult_le_compat_r; lra).
  assert (EXu : (X - X * u) * u == X * u - X * u * u) by ring.
  assert (EXu2 : (X + X * u) * u == X * u + X * u * u) by ring.
  assert (HA : 0 <= R * (1 - 2 * u) /\ R * (1 - 2 * u) <= X - 1).
  { assert (E : R * (1 - 2 * u) == R - 2 * (R * u)) by ring.
    rewrite E. split; lra. }
  assert (HB : X + 1 <= R * (1 + 2 * u)).
  { assert (E : R * (1 + 2 * u) == R + 2 * (R * u)) by ring.
    rewrite E. lra. }
  destruct Hsq as [Hsq1 Hsq2].
  rewrite Zle_Qle in Hsq1, Hsq2.
  unfold Z.sub in Hsq1. rewrite !inject_Z_mult, !inject_Z_plus in Hsq1.
  rewrite !inject_Z_mult, !inject_Z_plus in Hsq2.
  change (inject_Z (- (1))) with (- (1)) in Hsq1.
  change (inject_Z 1) with 1 in Hsq2. fold X in Hsq1, Hsq2.
  rewrite HND in Hsq1, Hsq2. rewrite !inject_Z_mult in Hsq1, Hsq2.
  fold Dq in Hsq1, Hsq2.
  set (M := inject_Z m) in *. set (Nn := inject_Z n) in *.
  assert (HM : 0 < M).
  { unfold M. change 0 with (inject_Z 0). rewrite <- Zlt_Qlt. lia. }
  destruct HA as [HA0 HA1].
  assert (HsqA : R * (1 - 2 * u) * (R * (1 - 2 * u)) <= (X - 1) * (X - 1)).
  { apply Qsquare_le; assumption. }
  assert (HsqB : (X + 1) * (X + 1) <= R * (1 + 2 * u) * (R * (1 + 2 * u))).
  { apply Qsquare_le; lra. }
  rewrite He.
  assert (HDD : 0 < Dq * Dq) by nra.
  split.
  - apply Qmult_le_r with (Dq * Dq); [exact HDD|].
    assert (E : r * (1 - 2 * u) * (r * (1 - 2 * u)) * M * (Dq * Dq)
                == R * (1 - 2 * u) * (R * (1 - 2 * u)) * M) by (unfold R; ring).
    rewrite E.
    apply Qle_trans with ((X - 1) * (X - 1) * M).
    + apply Qmult_le_compat_r; lra.
    + lra.
  - apply Qmult_le_r with (Dq * Dq); [exact HDD|].
    assert (E : r * (1 + 2 * u) * (r * (1 + 2 * u)) * M * (Dq * Dq)
                == R * (1 + 2 * u) * (R * (1 + 2 * u)) * M) by (unfold R; ring).
    rewrite E.
    apply Qle_trans with ((X + 1) * (X + 1) * M).
    + lra.
    + apply Qmult_le_compat_r; lra.
Qed.

End StatFacts.

(** ** Properties of the summation of [numpy.mean] *)

Section SumFacts.
Import F64.
Local Open Scope Q_scope.


Lemma u53_pos : 0 < u53.
Proof. apply two_pow_pos. Qed.

Lemma eta_pos : 0 < eta.
Proof. apply two_pow_pos. Qed.

Lemma ppow_0 : ppow 0 == 1.
Proof. reflexivity. Qed.

Lemma ppow_S j : ppow (S j) == ppow j * (1 + u53).
Proof.
  unfold ppow. rewrite Nat2Z.inj_succ, <- Z.add_1_r.
  rewrite Qpower_plus; [reflexivity|].
  pose proof u53_pos. lra.
Qed.

Lemma ppow_ge_1 j : 1 <= ppow j.
Proof.
  induction j as [|j IH]; [rewrite ppow_0; lra|].
  rewrite ppow_S. pose proof u53_pos. nra.
Qed.

Lemma ppow_mono j j' : (j <= j')%nat -> ppow j <= ppow j'.
Proof.
  induction 1 as [|j' _ IH]; [lra|].
  rewrite ppow_S. pose proof u53_pos. pose proof (ppow_ge_1 j'). nra.
Qed.

Lemma Qsum_app l1 l2 : Qsum (l1 ++ l2) == Qsum l1 + Qsum l2.
Proof.
  induction l1 as [|x l1 IH]; simpl; [ring|]. rewrite IH. ring.
Qed.

Lemma Qsum_abs_app l1 l2 : Qsum_abs (l1 ++ l2) == Qsum_abs l1 + Qsum_abs l2.
Proof.
  induction l1 as [|x l1 IH]; simpl; [ring|]. rewrite IH. ring.
Qed.

Lemma Qsum_perm l l' : l ≡ₚ l' -> Qsum l == Qsum l'.
Proof.
  induction 1 as [|x l l' _ IH|x y l|l l' l'' _ IH1 _ IH2]; simpl.
  - reflexivity.
  - rewrite IH. reflexivity.
  - ring.
  - by rewrite IH1.
Qed.

Lemma Qsum_abs_perm l l' : l ≡ₚ l' -> Qsum_abs l == Qsum_abs l'.
Proof.
  induction 1 as [|x l l' _ IH|x y l|l l' l'' _ IH1 _ IH2]; simpl.
  - reflexivity.
  - rewrite IH. reflexivity.
  - ring.
  - by rewrite IH1.
Qed.

Lemma Qsum_abs_nonneg l : 0 <= Qsum_abs l.
Proof.
  induction l as [|x l IH]; simpl; [lra|].
  pose proof (Qabs_nonneg x). lra.
Qed.

Lemma Qsum_abs_bound l : Qabs (Qsum l) <= Qsum_abs l.
Proof.
  induction l as [|x l IH]; simpl; [apply Qle_refl|].
  eapply Qle_trans; [apply Qabs_triangle|]. lra.
Qed.

Lemma add_finite_inv a b v :
  add a b = Finite v ->
  exists va vb, a = Finite va /\ b = Finite vb
                /\ round (va + vb)%Qc = Finite v.
Proof.
  destruct a as [va|na|], b as [vb|nb|]; simpl; try discriminate.
  - eauto.
  - by destruct (Bool.eqb na nb).
Qed.

(** The arithmetic of one node of a summation tree. *)
Lemma node_bound (A1 A2 e1 e2 P1 P2 P J1 J2 d : Q) :
  0 <= A1 -> 0 <= A2 -> 0 <= J1 -> 0 <= J2 ->
  1 <= P1 -> 1 <= P2 -> P1 * (1 + u53) <= P -> P2 * (1 + u53) <= P ->
  0 <= e1 -> 0 <= e2 ->
  e1 <= (P1 - 1) * A1 + J1 * P1 * eta ->
  e2 <= (P2 - 1) * A2 + J2 * P2 * eta ->
  d <= u53 * (A1 + A2 + e1 + e2) + eta ->
  d + e1 + e2 <= (P - 1) * (A1 + A2) + (J1 + J2 + 1) * P * eta.
Proof.
  intros HA1 HA2 HJ1 HJ2 HP1 HP2 HPP1 HPP2 He1 He2 Hb1 Hb2 Hd.
  pose proof u53_pos as Hu. pose proof eta_pos as He.
  assert (H1 : (1 + u53) * e1 + u53 * A1 <= (P - 1) * A1 + J1 * P * eta).
  { assert ((1 + u53) * e1 <= (1 + u53) * ((P1 - 1) * A1 + J1 * P1 * eta)).
    { apply Qmult_le_l; lra. }
    assert (P1 * (1 + u53) * A1 <= P * A1).
    { apply Qmult_le_compat_r; lra. }
    assert (0 <= J1 * eta) by (apply Qmult_le_0_compat; lra).
    assert (P1 * (1 + u53) * (J1 * eta) <= P * (J1 * eta)).
    { apply Qmult_le_compat_r; lra. }
    nra. }
  assert (H2 : (1 + u53) * e2 + u53 * A2 <= (P - 1) * A2 + J2 * P * eta).
  { assert ((1 + u53) * e2 <= (1 + u53) * ((P2 - 1) * A2 + J2 * P2 * eta)).
    { apply Qmult_le_l; lra. }
    assert (P2 * (1 + u53) * A2 <= P * A2).
    { apply Qmult_le_compat_r; lra. }
    assert (0 <= J2 * eta) by (apply Qmult_le_0_compat; lra).
    assert (P2 * (1 + u53) * (J2 * eta) <= P * (J2 * eta)).
    { apply Qmult_le_compat_r; lra. }
    nra. }
  assert (HP : 1 <= P) by nra.
  assert (eta <= P * eta) by nra.
  nra.
Qed.


Lemma Qabs_diff_triangle (a b c : Q) :
  Qabs (a - c) <= Qabs (a - b) + Qabs (b - c).
Proof.
  assert (E : a - c == (a - b) + (b - c)) by ring.
  rewrite E. apply Qabs_triangle.
Qed.

Lemma Qabs_le_add (a s e : Q) : Qabs (a - s) <= e -> Qabs a <= Qabs s + e.
Proof.
  intros H. assert (E : a == (a - s) + s) by ring.
  rewrite E at 1. eapply Qle_trans; [apply Qabs_triangle|]. lra.
Qed.

(** The error of a floating-point sum of [k] leaves. *)
Lemma fsum_error k l f :
  fsum k l f -> forall v : Qc, f = Finite v ->
  (1 <= k)%nat
  /\ Qabs (v - Qsum l)
     <= (ppow (k - 1) - 1) * Qsum_abs l
        + inject_Z (Z.of_nat (k - 1)) * ppow (k - 1) * eta.
Proof.
  induction 1 as [|x|k1 k2 l1 l2 a b H1 IH1 H2 IH2|k l l' f Hp H IH];
    intros v Hv.
  - injection Hv as <-. split; [lia|]. unfold Qsum, Qsum_abs. cbn [foldr].
    rewrite Q2Qc_this. change (1 - 1)%nat with 0%nat.
    change (Qabs (0 - 0)) with 0. rewrite ppow_0.
    change (inject_Z (Z.of_nat 0)) with 0. lra.
  - injection Hv as <-. split; [lia|]. unfold Qsum, Qsum_abs. cbn [foldr].
    change (1 - 1)%nat with 0%nat.
    assert (E : x - (x + 0) == 0) by ring. rewrite E.
    change (Qabs 0) with 0. rewrite ppow_0.
    change (inject_Z (Z.of_nat 0)) with 0.
    pose proof (Qabs_nonneg x). lra.
  - destruct (add_finite_inv a b v Hv) as (va & vb & -> & -> & Hr).
    destruct (IH1 va eq_refl) as [Hk1 He1].
    destruct (IH2 vb eq_refl) as [Hk2 He2].
    split; [lia|].
    pose proof (round_finite_error _ _ Hr) as Hd.
    rewrite this_plus in Hd. fold u53 eta in Hd.
    rewrite Qsum_app, Qsum_abs_app.
    set (S1 := Qsum l1) in *. set (S2 := Qsum l2) in *.
    set (A1 := Qsum_abs l1) in *. set (A2 := Qsum_abs l2) in *.
    pose proof (Qsum_abs_nonneg l1) as HA1. fold A1 in HA1.
    pose proof (Qsum_abs_nonneg l2) as HA2. fold A2 in HA2.
    pose proof (Qsum_abs_bound l1) as HS1. fold S1 A1 in HS1.
    pose proof (Qsum_abs_bound l2) as HS2. fold S2 A2 in HS2.
    set (e1 := Qabs (va - S1)) in *. set (e2 := Qabs (vb - S2)) in *.
    set (d := Qabs (v - (va + vb))) in *.
    assert (Htri : Qabs (v - (S1 + S2)) <= d + e1 + e2).
    { eapply Qle_trans; [apply (Qabs_diff_triangle _ (va + vb))|].
      fold d. assert (E : va + vb - (S1 + S2) == (va - S1) + (vb - S2)) by ring.
      rewrite E. pose proof (Qabs_triangle (va - S1) (vb - S2)) as Ht.
      fold e1 e2 in Ht. lra. }
    assert (Hsz : Qabs (va + vb) <= A1 + A2 + e1 + e2).
    { eapply Qle_trans; [apply Qabs_triangle|].
      pose proof (Qabs_le_add va S1 e1 (Qle_refl _)).
      pose proof (Qabs_le_add vb S2 e2 (Qle_refl _)). lra. }
    assert (Hd' : d <= u53 * (A1 + A2 + e1 + e2) + eta).
    { assert (u53 * Qabs (va + vb) <= u53 * (A1 + A2 + e1 + e2)).
      { apply Qmult_le_l; [apply u53_pos|exact Hsz]. }
      lra. }
    eapply Qle_trans; [exact Htri|].
    assert (HJ : inject_Z (Z.of_nat (k1 + k2 - 1))
                 == inject_Z (Z.of_nat (k1 - 1)) + inject_Z (Z.of_nat (k2 - 1))
                    + 1).
    { rewrite <- !inject_Z_plus. change 1 with (inject_Z 1).
      rewrite <- inject_Z_plus. f_equiv. lia. }
    rewrite HJ.
    apply (node_bound A1 A2 e1 e2 (ppow (k1 - 1)) (ppow (k2 - 1)));
      try assumption.
    + change 0 with (inject_Z 0). rewrite <- Zle_Qle. lia.
    + change 0 with (inject_Z 0). rewrite <- Zle_Qle. lia.
    + apply ppow_ge_1.
    + apply ppow_ge_1.
    + rewrite <- ppow_S. apply ppow_mono. lia.
    + rewrite <- ppow_S. apply ppow_mono. lia.
    + apply Qabs_nonneg.
    + apply Qabs_nonneg.
  - destruct (IH v Hv) as [Hk He]. split; [exact Hk|].
    rewrite <- (Qsum_perm _ _ Hp), <- (Qsum_abs_perm _ _ Hp). exact He.
Qed.


Lemma fsum_foldl (qs : list Qc) : forall k L acc,
  fsum k L acc ->
  fsum (k + length qs) (L ++ qs) (foldl add acc (Finite <$> qs)).
Proof.
  induction qs as [|x qs IH]; intros k L acc H.
  - simpl. by rewrite Nat.add_0_r, app_nil_r.
  - cbn [fmap list_fmap foldl length].
    replace (k + S (length qs))%nat with (k + 1 + length qs)%nat by lia.
    rewrite (cons_middle x L qs), app_assoc.
    apply IH. apply fsum_add; [exact H|apply fsum_leaf].
Qed.


Lemma grow_totals : forall KL qs,
  length KL = length qs ->
  tot_k (zip_with grow KL qs) = (tot_k KL + length qs)%nat
  /\ tot_L (zip_with grow KL qs) ≡ₚ tot_L KL ++ qs.
Proof.
  induction KL as [|[k L] KL IH]; intros [|q qs] Hlen; try done.
  simpl in Hlen. destruct (IH qs ltac:(lia)) as [Hk HL].
  unfold tot_k, tot_L in *. cbn [zip_with fmap list_fmap foldr concat grow fst snd length].
  split; [rewrite Hk; lia|].
  rewrite HL. rewrite <- !app_assoc. apply Permutation_app_head.
  simpl. rewrite Permutation_middle. done.
Qed.

Lemma grow_leaves : forall KL r qs,
  Forall2 leaves KL r -> length r = length qs ->
  Forall2 leaves (zip_with grow KL qs) (zip_with add r (Finite <$> qs)).
Proof.
  intros KL r qs H. revert qs.
  induction H as [|kl f KL r Hf _ IH]; intros [|q qs] Hlen; try done.
  cbn [zip_with fmap list_fmap]. constructor.
  - unfold leaves, grow. simpl. apply fsum_add; [exact Hf|apply fsum_leaf].
  - apply IH. simpl in Hlen. lia.
Qed.

Lemma add_blocks_fsum : forall blocks KL r qs,
  Forall2 leaves KL r -> length r = 8%nat -> (8 * blocks <= length qs)%nat ->
  exists KL',
    Forall2 leaves KL' (add_blocks r blocks (Finite <$> qs))
    /\ length (add_blocks r blocks (Finite <$> qs)) = 8%nat
    /\ tot_k KL' = (tot_k KL + 8 * blocks)%nat
    /\ tot_L KL' ≡ₚ tot_L KL ++ take (8 * blocks) qs.
Proof.
  induction blocks as [|b IH]; intros KL r qs H Hr Hlen.
  - exists KL. split; [exact H|]. split; [exact Hr|]. split; [lia|].
    simpl. by rewrite app_nil_r.
  - cbn [add_blocks]. rewrite <- fmap_take, <- fmap_drop.
    assert (Hl8 : length (take 8 qs) = 8%nat) by (rewrite length_take; lia).
    pose proof (Forall2_length _ _ _ H) as HKL.
    destruct (grow_totals KL (take 8 qs) ltac:(lia)) as [Hk HL].
    pose proof (grow_leaves KL r (take 8 qs) H ltac:(lia)) as Hg.
    destruct (IH _ _ (drop 8 qs) Hg) as (KL' & H' & Hr' & Hk' & HL').
    { rewrite length_zip_with, length_fmap, Hl8. lia. }
    { rewrite length_drop. lia. }
    exists KL'. split; [exact H'|]. split; [exact Hr'|]. split; [lia|].
    rewrite HL', HL, <- app_assoc. apply Permutation_app_head.
    replace (8 * S b)%nat with (8 + 8 * b)%nat by lia.
    by rewrite take_take_drop.
Qed.

Lemma sum8_fsum KL r :
  Forall2 leaves KL r -> length r = 8%nat ->
  fsum (tot_k KL) (tot_L KL) (sum8 r).
Proof.
  intros H Hr.
  do 8 (destruct H as [|[? ?] ? ? ? ? H]; [done|]).
  destruct H; [|done].
  unfold sum8, tot_k, tot_L, leaves in *. simpl in *.
  pose proof (fsum_add _ _ _ _ _ _
    (fsum_add _ _ _ _ _ _ (fsum_add _ _ _ _ _ _ H0 H1)
                          (fsum_add _ _ _ _ _ _ H2 H3))
    (fsum_add _ _ _ _ _ _ (fsum_add _ _ _ _ _ _ H4 H5)
                          (fsum_add _ _ _ _ _ _ H6 H7))) as Hs.
  match type of Hs with
  | fsum ?k _ _ => match goal with
                   | |- fsum ?k' _ _ => replace k' with k by lia
                   end
  end.
  eapply fsum_perm; [|exact Hs].
  rewrite app_nil_r, <- !app_assoc. done.
Qed.


Lemma singletons_leaves (qs : list Qc) :
  Forall2 leaves ((fun q => (1%nat, [q])) <$> qs) (Finite <$> qs)
  /\ tot_k ((fun q => (1%nat, [q])) <$> qs) = length qs
  /\ tot_L ((fun q => (1%nat, [q])) <$> qs) = qs.
Proof.
  induction qs as [|q qs (IH1 & IH2 & IH3)]; [by repeat split; constructor|].
  unfold tot_k, tot_L in *. cbn [fmap list_fmap foldr concat fst snd length].
  split; [|split].
  - constructor; [apply fsum_leaf|exact IH1].
  - by rewrite IH2.
  - by rewrite IH3.
Qed.

Lemma unrolled_sum_fsum (qs : list Qc) :
  (8 <= length qs)%nat ->
  fsum (length qs) qs (unrolled_sum (Finite <$> qs)).
Proof.
  intros Hn. unfold unrolled_sum. rewrite length_fmap.
  set (n := length qs) in *. set (b := (n / 8)%nat).
  pose proof (Nat.div_mod_eq n 8) as Hdm. fold b in Hdm.
  pose proof (Nat.mod_upper_bound n 8 ltac:(lia)) as Hmod.
  assert (Hb : (1 <= b)%nat) by lia.
  rewrite <- fmap_take, <- !fmap_drop.
  destruct (singletons_leaves (take 8 qs)) as (H0 & Hk0 & HL0).
  rewrite length_take in Hk0. fold n in Hk0.
  destruct (add_blocks_fsum (b - 1) _ _ (drop 8 qs) H0)
    as (KL & HKL & Hr & Hk & HL).
  { rewrite length_fmap, length_take. fold n. lia. }
  { rewrite length_drop. fold n. lia. }
  pose proof (sum8_fsum KL _ HKL Hr) as Hs.
  pose proof (fsum_foldl (drop (8 * b) qs) _ _ _ Hs) as Hf.
  rewrite Hk, Hk0, length_drop in Hf. fold n in Hf.
  replace (Nat.min 8 n + 8 * (b - 1) + (n - 8 * b))%nat with n in Hf by lia.
  eapply fsum_perm; [|exact Hf].
  rewrite HL, HL0.
  replace (8 * b)%nat with (8 + 8 * (b - 1))%nat by lia.
  by rewrite take_take_drop, take_drop.
Qed.


Lemma pairwise_sum_fsum : forall fuel (qs : list Qc),
  exists k,
    fsum k qs (pairwise_sum fuel (Finite <$> qs))
    /\ (k <= length qs + 1)%nat
    /\ ((8 <= length qs)%nat -> k = length qs).
Proof.
  assert (Hbase : forall qs : list Qc, (8 <= length qs)%nat ->
            exists k, fsum k qs (unrolled_sum (Finite <$> qs))
                      /\ (k <= length qs + 1)%nat
                      /\ ((8 <= length qs)%nat -> k = length qs)).
  { intros qs Hn. exists (length qs).
    split; [by apply unrolled_sum_fsum|]. split; [lia|done]. }
  induction fuel as [|fuel IH]; intros qs.
  - cbn [pairwise_sum]. rewrite length_fmap.
    destruct (Nat.ltb_spec (length qs) 8) as [Hs|Hs].
    + exists (1 + length qs)%nat. split; [|lia].
      apply (fsum_foldl qs 1 [] _ fsum_zero).
    + destruct (length qs <=? 128)%nat; by apply Hbase.
  - cbn [pairwise_sum]. rewrite length_fmap.
    destruct (Nat.ltb_spec (length qs) 8) as [Hs|Hs].
    + exists (1 + length qs)%nat. split; [|lia].
      apply (fsum_foldl qs 1 [] _ fsum_zero).
    + destruct (Nat.leb_spec (length qs) 128) as [Hm|Hm]; [by apply Hbase|].
      set (n := length qs) in *.
      set (n2 := (n / 2 - (n / 2) mod 8)%nat).
      pose proof (Nat.div_mod_eq n 2) as Hd2.
      pose proof (Nat.mod_upper_bound n 2 ltac:(lia)) as Hm2.
      pose proof (Nat.mod_upper_bound (n / 2) 8 ltac:(lia)) as Hm8.
      assert (Hn2 : (8 <= n2 /\ n2 + 8 <= n)%nat) by (unfold n2; lia).
      rewrite <- fmap_take, <- fmap_drop.
      destruct (IH (take n2 qs)) as (k1 & H1 & _ & Hk1).
      destruct (IH (drop n2 qs)) as (k2 & H2 & _ & Hk2).
      rewrite length_take in Hk1. rewrite length_drop in Hk2. fold n in Hk1, Hk2.
      exists (k1 + k2)%nat. split.
      * rewrite <- (take_drop n2 qs) at 1. by apply fsum_add.
      * rewrite Hk1, Hk2 by lia. lia.
Qed.

Lemma pairwise_sum_fuel : forall f1 f2 (a : list float),
  (length a <= f1)%nat -> (length a <= f2)%nat ->
  pairwise_sum f1 a = pairwise_sum f2 a.
Proof.
  induction f1 as [|f1 IH]; intros f2 a H1 H2.
  - destruct a; [|simpl in H1; lia]. by destruct f2.
  - destruct f2 as [|f2].
    { destruct a; [done|simpl in H2; lia]. }
    cbn [pairwise_sum].
    destruct (Nat.ltb_spec (length a) 8) as [Hs|Hs]; [done|].
    destruct (Nat.leb_spec (length a) 128) as [Hm|Hm]; [done|].
    set (n := length a) in *.
    pose proof (Nat.div_mod_eq n 2) as Hd2.
    pose proof (Nat.mod_upper_bound n 2 ltac:(lia)) as Hm2.
    pose proof (Nat.mod_upper_bound (n / 2) 8 ltac:(lia)) as Hm8.
    set (n2 := (n / 2 - (n / 2) mod 8)%nat).
    assert (Hn2 : (8 <= n2 /\ n2 + 8 <= n)%nat) by (unfold n2; lia).
    f_equal; apply IH; rewrite ?length_take, ?length_drop; fold n; lia.
Qed.

Lemma np_sum_fsum (qs : list Qc) :
  exists k, fsum k qs (np_sum (Finite <$> qs)) /\ (k <= length qs + 2)%nat.
Proof.
  unfold np_sum. rewrite length_fmap.
  destruct (pairwise_sum_fsum (length qs) qs) as (k & H & Hk & _).
  exists (1 + k)%nat. split; [|lia].
  apply (fsum_add 1 k [] qs _ _ fsum_zero H).
Qed.

Lemma ppow_bound (j : nat) :
  2 * inject_Z (Z.of_nat j) * u53 <= 1 ->
  ppow j <= 1 + 2 * inject_Z (Z.of_nat j) * u53.
Proof.
  pose proof u53_pos as Hu.
  induction j as [|j IH]; intros Hj.
  - rewrite ppow_0. change (inject_Z (Z.of_nat 0)) with 0. lra.
  - rewrite Nat2Z.inj_succ, <- Z.add_1_r, inject_Z_plus in *.
    change (inject_Z 1) with 1 in *.
    assert (Hj0 : 0 <= inject_Z (Z.of_nat j)).
    { change 0 with (inject_Z 0). rewrite <- Zle_Qle. lia. }
    set (J := inject_Z (Z.of_nat j)) in *.
    assert (HJu : 0 <= J * u53) by (apply Qmult_le_0_compat; lra).
    specialize (IH ltac:(lra)).
    rewrite ppow_S. pose proof (ppow_ge_1 j). nra.
Qed.

Lemma mean_bound (nq inv A E P dv : Q) :
  1 <= nq -> 0 < inv -> inv * nq == 1 -> 0 <= A -> 0 <= E -> 1 <= P ->
  E <= (P - 1) * A + (nq + 1) * P * eta ->
  P * (1 + u53) <= 1 + 2 * (nq + 2) * u53 ->
  2 * (nq + 2) * u53 <= 1 ->
  dv <= u53 * (A * inv + E * inv) + eta ->
  dv + E * inv <= (nq + 2) * (2 * u53) * (A * inv) + 8 * eta.
Proof.
  intros Hn Hinv Hin HA HE HP HEb HPb Hsmall Hdv.
  pose proof u53_pos as Hu. pose proof eta_pos as He.
  set (Am := A * inv) in *. set (Em := E * inv) in *.
  assert (HAm0 : 0 <= Am) by (apply Qmult_le_0_compat; lra).
  assert (HEm0 : 0 <= Em) by (apply Qmult_le_0_compat; lra).
  assert (Hinv1 : inv <= 1).
  { assert (inv * 1 <= inv * nq) by (apply Qmult_le_l; lra). lra. }
  assert (HPe : 0 <= P * eta) by (apply Qmult_le_0_compat; lra).
  assert (HEm1 : Em <= (P - 1) * Am + 2 * (P * eta)).
  { assert (H1 : E * inv <= ((P - 1) * A + (nq + 1) * P * eta) * inv).
    { apply Qmult_le_compat_r; lra. }
    assert (E1 : ((P - 1) * A + (nq + 1) * P * eta) * inv
                 == (P - 1) * Am + (inv * nq + inv) * (P * eta)).
    { unfold Am. ring. }
    assert (H2 : (inv * nq + inv) * (P * eta) <= 2 * (P * eta)).
    { apply Qmult_le_compat_r; lra. }
    fold Em in H1. lra. }
  assert (HP2 : P * (1 + u53) <= 2) by lra.
  assert (H1 : (1 + u53) * Em <= (1 + u53) * ((P - 1) * Am + 2 * (P * eta))).
  { apply Qmult_le_l; lra. }
  assert (E1 : (1 + u53) * ((P - 1) * Am + 2 * (P * eta)) + u53 * Am
               == (P * (1 + u53) - 1) * Am + 2 * (P * (1 + u53)) * eta)
    by ring.
  assert (H2 : (P * (1 + u53) - 1) * Am <= (2 * (nq + 2) * u53) * Am).
  { apply Qmult_le_compat_r; lra. }
  assert (H3 : 2 * (P * (1 + u53)) * eta <= 4 * eta).
  { assert (P * (1 + u53) * eta <= 2 * eta)
      by (apply Qmult_le_compat_r; lra).
    lra. }
  assert (E2 : (nq + 2) * (2 * u53) * Am == 2 * (nq + 2) * u53 * Am) by ring.
  assert (E3 : u53 * (Am + Em) == u53 * Am + u53 * Em) by ring.
  assert (E4 : (1 + u53) * Em == Em + u53 * Em) by ring.
  lra.
Qed.


Lemma div_finite_inv (x : float) (n : nat) (v : Qc) :
  (1 <= n)%nat ->
  div x (Finite (Qc_of_Z (Z.of_nat n))) = Finite v ->
  exists sv : Qc,
    x = Finite sv /\ round (sv / Qc_of_Z (Z.of_nat n))%Qc = Finite v.
Proof.
  intros Hn. destruct x as [sv|?|]; try discriminate.
  unfold div.
  destruct (Qeq_bool (Qc_of_Z (Z.of_nat n)) 0) eqn:E.
  { apply Qeq_bool_iff in E. unfold Qeq in E. simpl in E. lia. }
  intros H. exists sv. by split.
Qed.

Theorem np_mean_accuracy (qs : list Qc) (v : Qc) :
  qs <> [] -> (Z.of_nat (length qs) + 2 <= 2 ^ 50)%Z ->
  np_mean (Finite <$> qs) = Finite v ->
  let n := inject_Z (Z.of_nat (length qs)) in
  Qabs (v - Qsum qs / n)
  <= (n + 2) * two_pow (-52) * (Qsum_abs qs / n) + two_pow (-1072).
Proof.
  intros Hne Hsmall Hmean nq.
  assert (Hn : (1 <= length qs)%nat) by (destruct qs; [done|simpl; lia]).
  unfold np_mean in Hmean. rewrite length_fmap in Hmean.
  destruct (div_finite_inv _ _ _ Hn Hmean) as (sv & Hsum & Hround).
  destruct (np_sum_fsum qs) as (k & Hf & Hk).
  destruct (fsum_error _ _ _ Hf sv Hsum) as [Hk1 Herr].
  pose proof (round_finite_error _ _ Hround) as Hd. rewrite this_div in Hd.
  rewrite this_of_Z in Hd. fold nq u53 eta in Hd.
  assert (Hnq : 1 <= nq).
  { unfold nq. change 1 with (inject_Z 1). rewrite <- Zle_Qle. lia. }
  set (inv := / nq).
  assert (Hinv : 0 < inv) by (apply Qinv_lt_0_compat; lra).
  assert (Hin : inv * nq == 1) by (unfold inv; field; lra).
  set (A := Qsum_abs qs) in *. set (Sm := Qsum qs) in *.
  pose proof (Qsum_abs_nonneg qs) as HA. fold A in HA.
  pose proof (Qsum_abs_bound qs) as HS. fold A Sm in HS.
  set (E := Qabs (sv - Sm)) in *.
  assert (HE0 : 0 <= E) by apply Qabs_nonneg.
  set (P := ppow (length qs + 1)%nat).
  assert (HP1 : 1 <= P) by apply ppow_ge_1.
  pose proof eta_pos as Heta. pose proof u53_pos as Hu.
  assert (HEb : E <= (P - 1) * A + (nq + 1) * P * eta).
  { eapply Qle_trans; [exact Herr|].
    assert (Hp : ppow (k - 1) <= P) by (apply ppow_mono; lia).
    pose proof (ppow_ge_1 (k - 1)) as Hp1.
    assert (HJ : inject_Z (Z.of_nat (k - 1)) <= nq + 1).
    { unfold nq. change 1 with (inject_Z 1). rewrite <- inject_Z_plus.
      rewrite <- Zle_Qle. lia. }
    assert (HJ0 : 0 <= inject_Z (Z.of_nat (k - 1))).
    { change 0 with (inject_Z 0). rewrite <- Zle_Qle. lia. }
    assert (H1 : (ppow (k - 1) - 1) * A <= (P - 1) * A).
    { apply Qmult_le_compat_r; lra. }
    assert (H2 : inject_Z (Z.of_nat (k - 1)) * ppow (k - 1) * eta
                 <= (nq + 1) * P * eta).
    { apply Qmult_le_compat_r; [|lra].
      apply Qle_trans with ((nq + 1) * ppow (k - 1)).
      - apply Qmult_le_compat_r; lra.
      - apply Qmult_le_l; lra. }
    lra. }
  assert (Hsm : 2 * (nq + 2) * u53 <= 1).
  { assert (nq + 2 <= inject_Z (2 ^ 50)).
    { unfold nq. change 2 with (inject_Z 2) at 1. rewrite <- inject_Z_plus.
      rewrite <- Zle_Qle. exact Hsmall. }
    assert (2 * (nq + 2) * u53 <= 2 * inject_Z (2 ^ 50) * u53).
    { apply Qmult_le_compat_r; lra. }
    assert (2 * inject_Z (2 ^ 50) * u53 <= 1) by (vm_compute; discriminate).
    lra. }
  assert (HPb : P * (1 + u53) <= 1 + 2 * (nq + 2) * u53).
  { unfold P. rewrite <- ppow_S.
    assert (Hj : inject_Z (Z.of_nat (S (length qs + 1)%nat)) == nq + 2).
    { assert (Hz : Z.of_nat (S (length qs + 1)%nat)
                   = (Z.of_nat (length qs) + 2)%Z) by lia.
      rewrite Hz, inject_Z_plus. reflexivity. }
    pose proof (ppow_bound (S (length qs + 1)%nat)) as Hb.
    rewrite Hj in Hb. apply Hb. lra. }
  assert (Hdv : Qabs (v - sv / nq) <= u53 * (A * inv + E * inv) + eta).
  { assert (Hsv : Qabs sv <= A + E).
    { pose proof (Qabs_le_add sv Sm E (Qle_refl _)). lra. }
    assert (Hq : Qabs (sv / nq) == Qabs sv * inv).
    { unfold Qdiv. rewrite Qabs_Qmult. fold inv.
      rewrite (Qabs_pos inv) by lra. reflexivity. }
    rewrite Hq in Hd.
    assert (Qabs sv * inv <= (A + E) * inv)
      by (apply Qmult_le_compat_r; lra).
    assert (u53 * (Qabs sv * inv) <= u53 * ((A + E) * inv))
      by (apply Qmult_le_l; lra).
    assert (E1 : u53 * ((A + E) * inv) == u53 * (A * inv + E * inv)) by ring.
    lra. }
  pose proof (mean_bound nq inv A E P _ Hnq Hinv Hin HA HE0 HP1 HEb HPb Hsm Hdv)
    as Hfinal.
  assert (Htri : Qabs (v - Sm / nq) <= Qabs (v - sv / nq) + E * inv).
  { eapply Qle_trans; [apply (Qabs_diff_triangle _ (sv / nq))|].
    assert (E1 : sv / nq - Sm / nq == (sv - Sm) * inv) by (unfold Qdiv, inv; ring).
    rewrite E1, Qabs_Qmult, (Qabs_pos inv) by lra. fold E. lra. }
  assert (E52 : two_pow (-52) == 2 * u53) by reflexivity.
  assert (E72 : two_pow (-1072) == 8 * eta) by reflexivity.
  rewrite E52, E72. unfold Qdiv at 2. fold inv. lra.
Qed.

End SumFacts.

(** ** Properties of [statistics.mean] and [statistics.stdev] *)

Section SummaryNumbers.
Import F64.
Local Open Scope Q_scope.

Lemma Q_total_inject (data : list Z) :
  Q_total (inject_Z <$> data) == inject_Z (Z_sum data).
Proof.
  induction data as [|x l IH]; [reflexivity|].
  cbn [fmap list_fmap Q_total foldr Z_sum]. fold (Q_total (inject_Z <$> l)).
  fold (Z_sum l). rewrite IH, inject_Z_plus. reflexivity.
Qed.

Lemma Q_total_sq_dev (m : Q) (data : list Z) :
  Q_total ((fun x => (x - m) * (x - m)) <$> (inject_Z <$> data))
  == inject_Z (Z_sum ((fun n => n * n)%Z <$> data))
     - 2 * m * inject_Z (Z_sum data)
     + inject_Z (Z.of_nat (length data)) * m * m.
Proof.
  induction data as [|x l IH].
  - cbn. ring.
  - cbn [fmap list_fmap Q_total foldr Z_sum length].
    fold (Q_total ((fun x => (x - m) * (x - m)) <$> (inject_Z <$> l))).
    fold (Z_sum l). fold (Z_sum ((fun n => n * n)%Z <$> l)).
    rewrite IH, Nat2Z.inj_succ, <- Z.add_1_l, !inject_Z_plus, inject_Z_mult.
    change (inject_Z 1) with 1. ring.
Qed.

Lemma Q_total_sq_nonneg (m : Q) (l : list Q) :
  0 <= Q_total ((fun x => (x - m) * (x - m)) <$> l).
Proof.
  induction l as [|x l IH]; [cbn; lra|].
  cbn [fmap list_fmap Q_total foldr].
  fold (Q_total ((fun x => (x - m) * (x - m)) <$> l)).
  pose proof (Qsqr_nonneg (x - m)). lra.
Qed.


Lemma inject_Z_pos (z : Z) : (0 < z)%Z -> 0 < inject_Z z.
Proof. intros Hz. change 0 with (inject_Z 0). by rewrite <- Zlt_Qlt. Qed.

Lemma sample_variance_gap (data : list Z) :
  (2 <= length data)%nat ->
  let n := Z.of_nat (length data) in
  sample_variance (inject_Z <$> data)
  == inject_Z (sq_gap data) / inject_Z (n * (n - 1))
  /\ (0 <= sq_gap data)%Z.
Proof.
  intros Hlen n.
  assert (Hn : 0 < inject_Z n) by (apply inject_Z_pos; lia).
  assert (Hn1 : 0 < inject_Z (n - 1)) by (apply inject_Z_pos; lia).
  set (m := arithmetic_mean (inject_Z <$> data)).
  assert (Hm : m == inject_Z (Z_sum data) / inject_Z n).
  { unfold m, arithmetic_mean. rewrite Q_total_inject, length_fmap. reflexivity. }
  pose proof (Q_total_sq_dev m data) as Hid. fold n in Hid.
  pose proof (Q_total_sq_nonneg m (inject_Z <$> data)) as Hnn.
  assert (Hg : Q_total ((fun x => (x - m) * (x - m)) <$> (inject_Z <$> data))
               == inject_Z (sq_gap data) / inject_Z n).
  { rewrite Hid, Hm. unfold sq_gap. fold n.
    unfold Z.sub. rewrite inject_Z_plus, inject_Z_opp, !inject_Z_mult.
    field. lra. }
  split.
  - unfold sample_variance. fold m. rewrite length_fmap. fold n. rewrite Hg.
    rewrite inject_Z_mult. field. lra.
  - rewrite Hg in Hnn.
    assert (H0 : 0 <= inject_Z (sq_gap data)).
    { assert (E : inject_Z (sq_gap data)
                  == inject_Z (sq_gap data) / inject_Z n * inject_Z n)
        by (field; lra).
      rewrite E. apply Qmult_le_0_compat; lra. }
    change 0 with (inject_Z 0) in H0. by rewrite <- Zle_Qle in H0.
Qed.

Lemma Z_sum_lower lo (l : list Z) :
  (forall x, x ∈ l -> lo <= x)%Z -> (lo * Z.of_nat (length l) <= Z_sum l)%Z.
Proof.
  induction l as [|a l IH]; intros Hall; cbn [Z_sum foldr length].
  - lia.
  - assert (lo <= a)%Z by (apply Hall; set_solver).
    assert (lo * Z.of_nat (length l) <= Z_sum l)%Z
      by (apply IH; intros x Hx; apply Hall; set_solver).
    unfold Z_sum in *. lia.
Qed.

Lemma Z_sum_upper hi (l : list Z) :
  (forall x, x ∈ l -> x <= hi)%Z -> (Z_sum l <= hi * Z.of_nat (length l))%Z.
Proof.
  induction l as [|a l IH]; intros Hall; cbn [Z_sum foldr length].
  - lia.
  - assert (a <= hi)%Z by (apply Hall; set_solver).
    assert (Z_sum l <= hi * Z.of_nat (length l))%Z
      by (apply IH; intros x Hx; apply Hall; set_solver).
    unfold Z_sum in *. lia.
Qed.

Lemma Z_sum_const c (l : list Z) :
  (forall x, x ∈ l -> x = c) -> Z_sum l = (c * Z.of_nat (length l))%Z.
Proof.
  induction l as [|a l IH]; intros Hall; cbn [Z_sum foldr length].
  - lia.
  - assert (a = c) by (apply Hall; set_solver).
    assert (Z_sum l = c * Z.of_nat (length l))%Z
      by (apply IH; intros x Hx; apply Hall; set_solver).
    unfold Z_sum in *. lia.
Qed.

Lemma Z_sum_perm (l l' : list Z) : l ≡ₚ l' -> Z_sum l = Z_sum l'.
Proof.
  unfold Z_sum. induction 1 as [|a l l' _ IH|a b l|l l' l'' _ IH1 _ IH2];
    cbn [foldr]; lia.
Qed.

Lemma arithmetic_mean_between (data : list Z) (lo hi : Z) :
  data <> [] -> (forall x, x ∈ data -> lo <= x <= hi)%Z ->
  inject_Z lo <= arithmetic_mean (inject_Z <$> data)
  /\ arithmetic_mean (inject_Z <$> data) <= inject_Z hi.
Proof.
  intros Hne Hall. unfold arithmetic_mean.
  rewrite Q_total_inject, length_fmap.
  assert (Hlen : (0 < Z.of_nat (length data))%Z)
    by (destruct data; [done|simpl; lia]).
  pose proof (inject_Z_pos _ Hlen) as Hn.
  pose proof (Z_sum_lower lo data (fun x Hx => proj1 (Hall x Hx))) as Hl.
  pose proof (Z_sum_upper hi data (fun x Hx => proj2 (Hall x Hx))) as Hh.
  rewrite Zle_Qle, inject_Z_mult in Hl, Hh.
  split.
  - apply Qle_shift_div_l; lra.
  - apply Qle_shift_div_r; lra.
Qed.

Lemma mean_value (data : list Z) :
  this (Qc_of_Z (Z_sum data) / Qc_of_Z (Z.of_nat (length data)))%Qc
  == arithmetic_mean (inject_Z <$> data).
Proof.
  rewrite this_div, !this_of_Z. unfold arithmetic_mean.
  rewrite Q_total_inject, length_fmap. reflexivity.
Qed.

Lemma Qc_frac (v : Qc) : inject_Z (Qnum v) / inject_Z (Z.pos (Qden v)) == v.
Proof. rewrite <- Qmake_Qdiv. by destruct v as [[a b] ?]. Qed.

Lemma Qc_not_integer (v : Qc) (z : Z) :
  Z.pos (Qden v) <> 1%Z -> ~ this v == inject_Z z.
Proof.
  intros Hd He. apply Hd.
  assert (v = Qc_of_Z z) as -> by (apply Qc_is_canon; exact He).
  reflexivity.
Qed.

Lemma moderate_abs (data : list Z) (x : Z) :
  Forall moderate data -> x ∈ data -> (- 2 ^ 50 <= x <= 2 ^ 50)%Z.
Proof.
  intros Hall Hx. rewrite Forall_forall in Hall. specialize (Hall x Hx).
  unfold moderate in Hall. lia.
Qed.

Lemma convert_spec (v : Qc) :
  Qabs v < two_pow 53 ->
  exists mean, _convert v = Ok mean
    /\ ((exists z, mean = PyInt z /\ inject_Z z == v)
        \/ (exists r : Qc,
              mean = PyFloat (Finite r)
              /\ (forall z, ~ this v == inject_Z z)
              /\ (forall A B, inject_Z A <= v -> v <= inject_Z B ->
                    inject_Z A <= r /\ r <= inject_Z B)
              /\ (two_pow (-1022) <= Qabs v ->
                    Qabs (r - v) <= two_pow (-53) * Qabs v))).
Proof.
  intros Hb. unfold _convert.
  destruct (Z.pos (Qden v) =? 1)%Z eqn:Hd.
  - eexists. split; [reflexivity|]. left. eexists. split; [reflexivity|].
    apply Z.eqb_eq in Hd. rewrite <- (Qc_frac v) at 2. rewrite Hd.
    change (inject_Z 1) with 1. field.
  - apply Z.eqb_neq in Hd.
    set (q := inject_Z (Qnum v) / inject_Z (Z.pos (Qden v))).
    assert (Eq : q == v) by apply Qc_frac.
    assert (Hq : Qabs q <= two_pow 1023).
    { rewrite Eq. apply Qlt_le_weak. eapply Qlt_le_trans; [exact Hb|].
      apply two_pow_le. lia. }
    destruct (int_true_divide_ok _ _ (Pos2Z.is_pos _) Hq) as (r & Hdiv & Hr).
    fold q in Hr. rewrite Hdiv. eexists. split; [reflexivity|]. right. exists r.
    split; [reflexivity|]. split; [intros z; by apply Qc_not_integer|]. split.
    + intros A B HA HB. rewrite <- Eq in HA, HB, Hb.
      destruct (round_between q A B Hb HA HB) as (r' & Hr' & Hbd).
      rewrite Hr in Hr'. injection Hr' as <-. exact Hbd.
    + intros Hn. rewrite <- Eq in Hn |- *.
      by apply round_finite_error_normal.
Qed.

(** [statistics.mean] on integers of moderate size. *)
Lemma statistics_mean_spec (data : list Z) :
  data <> [] -> Forall moderate data ->
  let mu := arithmetic_mean (inject_Z <$> data) in
  exists mean, statistics_mean data = Ok mean
    /\ ((exists z, mean = PyInt z /\ inject_Z z == mu)
        \/ (exists r : Qc,
              mean = PyFloat (Finite r)
              /\ (forall z, ~ mu == inject_Z z)
              /\ (forall A B, inject_Z A <= mu -> mu <= inject_Z B ->
                    inject_Z A <= r /\ r <= inject_Z B)
              /\ ((Z.of_nat (length data) < 2 ^ 63)%Z ->
                    Qabs (r - mu) <= two_pow (-53) * Qabs mu))).
Proof.
  intros Hne Hmod mu. unfold statistics_mean.
  assert (Hlen : (0 < Z.of_nat (length data))%Z)
    by (destruct data; [done|simpl; lia]).
  destruct (Z.of_nat (length data) <? 1)%Z eqn:Hn; [apply Z.ltb_lt in Hn; lia|].
  clear Hn.
  set (v := (Qc_of_Z (Z_sum data) / Qc_of_Z (Z.of_nat (length data)))%Qc).
  assert (Ev : this v == mu) by apply mean_value.
  destruct (arithmetic_mean_between data (- 2 ^ 50) (2 ^ 50) Hne
              (fun x Hx => moderate_abs data x Hmod Hx)) as [Hlo Hhi].
  fold mu in Hlo, Hhi.
  assert (Hb : Qabs v < two_pow 53).
  { rewrite Ev. apply Qle_lt_trans with (inject_Z (2 ^ 50)).
    - apply Qabs_Qle_condition. rewrite <- inject_Z_opp. by split.
    - reflexivity. }
  destruct (convert_spec v Hb) as (mean & Hc & Hcase).
  exists mean. split; [exact Hc|].
  destruct Hcase as [(z & -> & Hz)|(r & -> & Hni & Hbd & Hacc)].
  - left. exists z. split; [done|]. by rewrite <- Ev.
  - right. exists r. split; [done|]. split; [|split].
    + intros z Hz. apply (Hni z). by rewrite Ev.
    + intros A B HA HB. apply Hbd; by rewrite Ev.
    + intros Hsmall. rewrite <- Ev. apply Hacc. rewrite Ev.
      (* mu = S / n with S a non-zero integer *)
      assert (Hmu : mu == inject_Z (Z_sum data) / inject_Z (Z.of_nat (length data))).
      { unfold mu, arithmetic_mean. rewrite Q_total_inject, length_fmap.
        reflexivity. }
      pose proof (inject_Z_pos _ Hlen) as Hnq.
      assert (HS : Z_sum data <> 0%Z).
      { intros E0. apply (Hni 0%Z). rewrite Ev, Hmu, E0. 
        change (inject_Z 0) with 0. field. lra. }
      rewrite Hmu. unfold Qdiv. rewrite Qabs_Qmult.
      rewrite (Qabs_pos (/ _)) by (apply Qlt_le_weak, Qinv_lt_0_compat; lra).
      assert (H1 : 1 <= Qabs (inject_Z (Z_sum data))).
      { change (Qabs (inject_Z (Z_sum data))) with (inject_Z (Z.abs (Z_sum data))).
        change 1 with (inject_Z 1). rewrite <- Zle_Qle. lia. }
      assert (Hinv : two_pow (-63) <= / inject_Z (Z.of_nat (length data))).
      { assert (E0 : two_pow (-63) == / inject_Z (2 ^ 63)) by reflexivity.
        rewrite E0. apply Qle_shift_inv_l; [lra|].
        assert (inject_Z (Z.of_nat (length data)) <= inject_Z (2 ^ 63)).
        { rewrite <- Zle_Qle. lia. }
        assert (E1 : / inject_Z (2 ^ 63) * inject_Z (Z.of_nat (length data))
                      <= / inject_Z (2 ^ 63) * inject_Z (2 ^ 63)).
        { apply Qmult_le_l; [reflexivity|done]. }
        assert (E2 : / inject_Z (2 ^ 63) * inject_Z (2 ^ 63) == 1) by reflexivity.
        lra. }
      apply Qle_trans with (two_pow (-63)); [apply two_pow_le; lia|].
      apply Qle_trans with (1 * / inject_Z (Z.of_nat (length data))); [lra|].
      apply Qmult_le_compat_r; [lra|].
      apply Qlt_le_weak, Qinv_lt_0_compat; lra.
Qed.

Lemma Qc_cross (v : Qc) (G D : Z) :
  (0 < D)%Z -> this v == inject_Z G / inject_Z D ->
  (Qnum v * D = G * Z.pos (Qden v))%Z.
Proof.
  intros HD Hv. pose proof (inject_Z_pos _ HD) as Hq.
  assert (E : this v * inject_Z D == inject_Z G) by (rewrite Hv; field; lra).
  unfold Qeq in E. simpl in E. lia.
Qed.

Lemma Z_sum_squares_upper (data : list Z) :
  Forall moderate data ->
  (Z_sum ((fun n => n * n) <$> data) <= 2 ^ 100 * Z.of_nat (length data))%Z.
Proof.
  intros Hmod.
  pose proof (Z_sum_upper (2 ^ 100) ((fun n => n * n)%Z <$> data)) as Hu.
  rewrite length_fmap in Hu. apply Hu. intros x Hx.
  apply list_elem_of_fmap in Hx as (y & -> & Hy).
  pose proof (moderate_abs data y Hmod Hy) as Hb.
  change (2 ^ 100)%Z with (2 ^ 50 * 2 ^ 50)%Z. nia.
Qed.

Lemma stdev_value (data : list Z) :
  (2 <= length data)%nat ->
  let n := Z.of_nat (length data) in
  exists mss : Qc,
    statistics_stdev data = _float_sqrt_of_frac (Qnum mss) (Z.pos (Qden mss))
    /\ this mss == sample_variance (inject_Z <$> data).
Proof.
  intros Hlen n. unfold statistics_stdev, _ss. fold n.
  destruct (n =? 0)%Z eqn:E0; [apply Z.eqb_eq in E0; lia|].
  destruct (n <? 2)%Z eqn:E2; [apply Z.ltb_lt in E2; lia|].
  eexists. split; [reflexivity|].
  destruct (sample_variance_gap data Hlen) as [-> _]. fold n.
  assert (Hn : 0 < inject_Z n) by (apply inject_Z_pos; lia).
  assert (Hn1 : 0 < inject_Z (n - 1)) by (apply inject_Z_pos; lia).
  rewrite !this_div, this_minus, !this_mult, !this_of_Z.
  unfold sq_gap. fold n. rewrite inject_Z_mult.
  unfold Z.sub at 2. rewrite inject_Z_plus, inject_Z_opp, !inject_Z_mult.
  field. lra.
Qed.

(** [statistics.stdev] on integers of moderate size. *)
Lemma statistics_stdev_spec (data : list Z) :
  (2 <= length data)%nat -> Forall moderate data ->
  let V := sample_variance (inject_Z <$> data) in
  exists r : Qc,
    statistics_stdev data = Ok (Finite r)
    /\ 0 <= r
    /\ (V == 0 -> r = Q2Qc 0)
    /\ ((Z.of_nat (length data) < 2 ^ 63)%Z ->
          (r * (1 - two_pow (-52))) * (r * (1 - two_pow (-52))) <= V
          /\ V <= (r * (1 + two_pow (-52))) * (r * (1 + two_pow (-52)))).
Proof.
  intros Hlen Hmod V.
  destruct (stdev_value data Hlen) as (mss & -> & Hv). fold V in Hv.
  destruct (sample_variance_gap data Hlen) as [Hgap HG]. fold V in Hgap.
  set (n := Z.of_nat (length data)) in *.
  set (G := sq_gap data) in *. set (D := (n * (n - 1))%Z) in *.
  assert (HD : (0 < D)%Z) by (unfold D; nia).
  rewrite Hgap in Hv.
  pose proof (Qc_cross mss G D HD Hv) as Hx.
  set (a := Qnum mss) in *. set (b := Z.pos (Qden mss)) in *.
  assert (Hb : (0 < b)%Z) by (unfold b; lia).
  assert (Hab : inject_Z a / inject_Z b == V) by (rewrite Hgap, <- Hv; apply Qc_frac).
  pose proof (inject_Z_pos _ Hb) as Hbq.
  assert (Ha0 : (0 <= a)%Z) by nia.
  assert (HGup : (G <= 2 ^ 101 * D)%Z).
  { pose proof (Z_sum_squares_upper data Hmod) as Hs. fold n in Hs.
    unfold G, sq_gap, D. fold n.
    change (2 ^ 101)%Z with (2 * 2 ^ 100)%Z.
    set (sxx := Z_sum ((fun n => n * n)%Z <$> data)) in *.
    set (sx := Z_sum data). assert (0 <= sx * sx)%Z by nia.
    assert (n * sxx <= n * (2 ^ 100 * n))%Z by (apply Z.mul_le_mono_nonneg_l; lia).
    assert (n * n <= 2 * (n * (n - 1)))%Z by nia.
    nia. }
  destruct (Z.eq_dec a 0%Z) as [Ez|Hnz].
  - rewrite Ez. rewrite float_sqrt_of_frac_zero by done.
    exists (Q2Qc 0). split; [done|]. split; [done|]. split; [done|].
    intros _.
    assert (V == 0).
    { rewrite <- Hab, Ez. change (inject_Z 0) with 0. field. lra. }
    assert (E : this (Q2Qc 0) == 0) by reflexivity.
    rewrite E. lra.
  - assert (Ha : (0 < a)%Z) by lia.
    assert (Hlt : (a < b * 2 ^ 107)%Z).
    { assert (a * D <= 2 ^ 101 * b * D)%Z by nia.
      assert (a <= 2 ^ 101 * b)%Z by nia. lia. }
    destruct (float_sqrt_of_frac_spec a b Ha Hb Hlt) as (r & Hr & Hr0 & Hacc).
    exists r. split; [exact Hr|]. split; [exact Hr0|]. split.
    + intros HV0. exfalso. rewrite <- Hab in HV0.
      assert (E : inject_Z a == inject_Z a / inject_Z b * inject_Z b)
        by (field; lra).
      rewrite HV0 in E. pose proof (inject_Z_pos _ Ha). lra.
    + intros Hsmall.
      assert (Hprec : (b <= a * 2 ^ 2040)%Z).
      { assert (HG1 : (1 <= G)%Z) by nia.
        assert (D < 2 ^ 126)%Z.
        { unfold D. change (2 ^ 126)%Z with (2 ^ 63 * 2 ^ 63)%Z. nia. }
        assert (b <= a * D)%Z by nia.
        assert (a * D <= a * 2 ^ 126)%Z by nia. lia. }
      destruct (Hacc Hprec) as [Hlo Hhi].
      rewrite <- Hab. split.
      * apply Qle_shift_div_l; [lra|exact Hlo].
      * apply Qle_shift_div_r; [lra|exact Hhi].
Qed.

End SummaryNumbers.

(** ** Properties *)

Section Properties.

Context `{Services}.

(** *** Evaluator *)

Lemma evaluate_loop_spec self k thr hypos :
  forall results w,
  exists results',
    evaluate_loop self hypos k thr results w
      = Returns results' (with_trace w (trace w ++ query_events self hypos k))
    /\ (forall h, h ∉ hypos -> results' !! h = results !! h)
    /\ (forall pre h post, hypos = pre ++ h :: post -> h ∉ post ->
          results' !! h
            = Some (evaluation_record (scores_after self w pre h k) thr))
    /\ dom results' = list_to_set hypos ∪ dom results.
Proof.
  induction hypos as [|a rest IH]; intros results w.
  - exists results. repeat split.
    + simpl. unfold mret, M_ret, with_trace, query_events. simpl.
      rewrite app_nil_r. by destruct w.
    + intros pre h post Heq. by destruct pre.
    + set_solver.
  - simpl. unfold mbind, M_bind, search_scores. simpl.
    set (r1 := <[a := _]> results).
    set (w1 := World _ _ _ _).
    destruct (IH r1 w1) as (results' & Hrun & Hother & Hlast & Hdom).
    exists results'. repeat split.
    + rewrite Hrun. unfold with_trace, w1, query_events. simpl.
      by rewrite <- app_assoc.
    + intros h Hh. rewrite Hother by set_solver.
      unfold r1. rewrite lookup_insert_ne; [done|set_solver].
    + intros pre h post Heq Hpost.
      destruct pre as [|a' pre']; simpl in Heq; simplify_eq.
      * rewrite Hother by done. unfold r1. rewrite lookup_insert_eq.
        unfold scores_after, query_events. simpl. by rewrite app_nil_r.
      * rewrite (Hlast pre' h post eq_refl Hpost).
        unfold scores_after, w1, query_events. simpl.
        by rewrite <- app_assoc.
    + rewrite Hdom. unfold r1. rewrite dom_insert_L. set_solver.
Qed.

Lemma Qsum_total (qs : list Qc) : (Qsum qs == Q_total (this <$> qs))%Q.
Proof.
  induction qs as [|q qs IH]; [reflexivity|].
  cbn [Qsum fmap list_fmap Q_total foldr]. fold (Qsum qs).
  fold (Q_total (this <$> qs)). by rewrite IH.
Qed.

Lemma Qsum_abs_total (qs : list Qc) :
  (Qsum_abs qs == Q_total (Qabs <$> (this <$> qs)))%Q.
Proof.
  induction qs as [|q qs IH]; [reflexivity|].
  cbn [Qsum_abs fmap list_fmap Q_total foldr]. fold (Qsum_abs qs).
  fold (Q_total (Qabs <$> (this <$> qs))). by rewrite IH.
Qed.

Lemma np_mean_up_to_rounding (scores : list float) :
  mean_up_to_rounding scores (np_mean scores).
Proof.
  intros qs v -> Hne Hsmall Hv n.
  pose proof (np_mean_accuracy qs v Hne Hsmall Hv) as Hacc. cbv zeta in Hacc.
  fold n in Hacc. unfold arithmetic_mean. rewrite !length_fmap. fold n.
  by rewrite <- Qsum_total, <- Qsum_abs_total.
Qed.

Lemma mean_or_zero_up_to_rounding (scores : list float) :
  mean_up_to_rounding scores (mean_or_zero scores).
Proof.
  destruct scores as [|s scores].
  - intros qs v Hqs Hne. by destruct qs.
  - apply np_mean_up_to_rounding.
Qed.

(** A computed double is the one that stands for [q]. *)
Lemma float_is (f : float) (q : Qc) :
  match f with Finite a => Qeq_bool a q | _ => false end = true ->
  f = Finite q.
Proof.
  destruct f as [a| |]; try discriminate. intros Heq.
  f_equal. apply Qc_is_canon. by apply Qeq_bool_iff.
Qed.

Lemma leb_finite (t v : Qc) : leb (Finite t) (Finite v) = true <-> (t <= v)%Q.
Proof. apply Qle_bool_iff. Qed.

Lemma leb_refl (x : float) : x <> NaN -> leb x x = true.
Proof.
  destruct x as [q|[]|]; try done. intros _. apply Qle_bool_iff, Qle_refl.
Qed.

Lemma evaluation_record_spec (scores : list float) (thr : float) :
  let r := evaluation_record scores thr in
  top_k_scores r = scores
  /\ (scores = [] -> avg_similarity r = Finite (Q2Qc 0))
  /\ (scores <> [] -> avg_similarity r = np_mean scores)
  /\ mean_up_to_rounding scores (avg_similarity r)
  /\ (scores = [dyadic 1 2; dyadic 1 4; dyadic 3 4] ->
        avg_similarity r = dyadic 1 2)
  /\ supported r = leb thr (avg_similarity r)
  /\ (forall t v : Qc, thr = Finite t -> avg_similarity r = Finite v ->
        (supported r = true <-> (t <= v)%Q))
  /\ (avg_similarity r = thr -> thr <> NaN -> supported r = true).
Proof.
  cbn [evaluation_record top_k_scores avg_similarity supported].
  split; [done|]. split; [by intros ->|]. split; [by destruct scores|].
  split; [apply mean_or_zero_up_to_rounding|]. split.
  { intros ->. apply float_is. vm_compute. reflexivity. }
  split; [done|]. split.
  - intros t v -> ->. apply leb_finite.
  - intros -> Hn. by apply leb_refl.
Qed.


(** C9. The result of [evaluate_hypotheses] is keyed by hypothesis
    text: its keys are the distinct texts of the input, one entry each,
    and the entry of a text is the record computed at its last
    occurrence, so that of two hypotheses with the same text the later
    one overwrites the earlier one. *)
Theorem evaluate_hypotheses_last_wins self hypos k thr w :
  exists results w',
    evaluate_hypotheses self hypos k thr w = Returns results w'
    /\ dom results = list_to_set hypos
    /\ size results = length (remove_dups hypos)
    /\ (forall pre h post, hypos = pre ++ h :: post -> h ∉ post ->
          results !! h
            = Some (evaluation_record (scores_after self w pre h k) thr))
    /\ (forall pre h mid post, hypos = pre ++ h :: mid ++ h :: post ->
          h ∉ post ->
          results !! h
            = Some (evaluation_record
                      (scores_after self w (pre ++ h :: mid) h k) thr)).
Proof.
  destruct (evaluate_loop_spec self k thr hypos ∅ w)
    as (results & Hrun & _ & Hlast & Hdom).
  eexists results, _. split; [exact Hrun|].
  assert (Hd : dom results = list_to_set hypos).
  { rewrite Hdom, dom_empty_L. set_solver. }
  repeat split.
  - exact Hd.
  - rewrite <- size_dom, Hd.
    rewrite <- (size_list_to_set (C := gset pystr) (remove_dups hypos))
      by apply NoDup_remove_dups.
    f_equal. apply set_eq. intros x.
    by rewrite !elem_of_list_to_set, elem_of_remove_dups.
  - exact Hlast.
  - intros pre h mid post -> Hpost.
    apply (Hlast (pre ++ h :: mid) h post); [|done].
    by rewrite <- app_assoc.
Qed.

(** C10. [evaluate_gap_analysis] returns the mean of the scores the
    index returned for the gap text as [np.mean] computes it (0 when
    there are none; the arithmetic mean up to rounding otherwise), and
    the value of [grounding_threshold] has no influence on the
    outcome. *)
Theorem evaluate_gap_analysis_threshold_free self gap k t1 t2 w :
  evaluate_gap_analysis self gap k t1 w = evaluate_gap_analysis self gap k t2 w
  /\ exists avg w',
       evaluate_gap_analysis self gap k t1 w = Returns avg w'
       /\ let scores :=
            snd <$> similarity_search_with_score
                      (trace w) (ev_faiss_path self) gap k in
          (scores = [] -> avg = Finite (Q2Qc 0))
          /\ (scores <> [] -> avg = np_mean scores)
          /\ mean_up_to_rounding scores avg
          /\ (scores = [dyadic 1 2; dyadic 1 4; dyadic 3 4] ->
                avg = dyadic 1 2).
Proof.
  split; [reflexivity|].
  eexists _, _. split; [reflexivity|]. cbv zeta.
  destruct (evaluation_record_spec
              (snd <$> similarity_search_with_score
                         (trace w) (ev_faiss_path self) gap k) t1)
    as (_ & Hnil & Hmean & Hacc & Hex & _).
  cbn [evaluation_record avg_similarity] in Hnil, Hmean, Hacc, Hex.
  by repeat split.
Qed.

(** *** summarize_scores *)

Lemma foldl_min_spec (l : list Z) : forall x,
  foldl Z.min x l ∈ x :: l /\ (forall y, y ∈ x :: l -> foldl Z.min x l <= y).
Proof.
  induction l as [|a l IH]; intros x; simpl.
  - split; [set_solver|]. intros y Hy. apply list_elem_of_singleton in Hy. lia.
  - destruct (IH (Z.min x a)) as [Hin Hle]. split.
    + apply elem_of_cons in Hin as [Heq|Hin]; [|set_solver].
      rewrite Heq. destruct (Z.min_spec x a) as [[_ ->]|[_ ->]]; set_solver.
    + intros y Hy. apply elem_of_cons in Hy as [->|Hy].
      * specialize (Hle (Z.min x a)). etrans; [apply Hle; set_solver|lia].
      * apply elem_of_cons in Hy as [->|Hy].
        -- specialize (Hle (Z.min x a)). etrans; [apply Hle; set_solver|lia].
        -- apply Hle. set_solver.
Qed.

Lemma foldl_max_spec (l : list Z) : forall x,
  foldl Z.max x l ∈ x :: l /\ (forall y, y ∈ x :: l -> y <= foldl Z.max x l).
Proof.
  induction l as [|a l IH]; intros x; simpl.
  - split; [set_solver|]. intros y Hy. apply list_elem_of_singleton in Hy. lia.
  - destruct (IH (Z.max x a)) as [Hin Hle]. split.
    + apply elem_of_cons in Hin as [Heq|Hin]; [|set_solver].
      rewrite Heq. destruct (Z.max_spec x a) as [[_ ->]|[_ ->]]; set_solver.
    + intros y Hy. apply elem_of_cons in Hy as [->|Hy].
      * specialize (Hle (Z.max x a)). etrans; [|apply Hle; set_solver]. lia.
      * apply elem_of_cons in Hy as [->|Hy].
        -- specialize (Hle (Z.max x a)). etrans; [|apply Hle; set_solver]. lia.
        -- apply Hle. set_solver.
Qed.

Lemma summarize_scores_nonempty scores x l :
  clean_scores scores = x :: l ->
  summarize_scores scores
  = bind (statistics_mean (x :: l)) (fun mean =>
    bind (match l with
          | [] => Ok (Finite (Q2Qc 0))
          | _ => statistics_stdev (x :: l)
          end) (fun std =>
    Ok {| s_min := Some (foldl Z.min x l); s_max := Some (foldl Z.max x l);
          s_mean := Some mean; s_std := Some std |})).
Proof. intros Hc. unfold summarize_scores. rewrite Hc. by destruct l. Qed.

Lemma Qc_of_Z_this (z : Z) : this (Qc_of_Z z) = inject_Z z.
Proof. reflexivity. Qed.

Lemma convert_integer (z : Z) : _convert (Qc_of_Z z) = Ok (PyInt z).
Proof. unfold _convert. by rewrite Qc_of_Z_this. Qed.

(** A mean that is an integer is returned as an [int]. *)
Lemma statistics_mean_integral (data : list Z) (z : Z) :
  data <> [] -> Z_sum data = z * Z.of_nat (length data) ->
  statistics_mean data = Ok (PyInt z).
Proof.
  intros Hne Hsum. unfold statistics_mean.
  assert (Hlen : 0 < Z.of_nat (length data))
    by (destruct data; [done|simpl; lia]).
  destruct (Z.of_nat (length data) <? 1) eqn:Hn; [apply Z.ltb_lt in Hn; lia|].
  rewrite Hsum.
  replace (Qc_of_Z (z * Z.of_nat (length data))
           / Qc_of_Z (Z.of_nat (length data)))%Qc with (Qc_of_Z z).
  - apply convert_integer.
  - apply Qc_is_canon. rewrite this_div, !this_of_Z, inject_Z_mult.
    pose proof (inject_Z_pos _ Hlen). field. lra.
Qed.

Lemma summarize_scores_moderate scores x l :
  clean_scores scores = x :: l -> Forall moderate (x :: l) ->
  exists mean (std : Qc),
    summarize_scores scores
    = Ok {| s_min := Some (foldl Z.min x l); s_max := Some (foldl Z.max x l);
            s_mean := Some mean; s_std := Some (Finite std) |}
    /\ statistics_mean (x :: l) = Ok mean
    /\ (l = [] -> std = Q2Qc 0)
    /\ (l <> [] -> statistics_stdev (x :: l) = Ok (Finite std)).
Proof.
  intros Hc Hmod. rewrite (summarize_scores_nonempty scores x l Hc).
  destruct (statistics_mean_spec (x :: l) ltac:(done) Hmod) as (mean & -> & _).
  destruct l as [|y l].
  - exists mean, (Q2Qc 0). by repeat split.
  - destruct (statistics_stdev_spec (x :: y :: l) ltac:(simpl; lia) Hmod)
      as (std & Hstd & _).
    exists mean, std. rewrite Hstd. by repeat split.
Qed.

Lemma moderate_7 : Forall moderate [7].
Proof. repeat constructor. unfold moderate. simpl. lia. Qed.


(** *** The thread pool *)

Lemma with_trace_idem w tr tr' : with_trace (with_trace w tr) tr' = with_trace w tr'.
Proof. reflexivity. Qed.

Lemma with_trace_same w : with_trace w (trace w) = w.
Proof. by destruct w. Qed.

Lemma completion_order_elem n sched i :
  i ∈ completion_order n sched <-> (i < n)%nat.
Proof.
  unfold completion_order.
  rewrite elem_of_app, list_elem_of_difference, elem_of_remove_dups,
    list_elem_of_filter, elem_of_seq.
  destruct (decide (i ∈ sched)); naive_solver lia.
Qed.

Lemma completion_order_NoDup n sched : NoDup (completion_order n sched).
Proof.
  unfold completion_order. apply NoDup_app. split; [apply NoDup_remove_dups|].
  split.
  - intros x Hx. rewrite list_elem_of_difference. naive_solver.
  - apply NoDup_list_difference, NoDup_seq.
Qed.

Lemma completion_order_perm n sched : completion_order n sched ≡ₚ seq 0 n.
Proof.
  apply NoDup_Permutation.
  - apply completion_order_NoDup.
  - apply NoDup_seq.
  - intros i. rewrite completion_order_elem, elem_of_seq. lia.
Qed.

Lemma filter_all_id {A} (P : A -> Prop) `{forall x, Decision (P x)} (l : list A) :
  Forall P l -> filter P l = l.
Proof.
  induction 1 as [|x l Hx _ IH]; [done|].
  rewrite filter_cons_True by done. by f_equal.
Qed.

Lemma remove_dups_id `{EqDecision A} (l : list A) :
  NoDup l -> remove_dups l = l.
Proof.
  induction 1 as [|x l Hx _ IH]; [done|].
  simpl. destruct (decide_rel elem_of x l); [done|]. by f_equal.
Qed.

Lemma list_difference_all `{EqDecision A} (l k : list A) :
  (forall x, x ∈ l -> x ∈ k) -> list_difference l k = [].
Proof.
  induction l as [|x l IH]; intros Hall; [done|].
  simpl. destruct (decide_rel elem_of x k) as [|Hx].
  - apply IH. intros y Hy. apply Hall. set_solver.
  - destruct Hx. apply Hall. set_solver.
Qed.

(** Any order in which all tasks complete is one the pool can follow. *)
Lemma completion_order_any n order :
  order ≡ₚ seq 0 n -> completion_order n order = order.
Proof.
  intros Hperm. unfold completion_order.
  assert (Hnd : NoDup order) by (rewrite Hperm; apply NoDup_seq).
  assert (Hall : forall i, i ∈ order <-> (i < n)%nat).
  { intros i. rewrite Hperm, elem_of_seq. lia. }
  rewrite filter_all_id by (apply Forall_forall; intros i; apply Hall).
  rewrite remove_dups_id by done.
  rewrite list_difference_all; [apply app_nil_r|].
  intros i Hi%elem_of_seq. apply Hall. lia.
Qed.

Lemma task_events_seq {A} (ev : A -> event) (args : list A) :
  task_events ev args (seq 0 (length args)) = ev <$> args.
Proof.
  unfold task_events.
  induction args as [|a args IH] using rev_ind; [done|].
  rewrite length_app, Nat.add_1_r, seq_S, omap_app, fmap_app. simpl.
  rewrite lookup_app_r, Nat.sub_diag by lia. simpl. f_equal.
  rewrite <- IH. apply list_omap_ext, Forall_Forall2_diag, Forall_forall.
  intros i Hi%elem_of_seq. by rewrite lookup_app_l by lia.
Qed.

Lemma task_events_perm {A} (ev : A -> event) (args : list A) sched :
  task_events ev args (completion_order (length args) sched) ≡ₚ ev <$> args.
Proof.
  rewrite <- task_events_seq. unfold task_events.
  by rewrite completion_order_perm.
Qed.

Lemma pool_complete_spec {A B} (f : list event -> A -> B) (ev : A -> event)
    (task : A -> M B) (args : list A) :
  oracle_task f ev task ->
  forall order done w, NoDup order ->
  exists done',
    pool_complete task args order done w
      = Returns done' (with_trace w (trace w ++ task_events ev args order))
    /\ (forall j, j ∉ order -> done' !! j = done !! j)
    /\ (forall pre j post a, order = pre ++ j :: post -> args !! j = Some a ->
          done' !! j = Some (f (trace w ++ task_events ev args pre) a)).
Proof.
  intros Htask. induction order as [|i order IH]; intros done w Hnd.
  - exists done. repeat split.
    + simpl. unfold mret, M_ret, task_events. simpl.
      by rewrite app_nil_r, with_trace_same.
    + intros pre j post a Heq. by destruct pre.
  - apply NoDup_cons in Hnd as [Hi Hnd]. simpl.
    destruct (args !! i) as [a|] eqn:Ha.
    + unfold mbind, M_bind. rewrite Htask.
      destruct (IH (<[i:=f (trace w) a]> done)
                  (with_trace w (trace w ++ [ev a])) Hnd)
        as (done' & Hrun & Hother & Hpos).
      exists done'. repeat split.
      * rewrite Hrun, with_trace_idem. unfold task_events. simpl.
        rewrite ?Ha. simpl. by rewrite <- app_assoc.
      * intros j Hj. rewrite Hother by set_solver.
        apply lookup_insert_ne. set_solver.
      * intros pre j post a' Heq Ha'.
        destruct pre as [|i' pre']; simpl in Heq; simplify_eq.
        -- rewrite Hother by done. rewrite lookup_insert_eq.
           unfold task_events. simpl. by rewrite app_nil_r.
        -- rewrite (Hpos pre' j post a' eq_refl Ha').
           unfold task_events. simpl. rewrite ?Ha. simpl.
           by rewrite <- app_assoc.
    + destruct (IH done w Hnd) as (done' & Hrun & Hother & Hpos).
      exists done'. repeat split.
      * rewrite Hrun. unfold task_events. simpl. by rewrite ?Ha.
      * intros j Hj. apply Hother. set_solver.
      * intros pre j post a' Heq Ha'.
        destruct pre as [|i' pre']; simpl in Heq; simplify_eq.
        rewrite (Hpos pre' j post a' eq_refl Ha').
        unfold task_events. simpl. by rewrite ?Ha.
Qed.

Lemma results_in_order_spec {B} (done : gmap nat B) (ids : list nat) w :
  (forall i, i ∈ ids -> is_Some (done !! i)) ->
  exists l,
    results_in_order done ids w = Returns l w
    /\ Forall2 (fun i b => done !! i = Some b) ids l.
Proof.
  induction ids as [|i ids IH]; intros Hall.
  - exists []. by split.
  - destruct (Hall i) as [b Hb]; [set_solver|].
    destruct IH as (l & Hrun & Hl); [intros; apply Hall; set_solver|].
    exists (b :: l). split; [|by constructor].
    simpl. unfold mbind, M_bind, future_result. rewrite Hb. simpl.
    unfold mret at 1, M_ret at 1. by rewrite Hrun.
Qed.

(** Every task completes, and the results come back in submission
    order: result [i] is what task [i] computed, in the history left by
    the tasks that completed before it. *)
Lemma executor_map_spec {A B} (f : list event -> A -> B) (ev : A -> event)
    (task : A -> M B) (args : list A) (sched : list nat) w :
  oracle_task f ev task ->
  let order := completion_order (length args) sched in
  exists l,
    executor_map task args sched w
      = Returns l (with_trace w (trace w ++ task_events ev args order))
    /\ length l = length args
    /\ (forall i a, args !! i = Some a ->
          exists pre post,
            order = pre ++ i :: post
            /\ l !! i = Some (f (trace w ++ task_events ev args pre) a)).
Proof.
  intros Htask order. unfold executor_map. fold order.
  destruct (pool_complete_spec f ev task args Htask order ∅ w
              (completion_order_NoDup _ _))
    as (done & Hrun & _ & Hpos).
  assert (Hdone : forall i a, args !! i = Some a ->
            exists pre post, order = pre ++ i :: post
              /\ done !! i = Some (f (trace w ++ task_events ev args pre) a)).
  { intros i a Ha.
    assert (Hin : i ∈ order).
    { apply completion_order_elem. by apply lookup_lt_Some in Ha. }
    apply list_elem_of_split in Hin as (pre & post & Heq).
    exists pre, post. split; [done|]. by apply (Hpos pre i post a). }
  destruct (results_in_order_spec done (seq 0 (length args))
              (with_trace w (trace w ++ task_events ev args order)))
    as (l & Hres & Hl).
  { intros i Hi%elem_of_seq.
    destruct (lookup_lt_is_Some_2 args i) as [a Ha]; [lia|].
    destruct (Hdone i a Ha) as (? & ? & _ & ->). eauto. }
  exists l. unfold mbind, M_bind. rewrite Hrun. split; [exact Hres|].
  pose proof (Forall2_length _ _ _ Hl) as Hlen. rewrite length_seq in Hlen.
  split; [done|].
  intros i a Ha. destruct (Hdone i a Ha) as (pre & post & Heq & Hd).
  exists pre, post. split; [done|].
  assert (Hi : (i < length args)%nat) by by apply lookup_lt_Some in Ha.
  destruct (lookup_lt_is_Some_2 l i) as [b Hb]; [lia|].
  rewrite Hb. rewrite <- Hd. symmetry.
  eapply (Forall2_lookup_lr _ _ _ i i b Hl); [|done].
  apply lookup_seq. lia.
Qed.

(** *** parse_feasibility_scores *)

Lemma parse_one_spec text :
  parse_one text = Ok (Re.rating_of uni_alnum text).
Proof.
  unfold parse_one, Re.rating_of.
  pose proof (search_marker uni_alnum text) as Hm.
  pose proof (search_fallback uni_alnum text) as Hf.
  destruct (Re.search _ Re.marker_pattern text),
    (Re.first_marker _ text); try done.
  - destruct Hm as [-> _]. done.
  - destruct (Re.search _ Re.fallback_pattern text),
      (Re.first_standalone _ text); try done.
    destruct Hf as [-> _]. done.
Qed.

Lemma parse_loop_spec vals : forall acc,
  parse_loop acc vals = Ok (acc ++ (Re.rating_of uni_alnum <$> vals)).
Proof.
  induction vals as [|text vals IH]; intros acc; simpl.
  - by rewrite app_nil_r.
  - rewrite parse_one_spec. simpl. rewrite IH. by rewrite <- app_assoc.
Qed.

Lemma parse_feasibility_scores_spec vals :
  parse_feasibility_scores vals = Ok (Re.rating_of uni_alnum <$> vals).
Proof. apply parse_loop_spec. Qed.


(** *** Construction *)

(** C3. Without [HUGGINGFACEHUB_API_TOKEN] in the environment the
    pipeline is still constructed, with the token embedded in the
    source, and so is an evaluator built with its default arguments
    once the index directory exists; only an evaluator given an empty
    token explicitly raises [EnvironmentError]. *)
Theorem construction_without_credential pdfs path w :
  environ w !! TOKEN_VAR = None ->
  (exists pipe w',
     MultiAgentPipeline_init pdfs path w = Returns pipe w'
     /\ hf_token pipe = EMBEDDED_TOKEN)
  /\ (forall epath, default DEFAULT_FAISS_PATH epath ∈ dirs w ->
        exists ev,
          MultiAgentEvaluator_init epath None None w = Returns ev w
          /\ ev_token ev = EMBEDDED_TOKEN)
  /\ (forall epath, exists msg,
        MultiAgentEvaluator_init epath (Some []) None w
          = Raises (EnvironmentError msg) w).
Proof.
  intros Henv. repeat split.
  - unfold MultiAgentPipeline_init, mbind, M_bind, os_getenv.
    rewrite Henv. simpl.
    unfold load_models, mbind, M_bind, os_path_isdir.
    destruct (bool_decide _); simpl; eauto.
  - intros epath Hdir. unfold MultiAgentEvaluator_init, mbind, M_bind. simpl.
    unfold os_path_isdir. rewrite bool_decide_eq_true_2 by done. simpl. eauto.
  - intros epath. unfold MultiAgentEvaluator_init, mbind, M_bind, os_getenv.
    simpl. rewrite Henv. simpl. eauto.
Qed.

(** *** Context builder and validator *)

Lemma summarize_task_oracle :
  oracle_task summarizer EvSummarize summarize_task.
Proof. intros a w. reflexivity. Qed.

Lemma validate_task_oracle context :
  oracle_task (fun tr h => llm_text tr (VALIDATOR_PROMPT h context))
    (fun h => EvGenerate (VALIDATOR_PROMPT h context))
    (fun h => llm_generate (VALIDATOR_PROMPT h context)).
Proof. intros a w. reflexivity. Qed.

Lemma validate_spec self hypos context sched w :
  let order := completion_order (length hypos) sched in
  exists vals,
    _validate self hypos context sched w
      = Returns vals
          (World (clock w + elapsed StepValidate) (environ w) (dirs w)
             (trace w ++ validation_events hypos context order))
    /\ length vals = length hypos
    /\ (forall i h, hypos !! i = Some h ->
          exists pre post,
            order = pre ++ i :: post
            /\ vals !! i
               = Some (llm_text (trace w ++ validation_events hypos context pre)
                         (VALIDATOR_PROMPT h context))).
Proof.
  intros order. unfold _validate.
  destruct (executor_map_spec _ _ _ hypos sched w (validate_task_oracle context))
    as (vals & Hrun & Hlen & Hith).
  exists vals. unfold mbind, M_bind. rewrite Hrun. simpl. by repeat split.
Qed.

(** C1. [_validate] returns as many validations as there are
    hypotheses, whatever order the pool completes the generation calls
    in; validation [i] is the text generated for the prompt of
    hypothesis [i], and when the language model answers a prompt the
    same way at any time the list of validations does not depend on
    the completion order at all. *)
Theorem validate_index_aligned self hypos context sched w :
  exists vals w',
    _validate self hypos context sched w = Returns vals w'
    /\ length vals = length hypos
    /\ (forall i h, hypos !! i = Some h ->
          exists pre post,
            completion_order (length hypos) sched = pre ++ i :: post
            /\ vals !! i
               = Some (llm_text (trace w ++ validation_events hypos context pre)
                         (VALIDATOR_PROMPT h context)))
    /\ ((forall tr tr' p, llm_text tr p = llm_text tr' p) ->
          vals = (fun h => llm_text [] (VALIDATOR_PROMPT h context)) <$> hypos).
Proof.
  destruct (validate_spec self hypos context sched w)
    as (vals & Hrun & Hlen & Hith).
  eexists vals, _. split; [exact Hrun|]. split; [exact Hlen|].
  split; [exact Hith|].
  intros Hpure. apply list_eq. intros i. rewrite list_lookup_fmap.
  destruct (hypos !! i) as [h|] eqn:Hh; simpl.
  - destruct (Hith i h Hh) as (pre & post & _ & ->). f_equal. apply Hpure.
  - apply lookup_ge_None. apply lookup_ge_None in Hh. lia.
Qed.

Lemma get_context_spec self k sched w :
  let docs :=
    fst <$> similarity_search_with_score (trace w) (faiss_path self) [] k in
  let query := EvQuery (faiss_path self) [] k in
  exists summaries evs,
    _get_context self k sched w
      = Returns (join [LF; LF] summaries)
          (World (clock w + elapsed StepContext) (environ w) (dirs w)
             (trace w ++ query :: evs))
    /\ evs ≡ₚ EvSummarize <$> docs
    /\ length summaries = length docs
    /\ (forall i d, docs !! i = Some d ->
          exists tr, summaries !! i = Some (summarizer tr d)).
Proof.
  intros docs query. unfold _get_context, mbind, M_bind.
  unfold get_relevant_documents at 1. fold docs. fold query.
  set (w1 := World _ _ _ (trace w ++ [query])).
  destruct (executor_map_spec _ _ _ docs sched w1 summarize_task_oracle)
    as (summaries & Hrun & Hlen & Hith).
  rewrite Hrun. simpl.
  exists summaries, (task_events EvSummarize docs
                       (completion_order (length docs) sched)).
  split; [by rewrite <- app_assoc|].
  split; [apply task_events_perm|]. split; [done|].
  intros i d Hd. destruct (Hith i d Hd) as (pre & post & _ & Hs). eauto.
Qed.

Lemma join_blank_lines (parts : list pystr) :
  join [LF; LF] parts = blank_line_separated parts.
Proof.
  destruct parts as [|p ps]; [done|]. revert p.
  induction ps as [|p' ps IH]; intros p.
  - simpl. by rewrite app_nil_r.
  - change (join [LF; LF] (p :: p' :: ps))
      with (p ++ [LF; LF] ++ join [LF; LF] (p' :: ps)).
    rewrite IH. simpl. done.
Qed.

(** C7. [_get_context] issues one index query, submits one
    summarization task per returned chunk and nothing else, so at most
    [k] tasks when the index honours [k], and returns one string: the
    summaries in the order in which the index returned the chunks,
    with a blank line (two newlines) between each two.  For one chunk
    the string is its summary; for two, the first summary, two
    newlines and the second summary; and so on. *)
Theorem get_context_one_query self k sched w :
  let docs :=
    fst <$> similarity_search_with_score (trace w) (faiss_path self) [] k in
  exists context summaries w' new,
    _get_context self k sched w = Returns context w'
    /\ context = blank_line_separated summaries
    /\ (summaries = [] -> context = [])
    /\ (forall a, summaries = [a] -> context = a)
    /\ (forall a b, summaries = [a; b] -> context = a ++ LF :: LF :: b)
    /\ (forall a b c, summaries = [a; b; c] ->
          context = a ++ LF :: LF :: b ++ LF :: LF :: c)
    /\ (forall a rest, summaries = a :: rest ->
          context = a ++ concat ((fun s => LF :: LF :: s) <$> rest))
    /\ trace w' = trace w ++ new
    /\ filter (fun e => is_query e = true) new = [EvQuery (faiss_path self) [] k]
    /\ filter (fun e => is_summarize e = true) new ≡ₚ EvSummarize <$> docs
    /\ length new = S (length docs)
    /\ length summaries = length docs
    /\ (forall i d, docs !! i = Some d ->
          exists tr, summaries !! i = Some (summarizer tr d))
    /\ ((forall tr index q,
           (length (similarity_search_with_score tr index q k)
            <= Z.to_nat k)%nat) ->
        (length (filter (fun e => is_summarize e = true) new)
         <= Z.to_nat k)%nat).
Proof.
  intros docs.
  destruct (get_context_spec self k sched w)
    as (summaries & evs & Hrun & Hperm & Hlen & Hith).
  fold docs in Hperm, Hlen, Hith.
  assert (Hall : forall e, e ∈ evs -> is_query e = false /\ is_summarize e = true).
  { intros e He. rewrite Hperm in He.
    apply list_elem_of_fmap in He as (d & -> & _). done. }
  assert (Hq : filter (fun e => is_query e = true) evs = []).
  { clear -Hall. induction evs as [|e evs IH]; [done|].
    rewrite filter_cons_False.
    - apply IH. intros e' He'. apply Hall. set_solver.
    - destruct (Hall e) as [-> _]; [set_solver|done]. }
  assert (Hs : filter (fun e => is_summarize e = true) evs = evs).
  { clear -Hall. induction evs as [|e evs IH]; [done|].
    rewrite filter_cons_True.
    - f_equal. apply IH. intros e' He'. apply Hall. set_solver.
    - apply Hall. set_solver. }
  eexists _, summaries, _, _. split; [exact Hrun|].
  split; [apply join_blank_lines|].
  split; [by intros ->|]. split; [by intros a ->|].
  split; [by intros a b ->|]. split; [by intros a b c ->|].
  split; [intros a rest ->; apply (join_blank_lines (a :: rest))|].
  split; [reflexivity|].
  rewrite !filter_cons_True by done.
  rewrite filter_cons_False by (simpl; congruence).
  rewrite Hq, Hs. repeat split; try done.
  - simpl. by rewrite Hperm, length_fmap.
  - intros Hk. rewrite Hperm, length_fmap. unfold docs.
    rewrite length_fmap. apply Hk.
Qed.

(** *** run and run_experiment *)

Lemma bind_time_time {B} (f : Z -> M B) w :
  (time_time ≫= f) w = f (clock w) w.
Proof. reflexivity. Qed.

Lemma bind_emit {B} (f : unit -> M B) e w :
  (emit e ≫= f) w = f () (with_trace w (trace w ++ [e])).
Proof. reflexivity. Qed.

Lemma bind_advance {B} (f : unit -> M B) st w :
  (advance st ≫= f) w
    = f () (World (clock w + elapsed st) (environ w) (dirs w) (trace w)).
Proof. reflexivity. Qed.

Lemma bind_returns {A B} (m : M A) (f : A -> M B) w a w' :
  m w = Returns a w' -> (m ≫= f) w = f a w'.
Proof. unfold mbind, M_bind. by intros ->. Qed.

Ltac prim_step :=
  first [rewrite bind_time_time | rewrite bind_emit | rewrite bind_advance];
  unfold with_trace; cbn [clock environ dirs trace].

Ltac call_step Hcall :=
  rewrite (bind_returns _ _ _ _ _ Hcall); clear Hcall;
  cbn [clock environ dirs trace].

Lemma propose_spec self context w :
  _propose self context w
    = Returns (nonempty_stripped (llm_text (trace w) (PROPOSER_PROMPT context)))
        (World (clock w + elapsed StepPropose) (environ w) (dirs w)
           (trace w ++ [EvGenerate (PROPOSER_PROMPT context)])).
Proof. reflexivity. Qed.

Lemma analyze_gaps_spec self context w :
  _analyze_gaps self context w
    = Returns (llm_text (trace w) (GAP_PROMPT context))
        (World (clock w + elapsed StepGaps) (environ w) (dirs w)
           (trace w ++ [EvGenerate (GAP_PROMPT context)])).
Proof. reflexivity. Qed.

Lemma run_spec self s1 s2 w :
  exists out tr,
    run self s1 s2 w
      = Returns out
          (World (clock w + chain_time) (environ w) (dirs w)
             (tr ++ [EvPrint (PrTotal chain_time)]))
    /\ length (validations out) = length (proposed_hypotheses out).
Proof.
  unfold run, call_get_context. simpl default.
  do 2 prim_step.
  destruct (get_context_spec self 3 s1 w)
    as (summaries & evs & Hctx & _).
  call_step Hctx.
  set (context := join [LF; LF] summaries).
  do 3 prim_step.
  rewrite (bind_returns _ _ _ _ _ (propose_spec _ _ _)).
  cbn [clock environ dirs trace].
  set (hypos := nonempty_stripped _).
  do 3 prim_step.
  match goal with
  | |- context [(_validate self hypos context s2 ≫= _) ?w1] =>
      destruct (validate_spec self hypos context s2 w1)
        as (vals & Hval & Hlen & _)
  end.
  call_step Hval.
  do 3 prim_step.
  rewrite (bind_returns _ _ _ _ _ (analyze_gaps_spec _ _ _)).
  cbn [clock environ dirs trace].
  do 4 prim_step.
  eexists _, _. split.
  - unfold mret, M_ret. f_equal. f_equal.
    + unfold chain_time. lia.
    + f_equal. do 3 f_equal. unfold chain_time. lia.
  - exact Hlen.
Qed.

Lemma init_spec pdfs path w :
  truthy (resolved_token w) = true ->
  MultiAgentPipeline_init pdfs path w
    = Returns {| pdf_paths := pdfs; faiss_path := path;
                 hf_token := resolved_token w; get_context_k := 3 |}
        (World (clock w + elapsed StepConstruct) (environ w)
           ({[path]} ∪ dirs w) (trace w)).
Proof.
  intros Htok. unfold MultiAgentPipeline_init, mbind, M_bind, os_getenv.
  fold (resolved_token w). rewrite Htok. simpl.
  unfold load_models, mbind, M_bind, os_path_isdir.
  destruct (decide (path ∈ dirs w)) as [Hin|Hnin].
  - rewrite bool_decide_eq_true_2 by done. simpl.
    do 2 f_equal. set_solver.
  - rewrite bool_decide_eq_false_2 by done. reflexivity.
Qed.

Lemma slice_to_nonneg {A} (l : list A) (m : Z) :
  0 <= m -> slice_to l m = take (Z.to_nat m) l.
Proof. intros Hm. unfold slice_to. by rewrite (proj2 (Z.leb_le 0 m) Hm). Qed.

Lemma slice_to_prefix {A} (l : list A) (m : Z) :
  exists n, slice_to l m = take n l.
Proof. unfold slice_to. destruct (0 <=? m); eauto. Qed.

Lemma run_experiment_spec nm pdfs rk m s1 s2 w :
  truthy (resolved_token w) = true ->
  exists out w2 w',
    run (experiment_pipeline nm pdfs rk w) s1 s2 (constructed nm w)
      = Returns out w2
    /\ length (validations out) = length (proposed_hypotheses out)
    /\ (exists tr, trace w' = tr ++ [EvPrint (PrTotal chain_time)])
    /\ clock w' = clock w + elapsed StepConstruct + chain_time
                  + elapsed StepSlice + elapsed StepParse
    /\ let hypos := slice_to (proposed_hypotheses out) m in
       let vals := slice_to (validations out) (Z.of_nat (length hypos)) in
       run_experiment nm pdfs rk m s1 s2 w
         = Returns
             {| name := nm;
                runtime := elapsed StepConstruct + chain_time
                           + elapsed StepSlice;
                hypotheses := hypos;
                exp_validations := vals;
                scores := Re.rating_of uni_alnum <$> vals;
                gaps := research_gaps out |}
             w'.
Proof.
  intros Htok.
  destruct (run_spec (experiment_pipeline nm pdfs rk w) s1 s2 (constructed nm w))
    as (out & tr & Hrun & Hlen).
  eexists out, _, _. split; [exact Hrun|]. split; [exact Hlen|].
  split; [|split]; last first.
  - unfold run_experiment. do 2 prim_step.
    erewrite bind_returns; [|apply init_spec; exact Htok].
    cbn [pdf_paths faiss_path hf_token clock environ dirs trace].
    change (resolved_token (World _ (environ w) _ _)) with (resolved_token w).
    fold (experiment_pipeline nm pdfs rk w).
    unfold constructed in Hrun.
    rewrite (bind_returns _ _ _ _ _ Hrun).
    do 2 prim_step.
    rewrite parse_feasibility_scores_spec.
    unfold lift, mbind, M_bind, mret, M_ret, advance.
    cbn [clock environ dirs trace].
    refine (f_equal2 Returns _ eq_refl). f_equal. lia.
  - cbn [clock]. lia.
  - cbn [trace]. eauto.
Qed.

(** C2 (as amended). The runtime reported by [run_experiment] is the
    wall-clock time from its entry, before the pipeline is
    constructed, to the point just after the outputs are sliced: the
    time of construction, plus the time from just before the context
    builder to just after the gap analysis (the total that [run]
    prints), plus the time of slicing.  The scores are parsed after
    the runtime has been taken: the call as a whole lasts the runtime
    plus the time of parsing. *)
Theorem run_experiment_runtime nm pdfs rk m s1 s2 w :
  truthy (resolved_token w) = true ->
  exists r w' tr,
    run_experiment nm pdfs rk m s1 s2 w = Returns r w'
    /\ runtime r = elapsed StepConstruct + chain_time + elapsed StepSlice
    /\ clock w' - clock w = runtime r + elapsed StepParse
    /\ trace w' = tr ++ [EvPrint (PrTotal chain_time)].
Proof.
  intros Htok.
  destruct (run_experiment_spec nm pdfs rk m s1 s2 w Htok)
    as (out & w2 & w' & _ & _ & [tr Htr] & Hclock & Hexp).
  eexists _, w', tr. split; [exact Hexp|]. cbn [runtime].
  split; [done|]. split; [lia|done].
Qed.

(** C8. [run_experiment] truncates the outputs of the run by
    position: the hypotheses and validations it returns are prefixes
    of those of the run, index-aligned and of equal length, and for a
    [max_hypotheses] that is a number of hypotheses (not negative) they
    are the first [max_hypotheses] of each, so at most [max_hypotheses]
    many. *)
Theorem run_experiment_slices nm pdfs rk m s1 s2 w :
  truthy (resolved_token w) = true ->
  exists r w' out w2,
    run_experiment nm pdfs rk m s1 s2 w = Returns r w'
    /\ run (experiment_pipeline nm pdfs rk w) s1 s2 (constructed nm w)
         = Returns out w2
    /\ length (exp_validations r) = length (hypotheses r)
    /\ (exists n, hypotheses r = take n (proposed_hypotheses out)
                  /\ exp_validations r = take n (validations out))
    /\ (0 <= m ->
          hypotheses r = take (Z.to_nat m) (proposed_hypotheses out)
          /\ exp_validations r = take (Z.to_nat m) (validations out)
          /\ Z.of_nat (length (hypotheses r)) <= m).
Proof.
  intros Htok.
  destruct (run_experiment_spec nm pdfs rk m s1 s2 w Htok)
    as (out & w2 & w' & Hrun & Hlen & _ & _ & Hexp).
  eexists _, w', out, w2. split; [exact Hexp|]. split; [exact Hrun|].
  cbn [hypotheses exp_validations].
  set (hypos := slice_to (proposed_hypotheses out) m).
  destruct (slice_to_prefix (proposed_hypotheses out) m) as [n Hn].
  fold hypos in Hn.
  assert (Hvals : slice_to (validations out) (Z.of_nat (length hypos))
                  = take (length hypos) (validations out)).
  { rewrite slice_to_nonneg by lia. by rewrite Nat2Z.id. }
  rewrite Hvals.
  assert (Hle : (length hypos <= length (validations out))%nat).
  { rewrite Hlen, Hn, length_take. lia. }
  split; [rewrite length_take; lia|]. split.
  - exists (length hypos). split; [|done].
    clear Hvals Hle. clearbody hypos. subst hypos. rewrite length_take.
    destruct (Nat.min_spec n (length (proposed_hypotheses out)))
      as [[? ->]|[? ->]]; [done|].
    by rewrite !take_ge by lia.
  - intros Hm. unfold hypos. rewrite slice_to_nonneg by done.
    rewrite length_take. split; [done|]. split; [|lia].
    destruct (decide (Z.to_nat m <= length (proposed_hypotheses out))%nat).
    + f_equal. lia.
    + rewrite !take_ge by lia. done.
Qed.

End Properties.

(** ** Further properties: index construction *)

Section IndexFacts.

Context {vec : Type}.
Variable chunks_of : pystr -> list pystr.
Variable embed_documents : list pystr -> list vec.

Lemma foldl_extend {A B} (f : B -> list A) (l : list B) : forall acc,
  foldl (fun acc x => acc ++ f x) acc l = acc ++ concat (f <$> l).
Proof.
  induction l as [|x l IH]; intros acc; simpl.
  - by rewrite app_nil_r.
  - by rewrite IH, app_assoc.
Qed.

Lemma load_texts_concat pdfs :
  load_texts chunks_of pdfs = concat (chunks_of <$> pdfs).
Proof. unfold load_texts. by rewrite foldl_extend. Qed.

Lemma embed_in_batches_concat texts :
  embed_in_batches embed_documents texts
  = concat (embed_documents <$> batches texts).
Proof.
  unfold embed_in_batches, batches.
  rewrite (foldl_extend
             (fun i => embed_documents (take batch_size (drop i texts)))).
  simpl. by rewrite <- list_fmap_compose.
Qed.

Lemma windows_concat {A} (T : list A) (s : nat) : forall m a,
  concat ((fun i => take s (drop i T)) <$> ((fun j => j * s)%nat <$> seq a m))
  = take (m * s) (drop (a * s) T).
Proof.
  induction m as [|m IH]; intros a; simpl; [done|].
  rewrite IH. replace (S a * s)%nat with (a * s + s)%nat by lia.
  rewrite <- (drop_drop T s (a * s)). apply take_take_drop.
Qed.

Lemma batch_count_covers n : (n <= (n + batch_size - 1) / batch_size * batch_size)%nat.
Proof.
  unfold batch_size.
  pose proof (Nat.div_mod_eq (n + 32 - 1) 32).
  pose proof (Nat.mod_upper_bound (n + 32 - 1) 32). lia.
Qed.

Lemma batch_start_inside n j :
  (j < (n + batch_size - 1) / batch_size)%nat -> (j * batch_size < n)%nat.
Proof.
  unfold batch_size.
  pose proof (Nat.div_mod_eq (n + 32 - 1) 32).
  pose proof (Nat.mod_upper_bound (n + 32 - 1) 32). lia.
Qed.

Lemma batches_concat (texts : list pystr) : concat (batches texts) = texts.
Proof.
  unfold batches, range_step. rewrite windows_concat. simpl.
  apply take_ge, batch_count_covers.
Qed.

Lemma batches_sizes (texts : list pystr) :
  Forall (fun b => (0 < length b <= batch_size)%nat) (batches texts).
Proof.
  unfold batches, range_step. apply Forall_fmap, Forall_fmap, Forall_forall.
  intros j Hj%elem_of_seq. simpl.
  rewrite length_take, length_drop.
  assert (j * batch_size < length texts)%nat by (apply batch_start_inside; lia).
  unfold batch_size in *. lia.
Qed.

(** X1. The batch loop of [_load_or_build_faiss] calls
    [embed_documents] on consecutive batches that together are exactly
    the texts, in order; no batch is empty and none has more than 32
    texts, so no text is embedded twice or left out and no call is made
    for an empty corpus. *)
Theorem embed_in_batches_partition (texts : list pystr) :
  embed_in_batches embed_documents texts
  = concat (embed_documents <$> batches texts)
  /\ concat (batches texts) = texts
  /\ Forall (fun b => (0 < length b <= 32)%nat) (batches texts)
  /\ length (batches texts) = ((length texts + 31) / 32)%nat.
Proof.
  split; [apply embed_in_batches_concat|].
  split; [apply batches_concat|].
  split; [apply batches_sizes|].
  unfold batches, range_step. rewrite !length_fmap, length_seq.
  unfold batch_size. f_equal. lia.
Qed.

Lemma embed_in_batches_length texts :
  (forall b, length (embed_documents b) = length b) ->
  length (embed_in_batches embed_documents texts) = length texts.
Proof.
  intros Hlen. rewrite embed_in_batches_concat.
  rewrite <- (batches_concat texts) at 2.
  induction (batches texts) as [|b bs IH]; [done|].
  csimpl. rewrite !length_app, Hlen, IH. done.
Qed.

Lemma embed_in_batches_pointwise (e : pystr -> vec) texts :
  (forall b, embed_documents b = e <$> b) ->
  embed_in_batches embed_documents texts = e <$> texts.
Proof.
  intros He. rewrite embed_in_batches_concat.
  rewrite <- (batches_concat texts) at 2.
  induction (batches texts) as [|b bs IH]; [done|].
  csimpl. by rewrite fmap_app, He, IH.
Qed.

(** X2. When no index is saved under the path and the embedder returns
    one vector per text, the store that is built holds the chunk texts
    of all the documents, document after document, each once and each
    with a vector, and it is saved under the path; with an embedder
    that works text by text, each text is paired with its own vector. *)
Theorem build_faiss_aligned disk path pdfs :
  disk !! path = None ->
  (forall b, length (embed_documents b) = length b) ->
  let built := _load_or_build_faiss chunks_of embed_documents disk path pdfs in
  (built.1).*1 = concat (chunks_of <$> pdfs)
  /\ built.2 !! path = Some built.1
  /\ (forall e : pystr -> vec,
        (forall b, embed_documents b = e <$> b) ->
        built.1 = (fun t => (t, e t)) <$> concat (chunks_of <$> pdfs)).
Proof.
  intros Hnew Hlen. unfold _load_or_build_faiss. rewrite Hnew. simpl.
  rewrite load_texts_concat. split; [|split].
  - apply fst_zip. rewrite embed_in_batches_length by done. done.
  - apply lookup_insert_eq.
  - intros e He. rewrite (embed_in_batches_pointwise e) by done.
    generalize (concat (chunks_of <$> pdfs)). intros l.
    induction l as [|t l IH]; [done|]. simpl. by f_equal.
Qed.

(** X3. Once an index is saved under a path, constructing again with
    that path gives back the same store and leaves the disk as it is,
    whatever documents are passed: the documents are not read again.
    Other paths keep what they held. *)
Theorem load_faiss_reuses_saved disk path pdfs pdfs' :
  let first := _load_or_build_faiss chunks_of embed_documents disk path pdfs in
  _load_or_build_faiss chunks_of embed_documents first.2 path pdfs' = first
  /\ first.2 !! path = Some first.1
  /\ (forall other, other <> path -> first.2 !! other = disk !! other).
Proof.
  unfold _load_or_build_faiss.
  destruct (disk !! path) as [store|] eqn:Hd; simpl.
  - rewrite Hd. done.
  - rewrite lookup_insert_eq. split; [done|]. split; [done|].
    intros other Hne. by apply lookup_insert_ne.
Qed.

End IndexFacts.

(** ** Further properties: lines and trimming *)

Section LineFacts.

Lemma lstrip_split s :
  exists ws, s = ws ++ lstrip s /\ Forall (fun c => isspace c = true) ws.
Proof.
  induction s as [|c s IH]; simpl.
  - by exists [].
  - destruct (isspace c) eqn:Hc.
    + destruct IH as (ws & Hs & Hws). exists (c :: ws). split.
      * simpl. by f_equal.
      * by constructor.
    + by exists [].
Qed.

Lemma lstrip_head s : isspace_opt (head (lstrip s)) = false.
Proof.
  induction s as [|c s IH]; simpl; [done|].
  destruct (isspace c) eqn:Hc; [done|]. simpl. done.
Qed.

Lemma lstrip_elem s c : c ∈ lstrip s -> c ∈ s.
Proof.
  destruct (lstrip_split s) as (ws & Hs & _). intros Hc.
  rewrite Hs. set_solver.
Qed.

Lemma elem_of_rev {A} (l : list A) x : x ∈ rev l <-> x ∈ l.
Proof. rewrite !list_elem_of_In. symmetry. apply in_rev. Qed.

Lemma strip_elem s c : c ∈ strip s -> c ∈ s.
Proof.
  unfold strip. rewrite elem_of_rev.
  intros Hc%lstrip_elem. apply lstrip_elem. by apply elem_of_rev.
Qed.

Lemma last_rev_head {A} (l : list A) : last (rev l) = head l.
Proof. destruct l as [|x l]; [done|]. simpl. apply last_snoc. Qed.

Lemma strip_ends s :
  isspace_opt (head (strip s)) = false /\ isspace_opt (last (strip s)) = false.
Proof.
  unfold strip. set (t := lstrip s). set (u := lstrip (rev t)). split.
  - destruct (lstrip_split (rev t)) as (ws & Hrev & _). fold u in Hrev.
    assert (Ht : t = rev u ++ rev ws).
    { rewrite <- rev_app_distr, <- Hrev. by rewrite rev_involutive. }
    destruct (rev u) as [|c r] eqn:Hu; [done|].
    pose proof (lstrip_head s) as Hhead. fold t in Hhead.
    rewrite Ht in Hhead. exact Hhead.
  - rewrite last_rev_head. apply lstrip_head.
Qed.

Lemma split_lines_aux_no_LF s : forall cur,
  LF ∉ cur -> Forall (fun f => LF ∉ f) (split_lines_aux cur s).
Proof.
  induction s as [|c s IH]; intros cur Hcur; simpl.
  - constructor; [|done]. by rewrite elem_of_rev.
  - destruct (N.eqb_spec c LF) as [->|Hne].
    + constructor.
      * by rewrite elem_of_rev.
      * apply IH. apply not_elem_of_nil.
    + apply IH. set_solver.
Qed.

Lemma split_lines_no_LF s : Forall (fun f => LF ∉ f) (split_lines s).
Proof. apply split_lines_aux_no_LF, not_elem_of_nil. Qed.

Lemma nonempty_stripped_trimmed text :
  Forall trimmed_line (nonempty_stripped text).
Proof.
  unfold nonempty_stripped. apply Forall_fmap, Forall_forall.
  intros h [Htruthy Hin]%list_elem_of_filter. simpl.
  pose proof (strip_ends h) as [Hhead Hlast].
  repeat split; try done.
  - by destruct (strip h).
  - intros HLF%strip_elem.
    pose proof (split_lines_no_LF text) as Hall.
    rewrite Forall_forall in Hall. by apply (Hall h).
Qed.

Lemma nonempty_stripped_length text :
  (length (nonempty_stripped text) <= length (split_lines text))%nat.
Proof.
  unfold nonempty_stripped. rewrite length_fmap. apply length_filter.
Qed.

End LineFacts.

(** ** Further properties: the pipeline *)

Section PipelineFacts.

Context `{Services}.

Ltac prim_step :=
  first [rewrite bind_time_time | rewrite bind_emit | rewrite bind_advance];
  unfold with_trace; cbn [clock environ dirs trace].

Ltac call_step Hcall :=
  rewrite (bind_returns _ _ _ _ _ Hcall); clear Hcall;
  cbn [clock environ dirs trace].

Lemma filter_none_nil {A} (P : A -> Prop) `{forall x, Decision (P x)} (l : list A) :
  Forall (fun x => ~ P x) l -> filter P l = [].
Proof.
  induction 1 as [|x l Hx _ IH]; [done|].
  by rewrite filter_cons_False.
Qed.

(** X4. [_propose] makes one generation call, for the proposer
    prompt, and every hypothesis it returns is a trimmed line of the
    generated text: not empty, without white space at either end and
    without a newline; there are at most as many as the text has
    lines. *)
Theorem propose_trimmed_lines self context w :
  exists hypos text,
    _propose self context w
      = Returns hypos
          (World (clock w + elapsed StepPropose) (environ w) (dirs w)
             (trace w ++ [EvGenerate (PROPOSER_PROMPT context)]))
    /\ text = llm_text (trace w) (PROPOSER_PROMPT context)
    /\ Forall trimmed_line hypos
    /\ (forall h, h ∈ hypos -> exists line, line ∈ split_lines text /\ h = strip line)
    /\ (length hypos <= length (split_lines text))%nat.
Proof.
  eexists _, _. split; [apply propose_spec|]. split; [reflexivity|].
  split; [apply nonempty_stripped_trimmed|].
  split; [|apply nonempty_stripped_length].
  intros h Hh. unfold nonempty_stripped in Hh.
  apply list_elem_of_fmap in Hh as (line & -> & Hline).
  apply list_elem_of_filter in Hline as [_ Hline]. eauto.
Qed.

Lemma get_context_steady self k sched w :
  steady_summarizer ->
  exists w',
    _get_context self k sched w
      = Returns
          (join [LF; LF]
             (summarizer []
                <$> (fst <$> similarity_search_with_score
                               (trace w) (faiss_path self) [] k)))
          w'.
Proof.
  intros Hsteady.
  destruct (get_context_spec self k sched w)
    as (summaries & evs & Hrun & _ & Hlen & Hith).
  eexists. rewrite Hrun. do 3 f_equal.
  apply list_eq. intros i. rewrite list_lookup_fmap.
  destruct ((fst <$> _) !! i) as [d|] eqn:Hd; simpl.
  - destruct (Hith i d Hd) as (tr & ->). f_equal. apply Hsteady.
  - apply lookup_ge_None. apply lookup_ge_None in Hd. lia.
Qed.

(** X5. With a summarizer that answers a text the same way at any
    time (decoding without sampling), the context [_get_context]
    returns is the summaries of the retrieved chunks in retrieval
    order with a blank line between each two, and so is the same for
    any two orders in which the pool completes the tasks; for two
    retrieved chunks it is the summary of the first, two newlines and
    the summary of the second. *)
Theorem get_context_order_free self k sched sched' w :
  steady_summarizer ->
  exists context w1 w2,
    _get_context self k sched w = Returns context w1
    /\ _get_context self k sched' w = Returns context w2
    /\ context
       = blank_line_separated
           (summarizer []
              <$> (fst <$> similarity_search_with_score
                             (trace w) (faiss_path self) [] k))
    /\ (forall c1 c2,
          fst <$> similarity_search_with_score (trace w) (faiss_path self) [] k
          = [c1; c2] ->
          context = summarizer [] c1 ++ LF :: LF :: summarizer [] c2).
Proof.
  intros Hsteady.
  destruct (get_context_steady self k sched w Hsteady) as [w1 H1].
  destruct (get_context_steady self k sched' w Hsteady) as [w2 H2].
  eexists _, w1, w2. split; [exact H1|]. split; [exact H2|].
  split; [apply join_blank_lines|]. by intros c1 c2 ->.
Qed.

(** X6. When the index returns no chunk, [_get_context] returns the
    empty string without raising: it issues its query and submits no
    summarization task. *)
Theorem get_context_no_chunks self k sched w :
  similarity_search_with_score (trace w) (faiss_path self) [] k = [] ->
  _get_context self k sched w
    = Returns []
        (World (clock w + elapsed StepContext) (environ w) (dirs w)
           (trace w ++ [EvQuery (faiss_path self) [] k])).
Proof.
  intros Hnone.
  destruct (get_context_spec self k sched w)
    as (summaries & evs & Hrun & Hperm & Hlen & _).
  rewrite Hnone in Hperm, Hlen. simpl in Hperm, Hlen.
  apply Permutation_nil_r in Hperm. apply nil_length_inv in Hlen.
  by subst.
Qed.

(** X7. [_validate] makes exactly one generation call per hypothesis,
    each for the validator prompt of that hypothesis and the given
    context, and does nothing else; for no hypotheses it returns the
    empty list without calling the model. *)
Theorem validate_one_call_each self hypos context sched w :
  exists vals new,
    _validate self hypos context sched w
      = Returns vals
          (World (clock w + elapsed StepValidate) (environ w) (dirs w)
             (trace w ++ new))
    /\ new ≡ₚ (fun h => EvGenerate (VALIDATOR_PROMPT h context)) <$> hypos
    /\ length vals = length hypos
    /\ (hypos = [] -> vals = [] /\ new = []).
Proof.
  destruct (validate_spec self hypos context sched w)
    as (vals & Hrun & Hlen & _).
  eexists vals, _. split; [exact Hrun|].
  split; [apply task_events_perm|]. split; [exact Hlen|].
  intros ->. split; [by apply nil_length_inv|].
  apply Permutation_nil_r.
  apply (task_events_perm
           (fun h => EvGenerate (VALIDATOR_PROMPT h context)) [] sched).
Qed.

(** Everything [run] leaves in the trace. *)
Lemma run_events self s1 s2 w :
  exists out summaries sevs text p1 p2 p3 p4,
    let context := join [LF; LF] summaries in
    let hypos := proposed_hypotheses out in
    run self s1 s2 w
      = Returns out
          (World (clock w + chain_time) (environ w) (dirs w)
             (trace w
              ++ EvQuery (faiss_path self) [] 3 :: sevs
              ++ [EvPrint p1; EvGenerate (PROPOSER_PROMPT context); EvPrint p2]
              ++ validation_events hypos context
                   (completion_order (length hypos) s2)
              ++ [EvPrint p3; EvGenerate (GAP_PROMPT context); EvPrint p4;
                  EvPrint (PrTotal chain_time)]))
    /\ sevs ≡ₚ EvSummarize
                <$> (fst <$> similarity_search_with_score
                               (trace w) (faiss_path self) [] 3)
    /\ hypos = nonempty_stripped text
    /\ length (validations out) = length hypos
    /\ _get_context self 3 s1 w
       = Returns context
           (World (clock w + elapsed StepContext) (environ w) (dirs w)
              (trace w ++ EvQuery (faiss_path self) [] 3 :: sevs))
    /\ text
       = llm_text
           (trace w ++ EvQuery (faiss_path self) [] 3 :: sevs ++ [EvPrint p1])
           (PROPOSER_PROMPT context)
    /\ research_gaps out
       = llm_text
           (trace w
            ++ EvQuery (faiss_path self) [] 3 :: sevs
            ++ [EvPrint p1; EvGenerate (PROPOSER_PROMPT context); EvPrint p2]
            ++ validation_events hypos context
                 (completion_order (length hypos) s2)
            ++ [EvPrint p3])
           (GAP_PROMPT context).
Proof.
  unfold run, call_get_context. simpl default.
  do 2 prim_step.
  destruct (get_context_spec self 3 s1 w)
    as (summaries & evs & Hctx & Hperm & _).
  pose proof Hctx as Hctx'.
  call_step Hctx.
  set (context := join [LF; LF] summaries).
  do 3 prim_step.
  rewrite (bind_returns _ _ _ _ _ (propose_spec _ _ _)).
  cbn [clock environ dirs trace].
  set (text := llm_text _ (PROPOSER_PROMPT context)).
  set (hypos := nonempty_stripped text).
  do 3 prim_step.
  match goal with
  | |- context [(_validate self hypos context s2 ≫= _) ?w1] =>
      destruct (validate_spec self hypos context s2 w1)
        as (vals & Hval & Hlen & _)
  end.
  call_step Hval.
  do 3 prim_step.
  rewrite (bind_returns _ _ _ _ _ (analyze_gaps_spec _ _ _)).
  cbn [clock environ dirs trace].
  do 4 prim_step.
  eexists _, summaries, evs, text, _, _, _, _. split; [|split; [exact Hperm|]].
  - unfold mret, M_ret. cbn [proposed_hypotheses]. fold context. f_equal.
    f_equal.
    + unfold chain_time. lia.
    + rewrite <- !app_assoc. simpl. repeat f_equal.
      unfold chain_time. lia.
  - split; [reflexivity|]. split; [exact Hlen|]. split; [exact Hctx'|].
    split.
    + unfold text. rewrite <- app_assoc. reflexivity.
    + cbn [research_gaps]. rewrite <- !app_assoc. reflexivity.
Qed.

Lemma summarize_events_kind (sevs : list event) (docs : list pystr) :
  sevs ≡ₚ EvSummarize <$> docs ->
  Forall (fun e => is_generate e = false /\ is_query e = false) sevs.
Proof.
  intros Hperm. apply Forall_forall. intros e He. rewrite Hperm in He.
  apply list_elem_of_fmap in He as (d & -> & _). done.
Qed.

Lemma validation_events_kind hypos context order :
  Forall (fun e => is_generate e = true /\ is_query e = false)
    (validation_events hypos context order).
Proof.
  unfold validation_events, task_events. apply Forall_forall. intros e He.
  apply list_elem_of_omap in He as (i & _ & He).
  destruct (hypos !! i); simplify_eq/=. done.
Qed.

(** X8. [run] works in a fixed order on one context.  It calls
    [_get_context] with [k = 3], which leaves the single index query
    followed by the summarizer tasks; then, with print-outs of the
    timings in between, comes the proposer call, then exactly one
    validator call per proposed hypothesis, then the gap-analysis call
    last.  The three kinds of prompt are all built from the string
    [_get_context] returned; the proposed hypotheses are the trimmed
    non-empty lines of the proposer's answer, the gap analysis is the
    answer to the gap prompt, and there is one validation per
    hypothesis. *)
Theorem run_stage_order self s1 s2 w :
  exists out w' context w1 sevs vevs p1 p2 p3 p4,
    run self s1 s2 w = Returns out w'
    /\ _get_context self 3 s1 w = Returns context w1
    /\ trace w1 = trace w ++ EvQuery (faiss_path self) [] 3 :: sevs
    /\ Forall (fun e => is_summarize e = true) sevs
    /\ trace w'
       = trace w1
         ++ [EvPrint p1; EvGenerate (PROPOSER_PROMPT context); EvPrint p2]
         ++ vevs
         ++ [EvPrint p3; EvGenerate (GAP_PROMPT context); EvPrint p4;
             EvPrint (PrTotal chain_time)]
    /\ vevs ≡ₚ (fun h => EvGenerate (VALIDATOR_PROMPT h context))
                <$> proposed_hypotheses out
    /\ proposed_hypotheses out
       = nonempty_stripped
           (llm_text (trace w1 ++ [EvPrint p1]) (PROPOSER_PROMPT context))
    /\ research_gaps out
       = llm_text
           (trace w1
            ++ [EvPrint p1; EvGenerate (PROPOSER_PROMPT context); EvPrint p2]
            ++ vevs ++ [EvPrint p3])
           (GAP_PROMPT context)
    /\ length (validations out) = length (proposed_hypotheses out)
    /\ Forall trimmed_line (proposed_hypotheses out).
Proof.
  destruct (run_events self s1 s2 w)
    as (out & summaries & sevs & text & p1 & p2 & p3 & p4
        & Hrun & Hperm & Hhyp & Hlen & Hctx & Htext & Hgaps).
  cbv zeta in Hrun, Hhyp, Hlen, Hctx, Htext, Hgaps.
  set (context := join [LF; LF] summaries) in *.
  set (vevs := validation_events (proposed_hypotheses out) context
                 (completion_order (length (proposed_hypotheses out)) s2)) in *.
  eexists out, _, context, _, sevs, vevs, p1, p2, p3, p4.
  split; [exact Hrun|]. split; [exact Hctx|]. cbn [trace].
  split; [reflexivity|]. split.
  { apply Forall_forall. intros e He. rewrite Hperm in He.
    by apply list_elem_of_fmap in He as (d & -> & _). }
  split; [by rewrite <- app_assoc|].
  split; [apply task_events_perm|].
  split; [rewrite Hhyp, Htext; by rewrite <- app_assoc|].
  split; [rewrite Hgaps; by rewrite <- app_assoc|].
  split; [exact Hlen|].
  rewrite Hhyp. apply nonempty_stripped_trimmed.
Qed.

Lemma run_same_index p1 p2 s1 s2 w :
  faiss_path p1 = faiss_path p2 -> run p1 s1 s2 w = run p2 s1 s2 w.
Proof.
  intros Hpath. unfold run, call_get_context, _get_context. simpl default.
  rewrite Hpath. reflexivity.
Qed.

Lemma run_experiment_after_run nm pdfs rk m s1 s2 w out w2 :
  truthy (resolved_token w) = true ->
  run (experiment_pipeline nm pdfs rk w) s1 s2 (constructed nm w)
    = Returns out w2 ->
  let hypos := slice_to (proposed_hypotheses out) m in
  let vals := slice_to (validations out) (Z.of_nat (length hypos)) in
  run_experiment nm pdfs rk m s1 s2 w
    = Returns
        {| name := nm;
           runtime := clock w2 + elapsed StepSlice - clock w;
           hypotheses := hypos;
           exp_validations := vals;
           scores := Re.rating_of uni_alnum <$> vals;
           gaps := research_gaps out |}
        (World (clock w2 + elapsed StepSlice + elapsed StepParse) (environ w2)
           (dirs w2) (trace w2)).
Proof.
  intros Htok Hrun. cbv zeta.
  unfold run_experiment. do 2 prim_step.
  erewrite bind_returns; [|apply init_spec; exact Htok].
  cbn [pdf_paths faiss_path hf_token clock environ dirs trace].
  change (resolved_token (World _ (environ w) _ _)) with (resolved_token w).
  fold (experiment_pipeline nm pdfs rk w).
  unfold constructed in Hrun.
  rewrite (bind_returns _ _ _ _ _ Hrun).
  do 2 prim_step.
  rewrite parse_feasibility_scores_spec. reflexivity.
Qed.

Lemma bind_raises {A B} (m : M A) (f : A -> M B) w e w' :
  m w = Raises e w' -> (m ≫= f) w = Raises e w'.
Proof. unfold mbind, M_bind. by intros ->. Qed.

Lemma init_blank_token pdfs path w :
  truthy (resolved_token w) = false ->
  MultiAgentPipeline_init pdfs path w
    = Raises (EnvironmentError (lit "Set HUGGINGFACEHUB_API_TOKEN")) w.
Proof.
  intros Htok. unfold MultiAgentPipeline_init, mbind, M_bind, os_getenv.
  cbv beta iota. fold (resolved_token w). by rewrite Htok.
Qed.

Lemma run_experiment_blank_token nm pdfs rk m s1 s2 w :
  truthy (resolved_token w) = false ->
  run_experiment nm pdfs rk m s1 s2 w
    = Raises (EnvironmentError (lit "Set HUGGINGFACEHUB_API_TOKEN"))
        (with_trace w (trace w ++ [EvPrint (PrExperiment nm)])).
Proof.
  intros Htok. unfold run_experiment. do 2 prim_step.
  erewrite bind_raises; [reflexivity|].
  apply init_blank_token. exact Htok.
Qed.

(** X9. The [retriever_k] argument of [run_experiment] has no effect:
    [run] passes [k = 3] explicitly to the [_get_context] that
    [run_experiment] has replaced, so any two values of [retriever_k]
    give the same outcome, result and world alike. *)
Theorem run_experiment_ignores_retriever_k nm pdfs rk rk' m s1 s2 w :
  run_experiment nm pdfs rk m s1 s2 w = run_experiment nm pdfs rk' m s1 s2 w.
Proof.
  destruct (truthy (resolved_token w)) eqn:Htok.
  - destruct (run (experiment_pipeline nm pdfs rk w) s1 s2 (constructed nm w))
      as [out w2| |] eqn:Hrun.
    + rewrite (run_experiment_after_run nm pdfs rk m s1 s2 w out w2 Htok Hrun).
      rewrite (run_same_index _ (experiment_pipeline nm pdfs rk' w)) in Hrun
        by reflexivity.
      by rewrite (run_experiment_after_run nm pdfs rk' m s1 s2 w out w2 Htok Hrun).
    + destruct (run_events (experiment_pipeline nm pdfs rk w) s1 s2
                  (constructed nm w)) as (? & ? & ? & ? & ? & ? & ? & ? & Hr & _).
      cbv zeta in Hr. congruence.
    + destruct (run_events (experiment_pipeline nm pdfs rk w) s1 s2
                  (constructed nm w)) as (? & ? & ? & ? & ? & ? & ? & ? & Hr & _).
      cbv zeta in Hr. congruence.
  - by rewrite !run_experiment_blank_token.
Qed.

Lemma run_queries self s1 s2 w :
  exists out new,
    run self s1 s2 w
      = Returns out
          (World (clock w + chain_time) (environ w) (dirs w) (trace w ++ new))
    /\ filter (fun e => is_query e = true) new
       = [EvQuery (faiss_path self) [] 3]
    /\ (exists text, proposed_hypotheses out = nonempty_stripped text).
Proof.
  destruct (run_events self s1 s2 w)
    as (out & summaries & sevs & text & p1 & p2 & p3 & p4
        & Hrun & Hperm & Hhyp & Hlen).
  cbv zeta in Hrun.
  pose proof (summarize_events_kind _ _ Hperm) as Hs.
  pose proof (validation_events_kind (proposed_hypotheses out)
                (join [LF; LF] summaries)
                (completion_order (length (proposed_hypotheses out)) s2)) as Hv.
  eexists out, _. split; [exact Hrun|]. split; [|eauto].
  rewrite filter_cons_True by done. f_equal.
  rewrite !filter_app.
  rewrite (filter_none_nil _ sevs), (filter_none_nil _ (validation_events _ _ _));
    [done|..].
  - eapply Forall_impl; [exact Hv|]. intros e [_ He]. simpl. congruence.
  - eapply Forall_impl; [exact Hs|]. intros e [_ He]. simpl. congruence.
Qed.

(** X10. An experiment works in the namespace of its name: when the
    token is usable [run_experiment] returns, the directory
    faiss_<name> exists afterwards, the environment is unchanged, and
    of all it adds to the trace, which starts with its banner, the only
    index query is one to the index faiss_<name>, with the empty query
    and [k = 3]. *)
Theorem run_experiment_namespace nm pdfs rk m s1 s2 w :
  truthy (resolved_token w) = true ->
  exists r w' new,
    run_experiment nm pdfs rk m s1 s2 w = Returns r w'
    /\ trace w' = trace w ++ EvPrint (PrExperiment nm) :: new
    /\ filter (fun e => is_query e = true) new
       = [EvQuery (lit "faiss_" ++ nm) [] 3]
    /\ dirs w' = {[lit "faiss_" ++ nm]} ∪ dirs w
    /\ environ w' = environ w.
Proof.
  intros Htok.
  destruct (run_queries (experiment_pipeline nm pdfs rk w) s1 s2
              (constructed nm w)) as (out & new & Hrun & Hq & _).
  eexists _, _, new.
  split; [exact (run_experiment_after_run nm pdfs rk m s1 s2 w _ _ Htok Hrun)|].
  cbn [clock environ dirs trace constructed].
  split; [by rewrite <- app_assoc|]. by split.
Qed.

(** X11. The guard of [MultiAgentPipeline.__init__] fires for a token
    variable set to the empty string: construction raises
    [EnvironmentError] before anything is built, and [run_experiment]
    then raises it after printing its banner and nothing else.  A
    non-empty token from the environment is the one the pipeline
    uses. *)
Theorem pipeline_token_from_environment pdfs path w :
  (environ w !! TOKEN_VAR = Some [] ->
     MultiAgentPipeline_init pdfs path w
       = Raises (EnvironmentError (lit "Set HUGGINGFACEHUB_API_TOKEN")) w
     /\ forall nm rk m s1 s2,
          run_experiment nm pdfs rk m s1 s2 w
            = Raises (EnvironmentError (lit "Set HUGGINGFACEHUB_API_TOKEN"))
                (with_trace w (trace w ++ [EvPrint (PrExperiment nm)])))
  /\ (forall tok, tok <> [] -> environ w !! TOKEN_VAR = Some tok ->
        exists pipe w',
          MultiAgentPipeline_init pdfs path w = Returns pipe w'
          /\ hf_token pipe = tok /\ faiss_path pipe = path
          /\ path ∈ dirs w').
Proof.
  split.
  - intros Henv. split.
    + apply init_blank_token. unfold resolved_token, pystr in *.
      by rewrite Henv.
    + intros. apply run_experiment_blank_token.
      unfold resolved_token, pystr in *. by rewrite Henv.
  - intros tok Htok Henv.
    assert (Hres : resolved_token w = tok).
    { unfold resolved_token, pystr in *. by rewrite Henv. }
    eexists _, _. split.
    + apply init_spec. rewrite Hres. by destruct tok.
    + cbn. rewrite Hres. repeat split. set_solver.
Qed.

Lemma rating_of_range text v :
  Re.rating_of uni_alnum text = Some v -> 1 <= v <= 10.
Proof.
  unfold Re.rating_of. intros Hv.
  assert (Hhas : Re.has_standalone uni_alnum text v).
  { destruct (Re.first_marker uni_alnum text) as [v'|] eqn:Hm.
    - injection Hv as <-. by apply first_marker_some.
    - by apply first_standalone_some. }
  by destruct Hhas as (_ & _ & _ & Hrange & _).
Qed.

(** X12. The result of [run_experiment] is index-aligned throughout:
    it has one validation and one score per returned hypothesis, score
    [i] is the rating parsed from validation [i], every score present
    lies between 1 and 10, and every returned hypothesis is a trimmed,
    non-empty line. *)
Theorem run_experiment_aligned nm pdfs rk m s1 s2 w :
  truthy (resolved_token w) = true ->
  exists r w',
    run_experiment nm pdfs rk m s1 s2 w = Returns r w'
    /\ length (exp_validations r) = length (hypotheses r)
    /\ length (scores r) = length (hypotheses r)
    /\ (forall i, scores r !! i
                  = Re.rating_of uni_alnum <$> exp_validations r !! i)
    /\ (forall v, Some v ∈ scores r -> 1 <= v <= 10)
    /\ Forall trimmed_line (hypotheses r)
    /\ name r = nm.
Proof.
  intros Htok.
  destruct (run_events (experiment_pipeline nm pdfs rk w) s1 s2
              (constructed nm w))
    as (out & summaries & sevs & text & p1 & p2 & p3 & p4
        & Hrun & _ & Hhyp & Hlen & _).
  cbv zeta in Hrun, Hhyp, Hlen.
  eexists _, _.
  split; [exact (run_experiment_after_run nm pdfs rk m s1 s2 w _ _ Htok Hrun)|].
  cbn [hypotheses exp_validations scores name].
  set (hypos := slice_to (proposed_hypotheses out) m).
  destruct (slice_to_prefix (proposed_hypotheses out) m) as [n Hn].
  fold hypos in Hn.
  assert (Hvals : length (slice_to (validations out) (Z.of_nat (length hypos)))
                  = length hypos).
  { rewrite slice_to_nonneg by lia. rewrite Nat2Z.id, length_take.
    rewrite Hlen, Hn, length_take. lia. }
  split; [exact Hvals|]. split; [by rewrite length_fmap|].
  split; [intros i; apply list_lookup_fmap|].
  split; [|split; [|done]].
  - intros v Hv. apply list_elem_of_fmap in Hv as (t & Ht & _).
    by apply (rating_of_range t).
  - rewrite Hn, Hhyp. apply Forall_take, nonempty_stripped_trimmed.
Qed.

End PipelineFacts.

(** ** Further properties: the evaluator *)

Section EvaluatorFacts.

Context `{Services}.

Lemma truthy_nonempty (t : pystr) : t <> [] -> truthy t = true.
Proof. by destruct t. Qed.

Lemma evaluator_init_explicit path t token_env w :
  t <> [] ->
  MultiAgentEvaluator_init (Some path) (Some t) token_env w
    = if bool_decide (path ∈ dirs w)
      then Returns {| ev_faiss_path := path; ev_token := t |} w
      else Raises (FileNotFoundError
                     (lit "FAISS index directory '" ++ path
                      ++ lit "' not found.")) w.
Proof.
  intros Ht. unfold MultiAgentEvaluator_init. cbn [default from_option id].
  rewrite (truthy_nonempty t Ht).
  unfold mbind, M_bind, mret, M_ret, os_path_isdir. cbv beta iota.
  rewrite (truthy_nonempty t Ht). cbn [negb].
  by destruct (bool_decide (path ∈ dirs w)).
Qed.

Lemma evaluator_init_from_env path tenv w :
  MultiAgentEvaluator_init (Some path) (Some []) (Some tenv) w
    = let tok := default [] (environ w !! tenv) in
      if truthy tok then
        if bool_decide (path ∈ dirs w)
        then Returns {| ev_faiss_path := path; ev_token := tok |} w
        else Raises (FileNotFoundError
                       (lit "FAISS index directory '" ++ path
                        ++ lit "' not found.")) w
      else Raises (EnvironmentError
                     (lit "Set $" ++ tenv
                      ++ lit " or pass hf_token directly to load embeddings"))
             w.
Proof.
  unfold MultiAgentEvaluator_init. cbn [default from_option id truthy].
  unfold mbind, M_bind, mret, M_ret, os_path_isdir, os_getenv.
  cbv beta iota zeta. unfold raise, pystr.
  match goal with |- context [truthy ?t] => destruct (truthy t) end;
    cbn [negb]; cbv beta iota; [|reflexivity].
  match goal with |- context [bool_decide ?P] => destruct (bool_decide P) end;
    reflexivity.
Qed.

(** X13. [MultiAgentEvaluator.__init__] reads the world and never
    changes it.  A non-empty [hf_token] argument is used whatever the
    environment holds; with an empty one the token comes from the
    variable named by [hf_token_env].  A missing credential is
    reported, as [EnvironmentError], before the index directory is
    looked at; with a credential, a missing directory raises
    [FileNotFoundError]. *)
Theorem evaluator_construction path tenv w :
  (forall t, t <> [] -> path ∈ dirs w ->
     MultiAgentEvaluator_init (Some path) (Some t) (Some tenv) w
       = Returns {| ev_faiss_path := path; ev_token := t |} w)
  /\ (forall t, t <> [] -> path ∉ dirs w ->
        exists msg,
          MultiAgentEvaluator_init (Some path) (Some t) (Some tenv) w
            = Raises (FileNotFoundError msg) w)
  /\ (forall v, v <> [] -> environ w !! tenv = Some v -> path ∈ dirs w ->
        MultiAgentEvaluator_init (Some path) (Some []) (Some tenv) w
          = Returns {| ev_faiss_path := path; ev_token := v |} w)
  /\ (environ w !! tenv = None \/ environ w !! tenv = Some [] ->
        exists msg,
          MultiAgentEvaluator_init (Some path) (Some []) (Some tenv) w
            = Raises (EnvironmentError msg) w).
Proof.
  split; [|split; [|split]].
  - intros t Ht Hdir. rewrite evaluator_init_explicit by done.
    by rewrite bool_decide_eq_true_2.
  - intros t Ht Hdir. rewrite evaluator_init_explicit by done.
    rewrite bool_decide_eq_false_2 by done. eauto.
  - intros v Hv Henv Hdir. rewrite evaluator_init_from_env. cbv zeta.
    unfold pystr in *. rewrite Henv. cbn [default from_option id].
    rewrite (truthy_nonempty v Hv). by rewrite bool_decide_eq_true_2.
  - intros Henv. rewrite evaluator_init_from_env. cbv zeta.
    unfold pystr in *. destruct Henv as [-> | ->]; cbn; eauto.
Qed.

(** X14. An evaluator can always be built on the index of a pipeline
    that was constructed: after [MultiAgentPipeline(...)] returns,
    [MultiAgentEvaluator(faiss_path=pipe.faiss_path)] returns too,
    bound to the same index, and never raises [FileNotFoundError]. *)
Theorem evaluator_after_pipeline pdfs path w pipe w1 :
  MultiAgentPipeline_init pdfs path w = Returns pipe w1 ->
  MultiAgentEvaluator_init (Some (faiss_path pipe)) None None w1
    = Returns {| ev_faiss_path := path; ev_token := EMBEDDED_TOKEN |} w1.
Proof.
  intros Hinit.
  destruct (truthy (resolved_token w)) eqn:Htok.
  - rewrite (init_spec pdfs path w Htok) in Hinit.
    injection Hinit as <- <-. cbn [faiss_path].
    unfold MultiAgentEvaluator_init. cbn [default from_option id].
    change (truthy EMBEDDED_TOKEN) with true. cbv iota.
    unfold mbind, M_bind, mret, M_ret, os_path_isdir. cbv beta iota.
    change (truthy EMBEDDED_TOKEN) with true. cbn [negb dirs].
    rewrite bool_decide_eq_true_2 by set_solver. reflexivity.
  - unfold MultiAgentPipeline_init, mbind, M_bind, os_getenv in Hinit.
    cbv beta iota in Hinit. fold (resolved_token w) in Hinit.
    by rewrite Htok in Hinit.
Qed.

(** X15. [evaluate_hypotheses] issues one index query per element of
    its input, in input order and with the hypothesis text as the
    query, a repeated text being queried again; it changes nothing
    else, and for no hypotheses it returns the empty mapping without
    querying. *)
Theorem evaluate_hypotheses_queries self hypos k thr w :
  exists results,
    evaluate_hypotheses self hypos k thr w
      = Returns results
          (World (clock w) (environ w) (dirs w)
             (trace w
              ++ ((fun h => EvQuery (ev_faiss_path self) h k) <$> hypos)))
    /\ (hypos = [] -> results = ∅).
Proof.
  destruct (evaluate_loop_spec self k thr hypos ∅ w)
    as (results & Hrun & Hother & _).
  exists results. split; [exact Hrun|].
  intros ->. apply map_eq. intros h. apply Hother, not_elem_of_nil.
Qed.




(** X17. [evaluate_gap_analysis] is [evaluate_hypotheses] on the
    single text: it issues the same query, leaves the same world, and
    returns the average similarity that [evaluate_hypotheses] stores
    for that text, whatever the two thresholds are. *)
Theorem gap_analysis_as_single_hypothesis self text k grounding thr w :
  exists avg results w',
    evaluate_gap_analysis self text k grounding w = Returns avg w'
    /\ evaluate_hypotheses self [text] k thr w = Returns results w'
    /\ avg_similarity <$> results !! text = Some avg.
Proof.
  eexists _, _, _. split; [reflexivity|]. split; [reflexivity|].
  by rewrite lookup_insert_eq.
Qed.

(** X18. With an index that answers a query the same way at any time,
    the mapping [evaluate_hypotheses] returns depends only on which
    texts occur in its input: it holds, for each text that occurs, the
    record of that text, and calling it again, in any world, with the
    hypotheses reordered or repeated, returns the same mapping. *)
Theorem evaluate_hypotheses_steady self hypos hypos' k thr w w' :
  steady_index ->
  (forall h, h ∈ hypos <-> h ∈ hypos') ->
  exists results w1 w2,
    evaluate_hypotheses self hypos k thr w = Returns results w1
    /\ evaluate_hypotheses self hypos' k thr w' = Returns results w2
    /\ (forall h,
          results !! h
          = if decide (h ∈ hypos) then Some (record_of self [] h k thr)
            else None).
Proof.
  intros Hsteady Hsame.
  assert (Hmap : forall l v,
    exists results,
      evaluate_hypotheses self l k thr v
        = Returns results (with_trace v (trace v ++ query_events self l k))
      /\ forall h, results !! h
                   = if decide (h ∈ l) then Some (record_of self [] h k thr)
                     else None).
  { intros l v.
    destruct (evaluate_loop_spec self k thr l ∅ v)
      as (results & Hrun & Hother & Hlast & _).
    exists results. split; [exact Hrun|]. intros h.
    destruct (decide (h ∈ l)) as [Hin|Hnin].
    - apply list_elem_of_split_r in Hin as (pre & post & -> & Hpost).
      rewrite (Hlast pre h post eq_refl Hpost). f_equal.
      unfold record_of, scores_after. f_equal. f_equal. apply Hsteady.
    - by rewrite Hother. }
  destruct (Hmap hypos w) as (r1 & Hrun1 & Hr1).
  destruct (Hmap hypos' w') as (r2 & Hrun2 & Hr2).
  assert (r2 = r1) as ->.
  { apply map_eq. intros h. rewrite Hr1, Hr2.
    destruct (decide (h ∈ hypos)), (decide (h ∈ hypos')); try done;
      exfalso; naive_solver. }
  eexists r1, _, _. split; [exact Hrun1|]. split; [exact Hrun2|exact Hr1].
Qed.

End EvaluatorFacts.

(** ** Further properties: the score summary *)

Section SummaryFacts.

Context `{Services}.

Lemma elem_of_clean_scores scores x :
  x ∈ clean_scores scores <-> Some x ∈ scores.
Proof.
  unfold clean_scores. rewrite list_elem_of_omap. split.
  - intros (y & Hy & Heq). simpl in Heq. by subst.
  - intros Hx. by exists (Some x).
Qed.

(** The mean of integers between [lo] and [hi] is a finite number
    between [lo] and [hi]. *)
Lemma statistics_mean_between (data : list Z) (mean : pynum) (lo hi : Z) :
  data <> [] -> Forall moderate data -> statistics_mean data = Ok mean ->
  (forall x, x ∈ data -> lo <= x <= hi) ->
  exists v, number_value mean = Some v
            /\ (inject_Z lo <= v)%Q /\ (v <= inject_Z hi)%Q.
Proof.
  intros Hne Hmod Hmean Hall.
  destruct (statistics_mean_spec data Hne Hmod) as (mean' & Hmean' & Hcase).
  rewrite Hmean in Hmean'. injection Hmean' as <-.
  destruct (arithmetic_mean_between data lo hi Hne Hall) as [Hlo Hhi].
  destruct Hcase as [(z & -> & Hz)|(r & -> & _ & Hbd & _)].
  - exists (inject_Z z). split; [done|]. rewrite Hz. by split.
  - exists (this r). split; [done|]. by apply Hbd.
Qed.

Lemma sample_variance_const (c : Z) (data : list Z) :
  (2 <= length data)%nat -> (forall x, x ∈ data -> x = c) ->
  (sample_variance (inject_Z <$> data) == 0)%Q.
Proof.
  intros Hlen Hall. destruct (sample_variance_gap data Hlen) as [-> _].
  assert (Hg : sq_gap data = 0).
  { unfold sq_gap. rewrite (Z_sum_const c data Hall).
    rewrite (Z_sum_const (c * c) ((fun n => n * n) <$> data)).
    - rewrite length_fmap. lia.
    - intros x Hx. apply list_elem_of_fmap in Hx as (y & -> & Hy).
      by rewrite (Hall y Hy). }
  rewrite Hg. set (n := Z.of_nat (length data)).
  assert (0 < inject_Z (n * (n - 1)))%Q by (apply inject_Z_pos; unfold n; nia).
  change (inject_Z 0) with 0%Q. field. lra.
Qed.

(** X19. For present scores of at most 50 bits that are not all absent,
    the mean reported by [summarize_scores] is a finite number between
    the reported minimum and maximum, the standard deviation is a
    finite double that is not negative, and when minimum and maximum
    coincide the mean is that score, as an [int], and the deviation is
    zero. *)
Theorem summarize_scores_bounds scores :
  clean_scores scores <> [] -> Forall moderate (clean_scores scores) ->
  exists mn mx mean (std : Qc) (v : Q),
    summarize_scores scores
      = Ok {| s_min := Some mn; s_max := Some mx; s_mean := Some mean;
              s_std := Some (Finite std) |}
    /\ mn <= mx
    /\ number_value mean = Some v
    /\ (inject_Z mn <= v)%Q /\ (v <= inject_Z mx)%Q
    /\ (0 <= std)%Q
    /\ (mn = mx -> mean = PyInt mn /\ std = Q2Qc 0).
Proof.
  intros Hne Hmod. destruct (clean_scores scores) as [|x l] eqn:Hc; [done|].
  clear Hne.
  destruct (summarize_scores_moderate scores x l Hc Hmod)
    as (mean & std & Hrun & Hmean & Hstd0 & Hstd).
  destruct (foldl_min_spec l x) as [Hmin Hle].
  destruct (foldl_max_spec l x) as [Hmax Hge].
  set (mn := foldl Z.min x l) in *. set (mx := foldl Z.max x l) in *.
  destruct (statistics_mean_between (x :: l) mean mn mx ltac:(done) Hmod Hmean)
    as (v & Hv & Hlo & Hhi).
  { intros z Hz. split; [by apply Hle|by apply Hge]. }
  assert (Hstd' : (0 <= std)%Q
                  /\ ((forall z, z ∈ x :: l -> z = mn) -> std = Q2Qc 0)).
  { destruct l as [|y l].
    - rewrite (Hstd0 eq_refl). by split.
    - destruct (statistics_stdev_spec (x :: y :: l) ltac:(simpl; lia) Hmod)
        as (std' & Hs & Hnn & Hzero & _).
      rewrite (Hstd ltac:(done)) in Hs. injection Hs as <-.
      split; [exact Hnn|]. intros Hall. apply Hzero.
      apply (sample_variance_const mn); [simpl; lia|exact Hall]. }
  destruct Hstd' as [Hnn Hzero].
  exists mn, mx, mean, std, v. split; [exact Hrun|].
  split; [by apply Hle|]. split; [exact Hv|]. split; [exact Hlo|].
  split; [exact Hhi|]. split; [exact Hnn|].
  intros Heq.
  assert (Hall : forall z, z ∈ x :: l -> z = mn).
  { intros z Hz. specialize (Hle z Hz). specialize (Hge z Hz). lia. }
  split; [|by apply Hzero].
  rewrite (statistics_mean_integral (x :: l) mn) in Hmean; [|done|].
  - by injection Hmean as <-.
  - by apply Z_sum_const.
Qed.

Lemma statistics_mean_perm (l l' : list Z) :
  l ≡ₚ l' -> statistics_mean l = statistics_mean l'.
Proof.
  intros Hp. unfold statistics_mean.
  by rewrite (Z_sum_perm _ _ Hp), (Permutation_length Hp).
Qed.

Lemma statistics_stdev_perm (l l' : list Z) :
  l ≡ₚ l' -> statistics_stdev l = statistics_stdev l'.
Proof.
  intros Hp. unfold statistics_stdev, _ss.
  rewrite (Z_sum_perm _ _ Hp), (Permutation_length Hp).
  by rewrite (Z_sum_perm _ _ (fmap_Permutation (fun n => n * n) _ _ Hp)).
Qed.

Lemma foldl_min_perm x l x' l' :
  x :: l ≡ₚ x' :: l' -> foldl Z.min x l = foldl Z.min x' l'.
Proof.
  intros Hp.
  destruct (foldl_min_spec l x) as [Hin Hle].
  destruct (foldl_min_spec l' x') as [Hin' Hle'].
  apply Z.le_antisymm.
  - apply Hle. by rewrite Hp.
  - apply Hle'. by rewrite <- Hp.
Qed.

Lemma foldl_max_perm x l x' l' :
  x :: l ≡ₚ x' :: l' -> foldl Z.max x l = foldl Z.max x' l'.
Proof.
  intros Hp.
  destruct (foldl_max_spec l x) as [Hin Hge].
  destruct (foldl_max_spec l' x') as [Hin' Hge'].
  apply Z.le_antisymm.
  - apply Hge'. by rewrite <- Hp.
  - apply Hge. by rewrite Hp.
Qed.

(** X20. [summarize_scores] depends only on which scores are present
    and how often: two score lists whose present scores are a
    rearrangement of each other, wherever the absent ones stand and
    however many there are, get the same summary. *)
Theorem summarize_scores_order_free scores scores' :
  clean_scores scores ≡ₚ clean_scores scores' ->
  summarize_scores scores = summarize_scores scores'.
Proof.
  intros Hp.
  destruct (clean_scores scores) as [|x l] eqn:Hc,
           (clean_scores scores') as [|x' l'] eqn:Hc'.
  - unfold summarize_scores. by rewrite Hc, Hc'.
  - by apply Permutation_nil_cons in Hp.
  - symmetry in Hp. by apply Permutation_nil_cons in Hp.
  - rewrite (summarize_scores_nonempty scores x l Hc).
    rewrite (summarize_scores_nonempty scores' x' l' Hc').
    rewrite (foldl_min_perm _ _ _ _ Hp), (foldl_max_perm _ _ _ _ Hp).
    rewrite (statistics_mean_perm _ _ Hp), (statistics_stdev_perm _ _ Hp).
    pose proof (Permutation_length Hp) as Hlen.
    simpl in Hlen. by destruct l, l'.
Qed.

Lemma run_experiment_scores nm pdfs rk m s1 s2 w :
  truthy (resolved_token w) = true ->
  exists r w' vals,
    run_experiment nm pdfs rk m s1 s2 w = Returns r w'
    /\ scores r = Re.rating_of uni_alnum <$> vals.
Proof.
  intros Htok.
  destruct (run_events (experiment_pipeline nm pdfs rk w) s1 s2
              (constructed nm w))
    as (out & summaries & sevs & text & p1 & p2 & p3 & p4 & Hrun & _).
  cbv zeta in Hrun.
  eexists _, _, _.
  split; [exact (run_experiment_after_run nm pdfs rk m s1 s2 w _ _ Htok Hrun)|].
  reflexivity.
Qed.

(** X21. Summarising the scores of an experiment, as the experiment
    script does, never raises: [summarize_scores] applied to the
    scores of a [run_experiment] result returns, its minimum, maximum
    and mean lie on the rating scale from 1 to 10, and the summary is
    empty exactly when no validation yielded a score. *)
Theorem experiment_summary_in_scale nm pdfs rk m s1 s2 w :
  truthy (resolved_token w) = true ->
  exists r w' s,
    run_experiment nm pdfs rk m s1 s2 w = Returns r w'
    /\ summarize_scores (scores r) = Ok s
    /\ (forall mn mx mean,
          s_min s = Some mn -> s_max s = Some mx -> s_mean s = Some mean ->
          1 <= mn /\ mx <= 10
          /\ exists v, number_value mean = Some v
                       /\ (inject_Z 1 <= v)%Q /\ (v <= inject_Z 10)%Q)
    /\ (s_mean s = None <-> forall v, Some v ∉ scores r).
Proof.
  intros Htok.
  destruct (run_experiment_scores nm pdfs rk m s1 s2 w Htok)
    as (r & w' & vals & Hrun & Hscores).
  assert (Hrange : forall v, v ∈ clean_scores (scores r) -> 1 <= v <= 10).
  { intros v Hv. apply elem_of_clean_scores in Hv. rewrite Hscores in Hv.
    apply list_elem_of_fmap in Hv as (t & Ht & _).
    by apply (rating_of_range t). }
  assert (Hmod : Forall moderate (clean_scores (scores r))).
  { apply Forall_forall. intros v Hv. specialize (Hrange v Hv).
    unfold moderate. change (2 ^ 50) with 1125899906842624. lia. }
  exists r, w'.
  destruct (clean_scores (scores r)) as [|x l] eqn:Hc.
  - eexists. split; [exact Hrun|].
    split; [unfold summarize_scores; by rewrite Hc|].
    split; [done|]. split; [|done].
    intros _ v Hv. apply elem_of_clean_scores in Hv. rewrite Hc in Hv.
    by apply not_elem_of_nil in Hv.
  - destruct (summarize_scores_moderate (scores r) x l Hc Hmod)
      as (mean & std & Hsum & Hmean & _).
    eexists. split; [exact Hrun|]. split; [exact Hsum|].
    cbn [s_min s_max s_mean].
    destruct (foldl_min_spec l x) as [Hmin _].
    destruct (foldl_max_spec l x) as [Hmax _].
    split.
    + intros mn mx mean' Hmn Hmx Hmean'.
      injection Hmn as <-. injection Hmx as <-. injection Hmean' as <-.
      split; [by apply Hrange|]. split; [by apply Hrange|].
      apply (statistics_mean_between (x :: l)); done.
    + split; [done|]. intros Hnone. exfalso. apply (Hnone x).
      apply elem_of_clean_scores. rewrite Hc. set_solver.
Qed.

End SummaryFacts.

(** ** The properties at work in the concrete world *)

Module Witness.

Import Demo.

(** C2: in the concrete world construction takes 50 ticks and the
    chain from context builder to gap analysis 16, and the reported
    runtime is 67, not 16. *)
Lemma run_experiment_runtime_counts_construction :
  exists r w',
    @run_experiment demo_services (lit "e") [lit "a.pdf"] 3 2 [] [] w0
      = Returns r w'
    /\ runtime r = 67
    /\ @chain_time demo_services = 16
    /\ runtime r <> @chain_time demo_services.
Proof.
  destruct (@run_experiment demo_services (lit "e") [lit "a.pdf"] 3 2 [] [] w0)
    as [r w'| |] eqn:E; vm_compute in E; try discriminate.
  exists r, w'. split; [reflexivity|]. injection E as <- _.
  split; [reflexivity|]. split; [reflexivity|]. vm_compute. discriminate.
Qed.

Lemma run_experiment_runtime_witness :
  truthy (resolved_token w0) = true
  /\ exists r w' tr,
       @run_experiment demo_services (lit "e") [lit "a.pdf"] 3 2 [] [] w0
         = Returns r w'
       /\ runtime r = 50 + 16 + 1
       /\ clock w' - clock w0 = runtime r + 5
       /\ trace w' = tr ++ [EvPrint (PrTotal 16)].
Proof.
  split; [reflexivity|].
  apply (@run_experiment_runtime demo_services (lit "e") [lit "a.pdf"] 3 2
           [] [] w0).
  reflexivity.
Defined.

(** A negative [max_hypotheses] is a slice bound counted from the
    end of the list: with -1 and three proposed hypotheses the result
    keeps the first two. *)
Example run_experiment_negative_max_hypotheses :
  exists r w',
    @run_experiment demo_services (lit "e") [lit "a.pdf"] 3 (-1) [] [] w0
      = Returns r w'
    /\ hypotheses r = [lit "H1"; lit "H2"]
    /\ ~ (Z.of_nat (length (hypotheses r)) <= -1).
Proof.
  destruct (@run_experiment demo_services (lit "e") [lit "a.pdf"] 3 (-1)
              [] [] w0)
    as [r w'| |] eqn:E; vm_compute in E; try discriminate.
  exists r, w'. split; [reflexivity|]. injection E as <- _.
  split; [reflexivity|]. simpl. lia.
Qed.

Lemma run_experiment_slices_witness :
  truthy (resolved_token w0) = true
  /\ exists r w' out w2,
       @run_experiment demo_services (lit "e") [lit "a.pdf"] 3 2 [] [] w0
         = Returns r w'
       /\ @run demo_services
            (@experiment_pipeline (lit "e") [lit "a.pdf"] 3 w0) [] []
            (@constructed demo_services (lit "e") w0)
          = Returns out w2
       /\ length (exp_validations r) = length (hypotheses r)
       /\ Z.of_nat (length (hypotheses r)) <= 2.
Proof.
  split; [reflexivity|].
  destruct (@run_experiment_slices demo_services (lit "e") [lit "a.pdf"] 3 2
              [] [] w0)
    as (r & w' & out & w2 & Hexp & Hrun & Hlen & _ & Hm); [reflexivity|].
  exists r, w', out, w2.
  split; [exact Hexp|]. split; [exact Hrun|]. split; [exact Hlen|].
  apply Hm. lia.
Defined.

Lemma validate_index_aligned_witness :
  (forall tr tr' p,
     @llm_text steady_services tr p = @llm_text steady_services tr' p)
  /\ exists vals w',
       @_validate steady_services some_pipeline [lit "H1"; lit "H2"]
         (lit "ctx") [1; 0]%nat w0 = Returns vals w'
       /\ length vals = 2%nat
       /\ vals = (fun h => @llm_text steady_services []
                             (VALIDATOR_PROMPT h (lit "ctx")))
                 <$> [lit "H1"; lit "H2"].
Proof.
  split; [intros; reflexivity|].
  destruct (@validate_index_aligned steady_services some_pipeline
              [lit "H1"; lit "H2"] (lit "ctx") [1; 0]%nat w0)
    as (vals & w' & Hrun & Hlen & _ & Hsteady).
  exists vals, w'. split; [exact Hrun|]. split; [exact Hlen|].
  apply Hsteady. intros; reflexivity.
Defined.

Lemma construction_without_credential_witness :
  environ w0 !! TOKEN_VAR = None
  /\ exists pipe w',
       @MultiAgentPipeline_init demo_services [] (lit "faiss_index") w0
         = Returns pipe w'
       /\ hf_token pipe = EMBEDDED_TOKEN.
Proof.
  split; [vm_compute; reflexivity|].
  apply (@construction_without_credential demo_services [] (lit "faiss_index") w0).
  vm_compute; reflexivity.
Defined.




(** Beyond 50 bits the conversion of the mean to a double can
    overflow: the mean of [10^400] and 1 is not an integer and is too
    large for a double. *)
Example summarize_scores_overflow :
  summarize_scores [Some (10 ^ 400); Some 1] = Raise OverflowError.
Proof. vm_compute. reflexivity. Qed.



Lemma get_context_one_query_witness :
  (forall tr index q,
     (length (@similarity_search_with_score demo_services tr index q 2)
      <= Z.to_nat 2)%nat)
  /\ exists context w' new,
       @_get_context demo_services some_pipeline 2 [1; 0]%nat w0
         = Returns context w'
       /\ context = lit "alpha" ++ [LF; LF] ++ lit "gamma"
       /\ trace w' = trace w0 ++ new
       /\ (length (filter (fun e => is_summarize e = true) new)
           <= Z.to_nat 2)%nat.
Proof.
  assert (Hk : forall tr index q,
            (length (@similarity_search_with_score demo_services tr index q 2)
             <= Z.to_nat 2)%nat).
  { intros. simpl. lia. }
  split; [exact Hk|].
  destruct (@get_context_one_query demo_services some_pipeline 2 [1; 0]%nat w0)
    as (context & summaries & w' & new & Hrun & _ & _ & _ & _ & _ & _
        & Htr & _ & _ & _ & _ & _ & Hbound).
  exists context, w', new. split; [exact Hrun|]. split.
  - vm_compute in Hrun. injection Hrun as <- _. reflexivity.
  - split; [exact Htr|]. apply Hbound. exact Hk.
Defined.

Lemma evaluate_hypotheses_last_wins_witness :
  [lit "a"; lit "b"; lit "a"] = [lit "a"; lit "b"] ++ lit "a" :: []
  /\ (lit "a" ∉ @nil pystr)
  /\ exists results w',
       @evaluate_hypotheses demo_services some_evaluator
         [lit "a"; lit "b"; lit "a"] 2 half w0 = Returns results w'
       /\ results !! lit "a"
          = Some (@evaluation_record
                    (@scores_after demo_services some_evaluator w0
                       [lit "a"; lit "b"] (lit "a") 2) half).
Proof.
  assert (Hnil : lit "a" ∉ (@nil pystr)) by apply not_elem_of_nil.
  split; [reflexivity|]. split; [exact Hnil|].
  destruct (@evaluate_hypotheses_last_wins demo_services some_evaluator
              [lit "a"; lit "b"; lit "a"] 2 half w0)
    as (results & w' & Hrun & _ & _ & Hlast & _).
  exists results, w'. split; [exact Hrun|].
  apply (Hlast [lit "a"; lit "b"] (lit "a") []); [reflexivity|exact Hnil].
Defined.

Lemma evaluate_gap_analysis_threshold_free_witness :
  let scores :=
    snd <$> @similarity_search_with_score demo_services (trace w0)
              (ev_faiss_path some_evaluator) (lit "gap") 3 in
  scores = [dyadic 1 2; dyadic 1 4; dyadic 3 4]
  /\ exists avg w',
       @evaluate_gap_analysis demo_services some_evaluator (lit "gap") 3
         half w0 = Returns avg w'
       /\ avg = np_mean scores
       /\ avg = dyadic 1 2.
Proof.
  intros scores.
  assert (Hs : scores = [dyadic 1 2; dyadic 1 4; dyadic 3 4]) by reflexivity.
  split; [exact Hs|].
  destruct (@evaluate_gap_analysis_threshold_free demo_services some_evaluator
              (lit "gap") 3 half half w0)
    as (_ & avg & w' & Hrun & _ & Hmean & _ & Hex).
  exists avg, w'. split; [exact Hrun|]. split.
  - apply Hmean. fold scores. rewrite Hs. discriminate.
  - apply Hex. exact Hs.
Defined.

(** With an index that drifts, the record kept for a text queried
    twice is the one of the second query. *)
Example evaluate_hypotheses_overwrites :
  match @evaluate_hypotheses drifting_services some_evaluator
          [lit "a"; lit "a"] 3 half w0 with
  | Returns results _ =>
      size results = 1%nat
      /\ top_k_scores <$> results !! lit "a" = Some [Finite (Qc_of_Z 1)]
  | _ => False
  end.
Proof. vm_compute. split; reflexivity. Qed.

(** X2: three documents of 40, 0 and 30 chunks are indexed under a
    path that holds nothing yet. *)
Lemma build_faiss_aligned_witness :
  (∅ : gmap pystr (list (pystr * nat))) !! lit "faiss_index" = None
  /\ (forall b, length (demo_embed b) = length b)
  /\ ((_load_or_build_faiss demo_chunks demo_embed ∅ (lit "faiss_index")
         [lit "a.pdf"; lit "b.pdf"; lit "c.pdf"]).1).*1
     = concat (demo_chunks <$> [lit "a.pdf"; lit "b.pdf"; lit "c.pdf"]).
Proof.
  assert (Hnew : (∅ : gmap pystr (list (pystr * nat))) !! lit "faiss_index"
                 = None) by apply lookup_empty.
  assert (Hlen : forall b, length (demo_embed b) = length b)
    by (intros b; apply length_fmap).
  split; [exact Hnew|]. split; [exact Hlen|].
  pose proof (build_faiss_aligned demo_chunks demo_embed ∅ (lit "faiss_index")
                [lit "a.pdf"; lit "b.pdf"; lit "c.pdf"] Hnew Hlen) as Hb.
  cbv zeta in Hb. exact (proj1 Hb).
Defined.

(** X5: the summarizer of the concrete world is steady, and two
    completion orders give the same context. *)
Lemma get_context_order_free_witness :
  @steady_summarizer demo_services
  /\ exists context w1 w2,
       @_get_context demo_services some_pipeline 3 [0; 1; 2]%nat w0
         = Returns context w1
       /\ @_get_context demo_services some_pipeline 3 [2; 0; 1]%nat w0
          = Returns context w2
       /\ context
          = lit "alpha" ++ [LF; LF] ++ lit "gamma" ++ [LF; LF] ++ lit "delta".
Proof.
  assert (Hsteady : @steady_summarizer demo_services)
    by (intros tr tr' text; reflexivity).
  split; [exact Hsteady|].
  destruct (@get_context_order_free demo_services some_pipeline 3
              [0; 1; 2]%nat [2; 0; 1]%nat w0 Hsteady)
    as (context & w1 & w2 & Hrun1 & Hrun2 & Hctx & _).
  exists context, w1, w2. split; [exact Hrun1|]. split; [exact Hrun2|].
  rewrite Hctx. vm_compute. reflexivity.
Defined.

(** X6: with an index that holds nothing the context is empty. *)
Lemma get_context_no_chunks_witness :
  @similarity_search_with_score bare_services (trace w0)
    (faiss_path some_pipeline) [] 3 = []
  /\ @_get_context bare_services some_pipeline 3 [] w0
     = Returns []
         (World (clock w0 + @elapsed bare_services StepContext) (environ w0)
            (dirs w0) (trace w0 ++ [EvQuery (faiss_path some_pipeline) [] 3])).
Proof.
  split; [reflexivity|].
  apply (@get_context_no_chunks bare_services some_pipeline 3 [] w0).
  reflexivity.
Defined.

(** X10: the experiment "e" works on the index "faiss_e". *)
Lemma run_experiment_namespace_witness :
  truthy (resolved_token w0) = true
  /\ exists r w' new,
       @run_experiment demo_services (lit "e") [] 3 2 [] [] w0 = Returns r w'
       /\ trace w' = trace w0 ++ EvPrint (PrExperiment (lit "e")) :: new
       /\ dirs w' = {[lit "faiss_" ++ lit "e"]} ∪ dirs w0.
Proof.
  split; [reflexivity|].
  destruct (@run_experiment_namespace demo_services (lit "e") [] 3 2 [] [] w0)
    as (r & w' & new & Hrun & Htr & _ & Hdirs & _); [reflexivity|].
  exists r, w', new. split; [exact Hrun|]. split; [exact Htr|exact Hdirs].
Defined.

(** X11: a blank variable makes construction raise, a set one gives
    the token of the pipeline. *)
Lemma pipeline_token_from_environment_witness :
  (environ w_blank !! TOKEN_VAR = Some []
   /\ @MultiAgentPipeline_init demo_services [] (lit "faiss_index") w_blank
      = Raises (EnvironmentError (lit "Set HUGGINGFACEHUB_API_TOKEN")) w_blank)
  /\ (lit "hf_mine" <> []
      /\ environ w_token !! TOKEN_VAR = Some (lit "hf_mine")
      /\ exists pipe w',
           @MultiAgentPipeline_init demo_services [] (lit "faiss_index") w_token
             = Returns pipe w'
           /\ hf_token pipe = lit "hf_mine").
Proof.
  assert (Hblank : environ w_blank !! TOKEN_VAR = Some [])
    by (vm_compute; reflexivity).
  assert (Hset : environ w_token !! TOKEN_VAR = Some (lit "hf_mine"))
    by (vm_compute; reflexivity).
  assert (Hne : lit "hf_mine" <> []) by discriminate.
  split.
  - split; [exact Hblank|].
    destruct (@pipeline_token_from_environment demo_services []
                (lit "faiss_index") w_blank) as [Hraise _].
    exact (proj1 (Hraise Hblank)).
  - split; [exact Hne|]. split; [exact Hset|].
    destruct (@pipeline_token_from_environment demo_services []
                (lit "faiss_index") w_token) as [_ Hok].
    destruct (Hok (lit "hf_mine") Hne Hset) as (pipe & w' & Hrun & Htok & _).
    exists pipe, w'. split; [exact Hrun|exact Htok].
Defined.

(** X12: the result of the concrete experiment is aligned. *)
Lemma run_experiment_aligned_witness :
  truthy (resolved_token w0) = true
  /\ exists r w',
       @run_experiment demo_services (lit "e") [] 3 2 [] [] w0 = Returns r w'
       /\ length (exp_validations r) = length (hypotheses r)
       /\ length (scores r) = length (hypotheses r)
       /\ (forall v, Some v ∈ scores r -> 1 <= v <= 10).
Proof.
  split; [reflexivity|].
  destruct (@run_experiment_aligned demo_services (lit "e") [] 3 2 [] [] w0)
    as (r & w' & Hrun & Hvals & Hscores & _ & Hrange & _); [reflexivity|].
  exists r, w'. split; [exact Hrun|]. split; [exact Hvals|].
  split; [exact Hscores|exact Hrange].
Defined.

(** X13: with the index directory present and the variable set, an
    evaluator given an empty token takes the one of the variable. *)
Lemma evaluator_construction_witness :
  let w := World 1000 {[TOKEN_VAR := lit "hf_mine"]} {[lit "faiss_index"]} [] in
  lit "hf_mine" <> []
  /\ environ w !! TOKEN_VAR = Some (lit "hf_mine")
  /\ lit "faiss_index" ∈ dirs w
  /\ MultiAgentEvaluator_init (Some (lit "faiss_index")) (Some [])
       (Some TOKEN_VAR) w
     = Returns {| ev_faiss_path := lit "faiss_index";
                  ev_token := lit "hf_mine" |} w.
Proof.
  intros w.
  assert (Hne : lit "hf_mine" <> []) by discriminate.
  assert (Hset : environ w !! TOKEN_VAR = Some (lit "hf_mine"))
    by (vm_compute; reflexivity).
  assert (Hdir : lit "faiss_index" ∈ dirs w)
    by (unfold w; cbn [dirs]; set_solver).
  split; [exact Hne|]. split; [exact Hset|]. split; [exact Hdir|].
  destruct (evaluator_construction (lit "faiss_index") TOKEN_VAR w)
    as (_ & _ & Henv & _).
  exact (Henv (lit "hf_mine") Hne Hset Hdir).
Defined.

(** X14: the evaluator of the second script is built on the index the
    pipeline has just saved. *)
Lemma evaluator_after_pipeline_witness :
  exists pipe w1,
    @MultiAgentPipeline_init demo_services [] (lit "faiss_index") w0
      = Returns pipe w1
    /\ MultiAgentEvaluator_init (Some (faiss_path pipe)) None None w1
       = Returns {| ev_faiss_path := lit "faiss_index";
                    ev_token := EMBEDDED_TOKEN |} w1.
Proof.
  assert (Hinit := @init_spec demo_services [] (lit "faiss_index") w0 eq_refl).
  eexists _, _. split; [exact Hinit|].
  exact (@evaluator_after_pipeline demo_services [] (lit "faiss_index") w0
           _ _ Hinit).
Defined.


(** X18: the index of the concrete world is steady, and a reordered
    input with a repetition gives the same mapping. *)
Lemma evaluate_hypotheses_steady_witness :
  @steady_index demo_services
  /\ (forall h : pystr,
        h ∈ [lit "a"; lit "b"] <-> h ∈ [lit "b"; lit "a"; lit "b"])
  /\ exists results w1 w2,
       @evaluate_hypotheses demo_services some_evaluator [lit "a"; lit "b"]
         2 half w0 = Returns results w1
       /\ @evaluate_hypotheses demo_services some_evaluator
            [lit "b"; lit "a"; lit "b"] 2 half w1 = Returns results w2.
Proof.
  assert (Hsteady : @steady_index demo_services)
    by (intros tr tr' index q k; reflexivity).
  assert (Hsame : forall h : pystr,
            h ∈ [lit "a"; lit "b"] <-> h ∈ [lit "b"; lit "a"; lit "b"]).
  { intros h. rewrite !elem_of_cons. tauto. }
  split; [exact Hsteady|]. split; [exact Hsame|].
  destruct (@evaluate_hypotheses demo_services some_evaluator
              [lit "a"; lit "b"] 2 half w0) as [res0 w1| |] eqn:E0.
  - destruct (@evaluate_hypotheses_steady demo_services some_evaluator
                [lit "a"; lit "b"] [lit "b"; lit "a"; lit "b"] 2 half w0 w1
                Hsteady Hsame)
      as (results & v1 & v2 & Hrun1 & Hrun2 & _).
    rewrite E0 in Hrun1. injection Hrun1 as -> ->.
    exists results, v1, v2. split; [reflexivity|exact Hrun2].
  - exfalso. vm_compute in E0. discriminate E0.
  - exfalso. vm_compute in E0. discriminate E0.
Defined.

(** X19: the summary of the scores 3 and 5, one score being absent. *)
Lemma summarize_scores_bounds_witness :
  clean_scores [Some 3; None; Some 5] <> []
  /\ Forall moderate (clean_scores [Some 3; None; Some 5])
  /\ exists mn mx mean (std : Qc) (v : Q),
       summarize_scores [Some 3; None; Some 5]
         = Ok {| s_min := Some mn; s_max := Some mx; s_mean := Some mean;
                 s_std := Some (Finite std) |}
       /\ number_value mean = Some v
       /\ (inject_Z mn <= v)%Q /\ (v <= inject_Z mx)%Q.
Proof.
  assert (Hne : clean_scores [Some 3; None; Some 5] <> []) by discriminate.
  assert (Hmod : Forall moderate (clean_scores [Some 3; None; Some 5])).
  { repeat constructor; unfold moderate; simpl; lia. }
  split; [exact Hne|]. split; [exact Hmod|].
  destruct (summarize_scores_bounds [Some 3; None; Some 5] Hne Hmod)
    as (mn & mx & mean & std & v & Hrun & _ & Hv & Hlo & Hhi & _).
  exists mn, mx, mean, std, v.
  split; [exact Hrun|]. split; [exact Hv|]. split; [exact Hlo|exact Hhi].
Defined.

(** X20: the scores 3 and 5 in either order, with an absent score in
    different places. *)
Lemma summarize_scores_order_free_witness :
  clean_scores [Some 3; None; Some 5] ≡ₚ clean_scores [Some 5; Some 3; None]
  /\ summarize_scores [Some 3; None; Some 5]
     = summarize_scores [Some 5; Some 3; None].
Proof.
  assert (Hp : clean_scores [Some 3; None; Some 5]
               ≡ₚ clean_scores [Some 5; Some 3; None])
    by exact (perm_swap 5 3 []).
  split; [exact Hp|].
  exact (summarize_scores_order_free _ _ Hp).
Defined.

(** X21: the summary of the concrete experiment. *)
Lemma experiment_summary_in_scale_witness :
  truthy (resolved_token w0) = true
  /\ exists r w' s,
       @run_experiment demo_services (lit "e") [] 3 2 [] [] w0 = Returns r w'
       /\ summarize_scores (scores r) = Ok s.
Proof.
  split; [reflexivity|].
  destruct (@experiment_summary_in_scale demo_services (lit "e") [] 3 2 [] []
              w0)
    as (r & w' & s & Hrun & Hsum & _); [reflexivity|].
  exists r, w', s. split; [exact Hrun|exact Hsum].
Defined.

End Witness.
